(** * VizuMarker: the semantic annotation core, embedded and verified

    A shallow embedding of the two annotation engines of the repository,

    - [ld35_service/engine/sem_core.py]   (module [SemCore] below), and
    - [ld35_service/core/ld35_engine.py]  (modules [LD35Engine] and
      [LD35Service] below),

    and of the utilities around them,

    - [ld35_service/utils/chunking.py]       (module [Chunking]), and
    - the segmentation of [ld35_service/utils/html_renderer.py]
      (module [HtmlRenderer]),

    together with the properties the specification states about them
    (module [Claims]) and further properties of the code (modules
    [SemCoreProperties], [LD35Properties], [ChunkingProperties] and
    [RendererProperties]).

    Modelling conventions.
    - A Python [str] holding document text is a list of Unicode code points
      ([text]); offsets are code-point offsets.  Python integers are [Z].
    - Marker identifiers, family names, flag strings and expression
      sources are ASCII strings ([string]).
    - Python floats (scores, weights) are modelled by exact rationals [Q]:
      only comparisons and the few arithmetic operations of the source are
      used, and no claim below depends on rounding.
    - A Python [dict] whose iteration order is observable is an association
      list in insertion order.
    - The [re] module, [ast.parse] and the built-in [eval] are external to
      the repository; they are taken as an interface ([RegexEngine]) and
      as parameters ([ast_parse], [builtin_eval]).  Module [Fixture]
      instantiates them so that the engines can be run on the scenarios
      of the specification.
    - Exceptions are modelled where the sources catch them, where an
      index can leave its list, and where [float] is applied to a number
      of the bundle ([option], [outcome]); the numbers themselves are
      finite (a bundle holds no [NaN] or [Infinity]). *)

From Stdlib Require Import List ZArith QArith Bool String Ascii Lia.
From Stdlib Require Import Sorting.Sorted Permutation.
Import ListNotations.

Local Open Scope string_scope.
Local Open Scope list_scope.
Local Open Scope Z_scope.

(* ================================================================== *)
(** * Python preliminaries                                              *)
(* ================================================================== *)

Definition codepoint := N.
Definition text := list codepoint.

(** [len(text)]. *)
Definition len {A} (l : list A) : Z := Z.of_nat (List.length l).

(** ASCII strings seen as text. *)
Fixpoint of_string (s : string) : text :=
  match s with
  | EmptyString => []
  | String c s' => N_of_ascii c :: of_string s'
  end.

(** Floats as rationals: the three comparisons the sources use. *)
Definition Qgtb (x y : Q) : bool := negb (Qle_bool x y).
Definition Qltb (x y : Q) : bool := negb (Qle_bool y x).
Definition Qeqb (x y : Q) : bool := Qeq_bool x y.

(** Python's [sorted(l, key=...)] is a stable sort: elements with equal
    keys keep their input order.  A stable sort is determined by its
    order, so stable insertion sort computes the same list as Timsort.
    [le x y] is [key(x) <= key(y)]. *)
Section Sorted.
Context {A : Type} (le : A -> A -> bool).

Fixpoint insert_sorted (x : A) (l : list A) : list A :=
  match l with
  | [] => [x]
  | y :: l' => if le x y then x :: y :: l' else y :: insert_sorted x l'
  end.

Fixpoint sorted (l : list A) : list A :=
  match l with
  | [] => []
  | x :: l' => insert_sorted x (sorted l')
  end.
End Sorted.

(** Lexicographic order on the pair keys used by the sorts. *)
Definition pair_le (k1 k2 : Z * Z) : bool :=
  (fst k1 <? fst k2) || ((fst k1 =? fst k2) && (snd k1 <=? snd k2)).

(** [text[s:e]] for [0 <= s <= e]. *)
Definition slice (t : text) (s e : Z) : text :=
  firstn (Z.to_nat (e - s)) (skipn (Z.to_nat s) t).

(** [l[i]] for an index in range; the default is never reached where the
    sources index a list (the proofs below show the indices in range). *)
Definition index {A} (d : A) (l : list A) (i : Z) : A := nth (Z.to_nat i) l d.

(** [range(1, m + 1)] *)
Definition range1 (m : Z) : list Z := map Z.of_nat (seq 1 (Z.to_nat m)).

(** [range(n)] *)
Definition range (n : Z) : list Z := map Z.of_nat (seq 0 (Z.to_nat n)).

(** A dict with observable insertion order. *)
Definition dict (V : Type) := list (string * V).

Fixpoint dict_get {V} (d : dict V) (k : string) : option V :=
  match d with
  | [] => None
  | (k', v) :: d' => if String.eqb k k' then Some v else dict_get d' k
  end.

(** [d[k] = v]: an existing key keeps its position. *)
Fixpoint dict_set {V} (d : dict V) (k : string) (v : V) : dict V :=
  match d with
  | [] => [(k, v)]
  | (k', v') :: d' =>
      if String.eqb k k' then (k, v) :: d' else (k', v') :: dict_set d' k v
  end.

Definition dict_values {V} (d : dict V) : list V := map snd d.

(** ** The [re] module, as far as the engines use it

    [re_compile src flags] is [None] when [re.compile] raises [re.error]
    (the flags [re.compile] refuses with a [ValueError] are the caller's
    to check, see [LD35Engine.flags_rejected]);
    [finditer p t] lists the [span()]s of [p.finditer(t)] in order;
    [fullmatch p t] tells whether [p.fullmatch(t)] is a match.  Match
    spans lie inside the searched text. *)
Class RegexEngine := {
  pattern : Type;
  re_compile : string -> Z -> option pattern;
  finditer : pattern -> text -> list (Z * Z);
  fullmatch : pattern -> text -> bool;
  finditer_span :
    forall p t s e, In (s, e) (finditer p t) -> 0 <= s /\ s <= e /\ e <= len t
}.

(** [re.IGNORECASE], [re.MULTILINE], [re.DOTALL] *)
Definition IGNORECASE : Z := 2.
Definition MULTILINE : Z := 8.
Definition DOTALL : Z := 16.

(** ** The marker bundle (parsed JSON)

    One record serves both engines; an absent key is [None] or the empty
    list. *)
Record detect_spec := mkDetect {
  regex : string;          (* d.get("regex", "") *)
  flags : string           (* d.get("flags", "") *)
}.

Record child_spec := mkChild {
  child_marker_id : string;
  weight : option Q
}.

Record policy := mkPolicy {
  mode : option string;
  max_sentence_span : option Z;
  window_tokens : option (Z * Z);
  fallback : option string
}.

Record scoring_spec := mkScoring {
  scoring_weight : option Q;
  scoring_base : option Q;
  scoring_score : option Q
}.

Record Marker := mkMarker {
  id : string;
  kind : option string;
  detects : list detect_spec;
  demote_if : list detect_spec;
  composed_of : list child_spec;
  activation : option string;
  span_policy : option policy;
  min_children : option Z;              (* carried by a bundle; no engine reads it *)
  min_score : option Q;
  frame_concept : option string;
  frame_signal : list string;
  description : option string;
  examples : list string;
  scoring : option scoring_spec;
  explicit_score : option Q;            (* marker_data.get('score') *)
  declared_family : option string       (* marker_data.get('family') *)
}.

(** ** Values and expressions of the activation language

    The nodes [ast.parse(..., mode="eval")] can return, as far as the
    evaluators distinguish them; constants are restricted to int, float,
    bool, str and [None]. *)
Inductive value :=
| VInt (z : Z)
| VFloat (q : Q)
| VBool (b : bool)
| VStr (s : string)
| VNone.

Inductive boolop := And | Or.
Inductive unaryop := Not | OtherUnary.           (* USub, UAdd, Invert *)
Inductive cmpop := Eq | NotEq | Lt | LtE | Gt | GtE
                 | OtherCmp.                     (* Is, IsNot, In, NotIn *)

#[warnings="-register-all"]
Inductive expr :=
| BoolOp (op : boolop) (values : list expr)
| Compare (left : expr) (ops_comparators : list (cmpop * expr))
| UnaryOp (op : unaryop) (operand : expr)
| Name (name_id : string)
| Constant (v : value)
| OtherNode.                                     (* BinOp, Call, ... *)

(** Python truthiness, [bool(v)]. *)
Definition truthy (v : value) : bool :=
  match v with
  | VInt z => negb (z =? 0)
  | VFloat q => negb (Qeqb q 0)
  | VBool b => b
  | VStr s => negb (String.eqb s "")
  | VNone => false
  end.

(** The number a numeric value stands for ([bool] is a subclass of [int]). *)
Definition as_number (v : value) : option Q :=
  match v with
  | VInt z => Some (inject_Z z)
  | VFloat q => Some q
  | VBool b => Some (if b then 1%Q else 0%Q)
  | _ => None
  end.

Definition value_eq (a b : value) : bool :=
  match as_number a, as_number b with
  | Some x, Some y => Qeqb x y
  | _, _ =>
      match a, b with
      | VStr s, VStr s' => String.eqb s s'
      | VNone, VNone => true
      | _, _ => false
      end
  end.

(** [s < s'] on ASCII strings (code-point order). *)
Fixpoint string_ltb (s s' : string) : bool :=
  match s, s' with
  | _, EmptyString => false
  | EmptyString, String _ _ => true
  | String c r, String c' r' =>
      (N_of_ascii c <? N_of_ascii c')%N
      || ((N_of_ascii c =? N_of_ascii c')%N && string_ltb r r')
  end.

(** [operator.lt(a, b)]; [None] is [TypeError]. *)
Definition value_lt (a b : value) : option bool :=
  match as_number a, as_number b with
  | Some x, Some y => Some (Qltb x y)
  | _, _ =>
      match a, b with
      | VStr s, VStr s' => Some (string_ltb s s')
      | _, _ => None
      end
  end.

Definition value_le (a b : value) : option bool :=
  match as_number a, as_number b with
  | Some x, Some y => Some (Qle_bool x y)
  | _, _ =>
      match a, b with
      | VStr s, VStr s' => Some (negb (string_ltb s' s))
      | _, _ => None
      end
  end.

(** [OPS[type(op)](left, right)]; [None] is an exception ([KeyError] for
    an operator outside [OPS], [TypeError] for unorderable operands). *)
Definition apply_cmpop (op : cmpop) (a b : value) : option bool :=
  match op with
  | Eq => Some (value_eq a b)
  | NotEq => Some (negb (value_eq a b))
  | Lt => value_lt a b
  | LtE => value_le a b
  | Gt => value_lt b a
  | GtE => value_le b a
  | OtherCmp => None
  end.

(** [s.replace(cc, rep)] for a doubled character [cc]. *)
Fixpoint replace_doubled (c : ascii) (rep : string) (s : string) : string :=
  match s with
  | String a (String b s' as t) =>
      if (Ascii.eqb a c && Ascii.eqb b c)%bool
      then (rep ++ replace_doubled c rep s')%string
      else String a (replace_doubled c rep t)
  | _ => s
  end.

(** [expr.replace("&&", " and ").replace("||", " or ")] *)
Definition normalize_operators (e : string) : string :=
  replace_doubled "|" " or " (replace_doubled "&" " and " e).

(* ================================================================== *)
(** * sem_core.py                                                       *)
(* ================================================================== *)

Module SemCore.

(** An annotation dict [{"marker_id", "family", "start", "end", "score"}]. *)
Record ann := mkAnn {
  marker_id : string;
  family : string;
  start : Z;
  end_ : Z;
  score : Q
}.

(** ** Utilities: [sentence_boundaries] *)

(** [enders = set(".!?…")] *)
Definition is_ender (ch : codepoint) : bool :=
  ((ch =? 46) || (ch =? 33) || (ch =? 63) || (ch =? 8230))%N.

(** [closing_chars = r'"»\'")\]}'] -- a raw string, so the two
    backslashes are characters of it. *)
Definition is_closing (ch : codepoint) : bool :=
  ((ch =? 34) || (ch =? 187) || (ch =? 92) || (ch =? 39)
   || (ch =? 41) || (ch =? 93) || (ch =? 125))%N.

(** [str.isspace()] on one character. *)
Definition isspace (ch : codepoint) : bool :=
  (((9 <=? ch) && (ch <=? 13)) || ((28 <=? ch) && (ch <=? 32))
   || (ch =? 133) || (ch =? 160) || (ch =? 5760)
   || ((8192 <=? ch) && (ch <=? 8202)) || (ch =? 8232) || (ch =? 8233)
   || (ch =? 8239) || (ch =? 8287) || (ch =? 12288))%N.

Definition is_char (c : codepoint) (o : option codepoint) : bool :=
  match o with Some ch => (ch =? c)%N | None => false end.

(** [while j < N and text[j] in closing_chars: j += 1] *)
Fixpoint skip_closing (fuel : nat) (t : text) (j : nat) : nat :=
  match fuel with
  | O => j
  | S fuel' =>
      match nth_error t j with
      | Some ch => if is_closing ch then skip_closing fuel' t (S j) else j
      | None => j
      end
  end.

(** The [if ch in enders:] block: [Some j] when it appends [(start, j)]
    and continues, [None] when control falls through. *)
Definition ender_break (t : text) (i : nat) (ch : codepoint) : option nat :=
  if is_ender ch then
    let j := skip_closing (List.length t) t (S i) in
    match nth_error t j with
    | None => Some j                                  (* j >= N *)
    | Some c => if isspace c then Some j else None
    end
  else None.

(** The [while i < N] loop on the state [(i, start, out)]; it returns
    the final [(start, out)].  Every iteration advances [i], so
    [N - i] units of fuel reach the loop exit. *)
Fixpoint sentence_loop (fuel : nat) (t : text) (i start : nat)
    (out : list (Z * Z)) : nat * list (Z * Z) :=
  match fuel with
  | O => (start, out)
  | S fuel' =>
      match nth_error t i with
      | None => (start, out)                          (* i >= N *)
      | Some ch =>
          let nxt := nth_error t (S i) in
          match ender_break t i ch with
          | Some j =>
              sentence_loop fuel' t j j (out ++ [(Z.of_nat start, Z.of_nat j)])
          | None =>
              if ((ch =? 10)%N && (is_char 10%N nxt || is_char 13%N nxt))%bool then
                sentence_loop fuel' t (S i) (S i)
                  (out ++ [(Z.of_nat start, Z.of_nat i)])
              else sentence_loop fuel' t (S i) start out
          end
      end
  end.

Definition sentence_boundaries (t : text) : list (Z * Z) :=
  let N := List.length t in
  let '(start, out) := sentence_loop N t 0 0 [] in
  if (start <? N)%nat then out ++ [(Z.of_nat start, Z.of_nat N)] else out.

(** ** Canon indexing *)

Definition kind_is (k : string) (m : Marker) : bool :=
  match kind m with Some k' => String.eqb k' k | None => false end.

Record Canon := mkCanon {
  by_id : dict Marker;
  atomics : list Marker;
  composed : list Marker
}.

Definition Canon_init (markers : list Marker) : Canon :=
  {| by_id := fold_left (fun d m => dict_set d (id m) m) markers [];
     atomics := filter (kind_is "atomic") markers;
     composed := filter (kind_is "composed") markers |}.

(** ** String helpers for flag strings and marker ids *)

Definition ascii_lower (c : ascii) : ascii :=
  let n := N_of_ascii c in
  if ((65 <=? n) && (n <=? 90))%N then ascii_of_N (n + 32) else c.

Definition ascii_upper (c : ascii) : ascii :=
  let n := N_of_ascii c in
  if ((97 <=? n) && (n <=? 122))%N then ascii_of_N (n - 32) else c.

Fixpoint string_map (f : ascii -> ascii) (s : string) : string :=
  match s with
  | EmptyString => EmptyString
  | String c s' => String (f c) (string_map f s')
  end.

Definition lower := string_map ascii_lower.
Definition upper := string_map ascii_upper.

(** [c in s] for a one-character [c] *)
Fixpoint contains_char (c : ascii) (s : string) : bool :=
  match s with
  | EmptyString => false
  | String a s' => Ascii.eqb a c || contains_char c s'
  end.

(** [s.split(sep, 1)[0]] *)
Fixpoint split_first (sep : ascii) (s : string) : string :=
  match s with
  | EmptyString => EmptyString
  | String a s' => if Ascii.eqb a sep then EmptyString else String a (split_first sep s')
  end.

(** [marker_id.split("_", 1)[0].upper()] *)
Definition family_of (marker_id : string) : string := upper (split_first "_" marker_id).

Section Engine.
Context {RE : RegexEngine}.

(** ** Atomic detection *)

(** The flag computation shared by the detect and demote loops. *)
Definition parse_flags (flags_str : string) : Z :=
  let f0 := 0 in
  let f1 := if contains_char "i" (lower flags_str) then Z.lor f0 IGNORECASE else f0 in
  let f2 := if contains_char "m" (lower flags_str) then Z.lor f1 MULTILINE else f1 in
  if contains_char "s" (lower flags_str) then Z.lor f2 DOTALL else f2.

(** Patterns that fail to compile are skipped (with a printed warning). *)
Definition compile_specs (specs : list detect_spec) : list pattern :=
  flat_map (fun d =>
              match re_compile (regex d) (parse_flags (flags d)) with
              | Some compiled_pattern => [compiled_pattern]
              | None => []
              end) specs.

Definition rx_entry : Type := list pattern * list pattern.

Definition compile_atomic_regex (canon : Canon) : dict rx_entry :=
  fold_left (fun rx m => dict_set rx (id m)
                           (compile_specs (detects m), compile_specs (demote_if m)))
            (atomics canon) [].

(** [not (demote_end <= start or demote_start >= end)] *)
Definition demote_overlaps (s e : Z) (span : Z * Z) : bool :=
  let '(demote_start, demote_end) := span in
  negb ((demote_end <=? s) || (demote_start >=? e)).

Definition should_demote_match (t : text) (s e : Z)
    (demote_patterns : list pattern) : bool :=
  match demote_patterns with
  | [] => false
  | _ =>
      if existsb (fun p => fullmatch p (slice t s e)) demote_patterns then true
      else existsb (fun p => existsb (demote_overlaps s e) (finditer p t))
                   demote_patterns
  end.

(** The hits one compiled pattern contributes, in match order. *)
Definition pattern_hits (t : text) (marker_id : string)
    (demote_patterns : list pattern) (p : pattern) : list ann :=
  flat_map (fun '(s, e) =>
              if e <=? s then []
              else if should_demote_match t s e demote_patterns then []
              else [ {| marker_id := marker_id; family := family_of marker_id;
                        start := s; end_ := e; score := 1 |} ])
           (finditer p t).

(** [key=lambda a: (a["start"], -a["end"])] *)
Definition atomic_le (a b : ann) : bool :=
  pair_le (start a, - end_ a) (start b, - end_ b).

Definition detect_atomics (t : text) (rx_index : dict rx_entry) : list ann :=
  let anns :=
    flat_map (fun '(marker_id, (patterns, demote_patterns)) =>
                flat_map (pattern_hits t marker_id demote_patterns) patterns)
             rx_index in
  sorted atomic_le anns.

End Engine.

(** ** Safe eval for activation formulas *)

(** [_eval(node, env)]; [None] is a raised exception.  [BoolOp] evaluates
    all its operands before [any]/[all]; [Compare] stops at the first
    comparison that fails. *)
Fixpoint _eval (node : expr) (env : dict value) : option value :=
  match node with
  | BoolOp op values =>
      let vals :=
        (fix eval_all (vs : list expr) : option (list value) :=
           match vs with
           | [] => Some []
           | v :: vs' =>
               match _eval v env with
               | None => None
               | Some x =>
                   match eval_all vs' with
                   | None => None
                   | Some xs => Some (x :: xs)
                   end
               end
           end) values in
      match vals with
      | None => None
      | Some vals =>
          match op with
          | Or => Some (VBool (existsb truthy vals))
          | And => Some (VBool (forallb truthy vals))
          end
      end
  | Compare l ops_comparators =>
      match _eval l env with
      | None => None
      | Some left0 =>
          (fix chain (lhs : value) (rest : list (cmpop * expr)) : option value :=
             match rest with
             | [] => Some (VBool true)
             | (op, r) :: rest' =>
                 match _eval r env with
                 | None => None
                 | Some rhs =>
                     match apply_cmpop op lhs rhs with
                     | None => None
                     | Some false => Some (VBool false)
                     | Some true => chain rhs rest'
                     end
                 end
             end) left0 ops_comparators
      end
  | UnaryOp Not operand =>
      match _eval operand env with
      | None => None
      | Some v => Some (VBool (negb (truthy v)))
      end
  | Name name_id =>
      match dict_get env name_id with        (* env.get(node.id, 0) *)
      | Some v => Some v
      | None => Some (VInt 0)
      end
  | Constant v => Some v
  | UnaryOp OtherUnary _ => None               (* ValueError *)
  | OtherNode => None                          (* ValueError *)
  end.

Section Activation.
(** [ast.parse(src, mode="eval").body]; [None] is [SyntaxError]. *)
Variable ast_parse : string -> option expr.

Definition eval_activation (e : option string) (env : dict value) : bool :=
  match e with
  | None => true
  | Some src =>
      if String.eqb src "" then true
      else
        let safe_expr := normalize_operators src in
        match ast_parse safe_expr with
        | None => false
        | Some tree =>
            match _eval tree env with
            | Some result => truthy result
            | None => false
            end
        end
  end.
End Activation.

(** ** Span policies for sentence-level spans *)

(** The [while need > 0 and (iL > 0 or iR < N - 1)] loop of
    [sentence_union]; [need] decreases by one per iteration. *)
Fixpoint sentence_union_loop (need : nat) (step N iL iR : Z) : Z * Z :=
  match need with
  | O => (iL, iR)
  | S need' =>
      if (iL >? 0) || (iR <? N - 1) then
        if (step mod 2 =? 0) && (iR <? N - 1)
        then sentence_union_loop need' (step + 1) N iL (iR + 1)
        else if iL >? 0
        then sentence_union_loop need' (step + 1) N (iL - 1) iR
        else sentence_union_loop need' (step + 1) N iL iR
      else (iL, iR)
  end.

Definition sentence_union (sentences : list (Z * Z)) (iL iR max_sent : Z) : Z * Z :=
  let need := Z.max 1 max_sent - (iR - iL + 1) in
  let '(iL', iR') := sentence_union_loop (Z.to_nat need) 0 (len sentences) iL iR in
  (fst (index (0, 0) sentences iL'), snd (index (0, 0) sentences iR')).

(** [text.rfind(c, 0, stop)] and [text.find(c, from)] for non-negative
    bounds; [-1] when absent. *)
Fixpoint last_index_of (c : codepoint) (t : text) : option nat :=
  match t with
  | [] => None
  | x :: t' =>
      match last_index_of c t' with
      | Some k => Some (S k)
      | None => if (x =? c)%N then Some O else None
      end
  end.

Fixpoint first_index_of (c : codepoint) (t : text) : option nat :=
  match t with
  | [] => None
  | x :: t' =>
      if (x =? c)%N then Some O
      else match first_index_of c t' with Some k => Some (S k) | None => None end
  end.

Definition rfind (t : text) (c : codepoint) (stop : Z) : Z :=
  match last_index_of c (firstn (Z.to_nat stop) t) with
  | Some k => Z.of_nat k
  | None => -1
  end.

Definition find (t : text) (c : codepoint) (from : Z) : Z :=
  match first_index_of c (skipn (Z.to_nat from) t) with
  | Some k => from + Z.of_nat k
  | None => -1
  end.

Definition COMMA : codepoint := 44%N.
Definition SEMICOLON : codepoint := 59%N.

Definition clause_union (t : text) (s e : Z) : Z * Z :=
  let text_len := len t in
  let left_comma := rfind t COMMA s in
  let left_semi := rfind t SEMICOLON s in
  let left_bound := Z.max left_comma left_semi in
  let s' := if left_bound >=? 0 then left_bound + 1 else s in
  let right_comma := find t COMMA e in
  let right_semi := find t SEMICOLON e in
  let right_bounds := filter (fun x => negb (x =? -1)) [right_comma; right_semi] in
  let e' := match right_bounds with
            | [] => e
            | x :: xs => fold_left Z.min xs x
            end in
  (Z.max 0 s', Z.min text_len e').

(** The first sentence index [i] with [s_start <= pos < s_end]. *)
Fixpoint first_containing (sentences : list (Z * Z)) (i pos : Z) : option Z :=
  match sentences with
  | [] => None
  | (s_start, s_end) :: rest =>
      if (s_start <=? pos) && (pos <? s_end) then Some i
      else first_containing rest (i + 1) pos
  end.

(** The second [enumerate] loop of the [sentence_union] branch: the last
    matching index overwrites [iL], resp. [iR]. *)
Fixpoint span_range (sentences : list (Z * Z)) (i s e iL iR : Z) : Z * Z :=
  match sentences with
  | [] => (iL, iR)
  | (s_start, s_end) :: rest =>
      let iL' := if (s_start <=? s) && (s <? s_end) then i else iL in
      let iR' := if (s_start <? e) && (e <=? s_end) then i else iR in
      span_range rest (i + 1) s e iL' iR'
  end.

Definition empty_policy : policy :=
  {| mode := None; max_sentence_span := None; window_tokens := None; fallback := None |}.

Definition policy_mode (p : policy) : string :=
  match mode p with Some m => m | None => "anchor_window" end.

Definition policy_max_sentence_span (p : policy) : Z :=
  match max_sentence_span p with Some n => n | None => 1 end.

Definition policy_window_tokens (p : policy) : Z * Z :=
  match window_tokens p with Some w => w | None => (-8, 8) end.

Definition apply_span_policy (pol : policy) (t : text)
    (sentences : list (Z * Z)) (s e : Z) : Z * Z :=
  if String.eqb (policy_mode pol) "sentence_union" then
    let mid := (s + e) / 2 in
    match first_containing sentences 0 mid with
    | None => (s, e)
    | Some sent_idx =>
        let '(iL, iR) := span_range sentences 0 s e sent_idx sent_idx in
        sentence_union sentences iL iR (policy_max_sentence_span pol)
    end
  else if String.eqb (policy_mode pol) "clause_union" then
    clause_union t s e
  else
    let window := policy_window_tokens pol in
    let chars_per_token := 4 in
    let left_expand := fst window * chars_per_token in
    let right_expand := snd window * chars_per_token in
    (Z.max 0 (s + left_expand), Z.min (len t) (e + right_expand)).

(** ** Composition engine for semantic patterns *)

(** [round(x, 3)] on the exact rational: nearest multiple of 1/1000,
    ties to even.  (Python rounds the double next to [x], which can be
    the neighbouring multiple when [x] is within a double's precision of
    a tie; no property below reads a rounded value.) *)
Definition round3 (x : Q) : Q :=
  let n := Qnum x * 1000 in
  let d := Zpos (Qden x) in
  let f := n / d in
  let r := n mod d in
  let m := if 2 * r <? d then f
           else if d <? 2 * r then f + 1
           else if Z.even f then f else f + 1 in
  Qmake m 1000.

Definition Qsum (l : list Q) : Q := fold_left Qplus l 0%Q.
Definition Zsum (l : list Z) : Z := fold_left Z.add l 0.

(** [per_sent[k].append(a)] *)
Fixpoint append_at {A} (l : list (list A)) (k : nat) (a : A) : list (list A) :=
  match l, k with
  | [], _ => []
  | x :: r, O => (x ++ [a]) :: r
  | x :: r, S k' => x :: append_at r k' a
  end.

Definition midpoint (a : ann) : Z := (start a + end_ a) / 2.

(** Distribute atomic annotations to sentences. *)
Definition distribute (sentences : list (Z * Z)) (atoms : list ann) : list (list ann) :=
  fold_left (fun per_sent atomic =>
               match first_containing sentences 0 (midpoint atomic) with
               | Some sent_idx => append_at per_sent (Z.to_nat sent_idx) atomic
               | None => per_sent
               end)
            atoms (map (fun _ => []) sentences).

(** [range(a, b + 1)] *)
Definition range_incl (a b : Z) : list Z :=
  map (fun k => a + Z.of_nat k) (seq 0 (Z.to_nat (b - a + 1))).

Definition child_weight (c : child_spec) : Q :=
  match weight c with Some w => w | None => 1%Q end.

(** [counts = {marker_id: 0 for marker_id in needed_ids}], then one
    increment per window atomic whose id is a key, then
    [counts["total_children"] = sum(counts.values())]. *)
Definition window_counts (needed_ids : list string) (window_atomics : list ann) : dict Z :=
  let counts0 := fold_left (fun d k => dict_set d k 0) needed_ids [] in
  let counts1 :=
    fold_left (fun d atomic =>
                 match dict_get d (marker_id atomic) with
                 | Some n => dict_set d (marker_id atomic) (n + 1)
                 | None => d
                 end) window_atomics counts0 in
  dict_set counts1 "total_children" (Zsum (dict_values counts1)).

Definition total_children (counts : dict Z) : Z :=
  match dict_get counts "total_children" with Some n => n | None => 0 end.

Definition default_span_policy : policy :=
  {| mode := Some "sentence_union"; max_sentence_span := Some 1;
     window_tokens := None; fallback := None |}.

Section Compose.
Variable ast_parse : string -> option expr.

(** The body of the [window_size] loop for one window; [None] when the
    window is skipped or the activation formula is false. *)
Definition compose_window (t : text) (sentences : list (Z * Z))
    (per_sent : list (list ann)) (m : Marker) (i0 window_size : Z) : option ann :=
  let marker_id := id m in
  let activation_expr :=
    match activation m with Some a => a | None => "total_children >= 1"%string end in
  let pol := match span_policy m with Some p => p | None => default_span_policy end in
  let weights_map :=
    fold_left (fun d c => dict_set d (child_marker_id c) (child_weight c))
              (composed_of m) [] in
  let needed_ids := map child_marker_id (composed_of m) in
  let iR := Z.min (len sentences - 1) (i0 + window_size - 1) in
  let window_atomics := flat_map (fun k => index [] per_sent k) (range_incl i0 iR) in
  let counts := window_counts needed_ids window_atomics in
  if total_children counts =? 0 then None
  else if eval_activation ast_parse (Some activation_expr)
            (map (fun '(k, v) => (k, VInt v)) counts) then
    let present_weight :=
      Qsum (flat_map (fun '(k, v) =>
                        match dict_get weights_map k with
                        | Some w => if v >? 0 then [w] else []
                        | None => []
                        end) counts) in
    let total := Qsum (dict_values weights_map) in
    let total_weight := if Qeqb total 0 then 1%Q else total in
    let sc := (present_weight / total_weight)%Q in
    let window_start := fst (index (0, 0) sentences i0) in
    let window_end := snd (index (0, 0) sentences iR) in
    let '(final_start, final_end) :=
      apply_span_policy pol t sentences window_start window_end in
    Some {| marker_id := marker_id; family := family_of marker_id;
            start := final_start; end_ := final_end; score := round3 sc |}
  else None.

(** [for window_size in range(1, max_span_sentences + 1): ... break] *)
Fixpoint first_window (t : text) (sentences : list (Z * Z))
    (per_sent : list (list ann)) (m : Marker) (i0 : Z) (sizes : list Z) : list ann :=
  match sizes with
  | [] => []
  | window_size :: sizes' =>
      match compose_window t sentences per_sent m i0 window_size with
      | Some a => [a]
      | None => first_window t sentences per_sent m i0 sizes'
      end
  end.

Definition compose_marker (t : text) (sentences : list (Z * Z))
    (per_sent : list (list ann)) (m : Marker) : list ann :=
  match composed_of m with
  | [] => []
  | _ =>
      let pol := match span_policy m with Some p => p | None => default_span_policy end in
      let max_span_sentences := policy_max_sentence_span pol in
      flat_map (fun i0 => first_window t sentences per_sent m i0
                            (range1 max_span_sentences))
               (range (len sentences))
  end.

(** [compose(text, canon, atomics, promotion, weights)]; neither
    [promotion] nor [weights] is read by the body. *)
Definition compose {P W : Type} (t : text) (canon : Canon) (atoms : list ann)
    (promotion : P) (weights : W) : list ann :=
  let sentences := sentence_boundaries t in
  let per_sent := distribute sentences atoms in
  flat_map (compose_marker t sentences per_sent) (composed canon).

End Compose.

(** ** Overlap resolution with family priority *)

(** [FAMILY_ORDER.get(family, 9)] *)
Definition FAMILY_ORDER (fam : string) : Z :=
  if String.eqb fam "SEM" then 0
  else if String.eqb fam "CLU" then 1
  else if String.eqb fam "ATO" then 2
  else if String.eqb fam "MEMA" then 3
  else if String.eqb fam "DEESC" then 4
  else 9.

(** [not (current["end"] <= existing["start"] or current["start"] >= existing["end"])] *)
Definition overlaps (current existing : ann) : bool :=
  negb ((end_ current <=? start existing) || (start current >=? end_ existing)).

(** The priority test of [resolve_overlaps]: family rank, then score,
    then length. *)
Definition current_wins (current existing : ann) : bool :=
  let cur_family_rank := FAMILY_ORDER (family current) in
  let existing_family_rank := FAMILY_ORDER (family existing) in
  (cur_family_rank <? existing_family_rank)
  || ((cur_family_rank =? existing_family_rank)
      && Qgtb (score current) (score existing))
  || ((cur_family_rank =? existing_family_rank)
      && Qeqb (score current) (score existing)
      && ((end_ current - start current) >? (end_ existing - start existing))).

(** The inner [for j, existing in enumerate(kept)] loop.  [Some kept']
    means an overlap was met ([should_drop = True], with [kept[j]]
    replaced when [current] wins); [None] means the loop ran to its end. *)
Fixpoint scan_kept (current : ann) (kept : list ann) : option (list ann) :=
  match kept with
  | [] => None
  | existing :: rest =>
      if overlaps current existing then
        if current_wins current existing
        then Some (current :: rest)
        else Some (existing :: rest)
      else option_map (cons existing) (scan_kept current rest)
  end.

Definition resolve_step (kept : list ann) (current : ann) : list ann :=
  match scan_kept current kept with
  | Some kept' => kept'
  | None => kept ++ [current]
  end.

(** [key=lambda a: (a["start"], -(a["end"] - a["start"]))] *)
Definition position_key (a : ann) : Z * Z := (start a, - (end_ a - start a)).

Definition position_le (a b : ann) : bool := pair_le (position_key a) (position_key b).

(** [resolve_overlaps(anns, weights)]; [weights] is not read by the body. *)
Definition resolve_overlaps {W : Type} (anns : list ann) (weights : W) : list ann :=
  fold_left resolve_step (sorted position_le anns) [].

(** ** Public API *)

Record metadata := mkMeta {
  atomic_count : Z;
  composed_count : Z;
  final_count : Z
}.

Record result := mkResult {
  result_text : text;
  annotations : list ann;
  result_metadata : metadata
}.

(** The three resource files, as loaded: the [markers] array of the
    canonical file and the promotion and weights objects ([{}] when a
    file is missing or unreadable). *)
Record bundle (P W : Type) := mkBundle {
  markers : list Marker;
  promotion : P;
  weights : W
}.
Arguments markers {P W}.
Arguments promotion {P W}.
Arguments weights {P W}.

Section Analyze.
Context {RE : RegexEngine}.
Variable ast_parse : string -> option expr.

Definition analyze_text {P W : Type} (t : text) (resources : bundle P W) : result :=
  let canon := Canon_init (markers resources) in
  let rx_index := compile_atomic_regex canon in
  let atomic_annotations := detect_atomics t rx_index in
  let composed_annotations :=
    compose ast_parse t canon atomic_annotations
            (promotion resources) (weights resources) in
  let all_annotations := atomic_annotations ++ composed_annotations in
  let final_annotations := resolve_overlaps all_annotations (weights resources) in
  {| result_text := t;
     annotations := final_annotations;
     result_metadata :=
       {| atomic_count := len atomic_annotations;
          composed_count := len composed_annotations;
          final_count := len final_annotations |} |}.

End Analyze.

End SemCore.

(* ================================================================== *)
(** * ld35_engine.py                                                    *)
(* ================================================================== *)

(** An entry of [promotion_mapping.ld35.json]. *)
Record promotion_entry := mkPromotion {
  promo_marker_id : string;
  activate_when : option string;
  promo_min_score : option Q;
  promote_to : option string
}.

(** The [composed] object of [weights.ld35.json]. *)
Record weights_cfg := mkWeights {
  composed_min_children : option Z;
  composed_min_score : option Q
}.

(** A computation that may raise. *)
Inductive outcome (A : Type) :=
| Ok (a : A)
| Raised.
Arguments Ok {A}.
Arguments Raised {A}.

(** [float(x)] on a number of the bundle.  Floats are modelled by the
    rationals they stand for, so a number of magnitude [2^1024 - 2^970]
    or more can only be an [int]; it rounds to no double, and [float]
    raises [OverflowError] on it. *)
Definition FLOAT_LIMIT : Q := inject_Z (2 ^ 1024 - 2 ^ 970).

Definition py_float (x : Q) : outcome Q :=
  if Qle_bool FLOAT_LIMIT x || Qle_bool x (- FLOAT_LIMIT) then Raised else Ok x.

(** [l[i]] with Python's negative indices; [None] is [IndexError]. *)
Definition py_index {A} (l : list A) (i : Z) : option A :=
  let n := len l in
  if (0 <=? i) && (i <? n) then nth_error l (Z.to_nat i)
  else if (- n <=? i) && (i <? 0) then nth_error l (Z.to_nat (n + i))
  else None.

Module LD35Engine.

(** [schemas.annotation.Annotation]; [meta] is never set by the engine. *)
Record Annotation := mkAnnotation {
  start : Z;
  end_ : Z;
  marker : string;
  family : string;
  label : string;
  score : Q
}.

(** The loaded state of an [LD35Model] that the fallback pipeline reads.
    The legacy polymorphic [pattern]/[patterns] keys are absent from the
    marker records. *)
Record LD35Model := mkModel {
  markers_index : dict Marker;
  weights : option weights_cfg;            (* weights.get("composed") *)
  marker_definitions : dict Marker;
  promotion_rules : dict promotion_entry
}.

(** [_load_markers_canonical]: the marker arrays of the candidate files,
    in the order of the path list (an absent or unusable file gives the
    empty array), merged into one list.  An entry without an id is
    skipped, and so is an entry whose id an earlier entry has. *)
Definition _load_markers_canonical (files : list (list Marker)) : list Marker :=
  fst (fold_left
         (fun st iterable =>
            fold_left (fun '(markers, seen) entry =>
                         let marker_id := id entry in
                         if negb (String.eqb marker_id "")
                            && negb (existsb (String.eqb marker_id) seen)
                         then (markers ++ [entry], seen ++ [marker_id])
                         else (markers, seen))
                      iterable st)
         files ([], [])).

(** [_build_marker_index]: entries without an id are skipped. *)
Definition _build_marker_index (markers : list Marker) : dict Marker :=
  fold_left (fun index entry =>
               if String.eqb (id entry) "" then index
               else dict_set index (id entry) entry)
            markers [].

(** [_load_promotion_rules], from the [promotions] array. *)
Definition _load_promotion_rules (promotions : list promotion_entry)
    : dict promotion_entry :=
  fold_left (fun rules entry =>
               if String.eqb (promo_marker_id entry) "" then rules
               else dict_set rules (promo_marker_id entry) entry)
            promotions [].

(** ** String helpers *)

Fixpoint startswith (pre s : string) : bool :=
  match pre, s with
  | EmptyString, _ => true
  | String a pre', String b s' => Ascii.eqb a b && startswith pre' s'
  | String _ _, EmptyString => false
  end.

Definition ascii_isspace (c : ascii) : bool :=
  let n := N_of_ascii c in
  (((9 <=? n) && (n <=? 13)) || ((28 <=? n) && (n <=? 32)))%N.

Fixpoint lstrip (s : string) : string :=
  match s with
  | String c s' => if ascii_isspace c then lstrip s' else s
  | EmptyString => EmptyString
  end.

Fixpoint rstrip (s : string) : string :=
  match s with
  | EmptyString => EmptyString
  | String c s' =>
      match rstrip s' with
      | EmptyString => if ascii_isspace c then EmptyString else String c EmptyString
      | r => String c r
      end
  end.

Definition strip (s : string) : string := rstrip (lstrip s).

Definition ascii_isalpha (c : ascii) : bool :=
  let n := N_of_ascii c in
  (((65 <=? n) && (n <=? 90)) || ((97 <=? n) && (n <=? 122)))%N.

Definition ascii_isalnum (c : ascii) : bool :=
  let n := N_of_ascii c in
  (ascii_isalpha c || ((48 <=? n) && (n <=? 57)))%N.

Fixpoint string_forall (f : ascii -> bool) (s : string) : bool :=
  match s with
  | EmptyString => true
  | String c s' => f c && string_forall f s'
  end.

Fixpoint string_exists (f : ascii -> bool) (s : string) : bool :=
  match s with
  | EmptyString => false
  | String c s' => f c || string_exists f s'
  end.

(** [s.isalpha()], [s.isalnum()]: false on the empty string. *)
Definition isalpha (s : string) : bool :=
  negb (String.eqb s "") && string_forall ascii_isalpha s.
Definition isalnum (s : string) : bool :=
  negb (String.eqb s "") && string_forall ascii_isalnum s.

(** [s.replace(" ", "")] *)
Fixpoint remove_spaces (s : string) : string :=
  match s with
  | EmptyString => EmptyString
  | String c s' => if Ascii.eqb c " " then remove_spaces s' else String c (remove_spaces s')
  end.

(** [re.escape]: a backslash before each of [()[]{}?*+-|^$\.&~#] and of
    space, tab, newline, CR, VT and FF. *)
Definition re_special (c : ascii) : bool :=
  let n := N_of_ascii c in
  string_exists (Ascii.eqb c) "()[]{}?*+-|^$\.&~# "
  || ((9 <=? n) && (n <=? 13))%N.

Fixpoint re_escape (s : string) : string :=
  match s with
  | EmptyString => EmptyString
  | String c s' =>
      if re_special c then String "\" (String c (re_escape s'))
      else String c (re_escape s')
  end.

(** ** Labels, families and scores *)

Definition _get_marker_type_from_id (marker_id : string) : string :=
  if startswith "ATO_" marker_id then "ATO"
  else if startswith "SEM_" marker_id then "SEM"
  else if startswith "CLU_" marker_id then "CLU"
  else if startswith "MEMA_" marker_id then "MEMA"
  else "SEM".

Definition nonblank (o : option string) : bool :=
  match o with Some s => negb (String.eqb (strip s) "") | None => false end.

Definition _get_marker_label (marker_data : Marker) (default : string) : string :=
  match frame_concept marker_data with
  | Some concept =>
      if nonblank (Some concept) then concept
      else match description marker_data with
           | Some d => if nonblank (Some d) then strip d else default
           | None => default
           end
  | None =>
      match description marker_data with
      | Some d => if nonblank (Some d) then strip d else default
      | None => default
      end
  end.

Definition opt_list {A} (o : option A) : list A :=
  match o with Some a => [a] | None => [] end.

Definition Qmax (x y : Q) : Q := if Qle_bool x y then y else x.
Definition Qmin (x y : Q) : Q := if Qle_bool x y then x else y.

(** [max(l)] for a non-empty list: the first maximal element. *)
Definition Qmax_list (x : Q) (l : list Q) : Q :=
  fold_left (fun m y => if Qgtb y m then y else m) l x.

(** [score_candidates]: the numbers under [scoring.weight], [.base],
    [.score] and under [score], in that order. *)
Definition score_candidates_of (marker_data : Marker) : list Q :=
  match scoring marker_data with
  | Some sc => opt_list (scoring_weight sc) ++ opt_list (scoring_base sc)
               ++ opt_list (scoring_score sc)
  | None => []
  end ++ opt_list (explicit_score marker_data).

(** [score_candidates.append(float(value))] for each of them. *)
Fixpoint floats (values : list Q) : outcome (list Q) :=
  match values with
  | [] => Ok []
  | value :: rest =>
      match py_float value with
      | Raised => Raised
      | Ok x =>
          match floats rest with
          | Raised => Raised
          | Ok xs => Ok (x :: xs)
          end
      end
  end.

Definition _get_marker_score (marker_data : Marker) : outcome Q :=
  match floats (score_candidates_of marker_data) with
  | Raised => Raised
  | Ok [] => Ok (7 # 10)
  | Ok (c :: cs) =>
      (* Normalise into [0,1] range for downstream comparability *)
      let sc := Qmax_list c cs in
      let sc' := if Qgtb sc 1 then Qmin 1 (sc / 2) else sc in
      Ok (Qmax (3 # 10) sc')
  end.

(** ** Signals of a marker *)

(** [getattr(re, flag_char.upper(), None)] when it is an int: the
    one-letter flags of [re] ([re.T] exists up to Python 3.12). *)
Definition re_flag_of_char (c : ascii) : Z :=
  let u := SemCore.ascii_upper c in
  if Ascii.eqb u "T" then 1
  else if Ascii.eqb u "A" then 256
  else if Ascii.eqb u "I" then 2
  else if Ascii.eqb u "L" then 4
  else if Ascii.eqb u "M" then 8
  else if Ascii.eqb u "S" then 16
  else if Ascii.eqb u "U" then 32
  else if Ascii.eqb u "X" then 64
  else 0.

Fixpoint flags_of_string (flags_value : string) : Z :=
  match flags_value with
  | EmptyString => 0
  | String c r => Z.lor (re_flag_of_char c) (flags_of_string r)
  end.

(** [re.compile(pattern, flags)] on a [str] pattern that parses: the
    flag [LOCALE], and [ASCII] together with [UNICODE], are refused with
    a [ValueError]. *)
Definition flags_rejected (fl : Z) : bool :=
  Z.testbit fl 2 || (Z.testbit fl 8 && Z.testbit fl 5).

(** [add_regex(pattern, flags)]: the specs it appends (none or one). *)
Definition add_regex (pat : string) (flags : Z) : list (string * Z) :=
  let pat := strip pat in
  if String.eqb pat "" then []
  else
    let treat_as_regex :=
      startswith "(?" pat
      || string_exists (fun ch => string_exists (Ascii.eqb ch) "\[](){}|*+?^$") pat in
    let pat' := if treat_as_regex then pat
                else ("\b" ++ re_escape pat ++ "\b")%string in
    [(pat', flags)].

(** [parse_detects(source)] *)
Definition parse_detects (source : Marker) : list (string * Z) :=
  flat_map (fun det =>
              let fl := flags_of_string (flags det) in
              add_regex (regex det) (if fl =? 0 then IGNORECASE else fl))
           (detects source).

(** [add_literal(term)] into the set of literal terms; the set is kept
    as a duplicate-free list in insertion order (Python leaves the
    iteration order of a set unspecified). *)
Definition add_literal (terms : list string) (term : string) : list string :=
  let term := strip term in
  if (2 <? Z.of_nat (String.length term)) && negb (existsb (String.eqb term) terms)
  then terms ++ [term] else terms.

Definition literals_of (terms : list string) (source : Marker) : list string :=
  fold_left add_literal (examples source)
            (fold_left add_literal (frame_signal source) terms).

Definition _collect_marker_signals (self : LD35Model) (marker_id : string)
    (canonical_entry : Marker) : list (string * Z) * list string :=
  let definition := dict_get (marker_definitions self) marker_id in
  let regex_specs :=
    parse_detects canonical_entry
    ++ match definition with Some d => parse_detects d | None => [] end in
  let literal_terms :=
    let t1 := literals_of [] canonical_entry in
    match definition with Some d => literals_of t1 d | None => t1 end in
  (regex_specs, literal_terms).

Section Engine.
Context {RE : RegexEngine}.
(** Python's built-in [eval(expr, {"__builtins__": {}}, context)];
    [None] when it raises. *)
Variable builtin_eval : string -> dict value -> option value.

(** ** Atomic detection *)

(** The running state of [_pattern_based_detection]. *)
Record detection_state := mkState {
  st_annotations : list Annotation;
  st_marker_matches : dict (list (Z * Z));
  st_seen_keys : list (Z * Z * string)
}.

Definition key_seen (k : Z * Z * string) (seen : list (Z * Z * string)) : bool :=
  existsb (fun '(s, e, m) => (s =? fst (fst k)) && (e =? snd (fst k))
                             && String.eqb m (snd k)) seen.

(** [marker_matches[marker_id].append(span)] on a [defaultdict(list)];
    also [marker_matches.setdefault(marker_id, []).append(span)]. *)
Definition matches_append (mm : dict (list (Z * Z))) (marker_id : string)
    (span : Z * Z) : dict (list (Z * Z)) :=
  match dict_get mm marker_id with
  | Some l => dict_set mm marker_id (l ++ [span])
  | None => dict_set mm marker_id [span]
  end.

(** The body of [for match in ....finditer(text)], shared by the regex
    loop and the literal loop, which differ in the score only. *)
Definition record_match (marker_id marker_type lbl : string) (sc : Q)
    (st : detection_state) (span : Z * Z) : detection_state :=
  let '(s, e) := span in
  if s =? e then st
  else if key_seen (s, e, marker_id) (st_seen_keys st) then st
  else
    {| st_annotations :=
         st_annotations st
         ++ [ {| start := s; end_ := e; marker := marker_id;
                 family := marker_type; label := lbl; score := sc |} ];
       st_marker_matches := matches_append (st_marker_matches st) marker_id (s, e);
       st_seen_keys := st_seen_keys st ++ [(s, e, marker_id)] |}.

Definition scan_pattern (t : text) (marker_id marker_type lbl : string) (sc : Q)
    (st : detection_state) (compiled : option pattern) : detection_state :=
  match compiled with
  | None => st
  | Some p => fold_left (record_match marker_id marker_type lbl sc) (finditer p t) st
  end.

Definition literal_source (term : string) : string :=
  let escaped := re_escape term in
  if isalpha (remove_spaces term) || isalnum term
  then ("\b" ++ escaped ++ "\b")%string else escaped.

(** The [for pattern, flags in regex_specs] loop.  A pattern that raises
    [re.error] is skipped.  The [ValueError] of refused flags is not
    caught here: it leaves the loop, and the second component tells so;
    what was recorded until then stays. *)
Fixpoint scan_regex_specs (t : text) (marker_id marker_type lbl : string) (sc : Q)
    (regex_specs : list (string * Z)) (st : detection_state)
    : detection_state * bool :=
  match regex_specs with
  | [] => (st, false)
  | (pat, fl) :: rest =>
      match re_compile pat fl with
      | None => scan_regex_specs t marker_id marker_type lbl sc rest st
      | Some compiled =>
          if flags_rejected fl then (st, true)
          else scan_regex_specs t marker_id marker_type lbl sc rest
                 (scan_pattern t marker_id marker_type lbl sc st (Some compiled))
      end
  end.

(** One iteration of [for marker_id, marker_data in marker_items].  The
    body is a [try] whose handler logs and goes on to the next marker:
    an exception of [_get_marker_score] or of [re.compile] ends the work
    on this marker. *)
Definition detect_marker (self : LD35Model) (t : text) (st : detection_state)
    (item : string * Marker) : detection_state :=
  let '(marker_id, marker_data) := item in
  let '(regex_specs, literal_terms) :=
    _collect_marker_signals self marker_id marker_data in
  match regex_specs, literal_terms with
  | [], [] => st
  | _, _ =>
      let marker_type := _get_marker_type_from_id marker_id in
      let lbl := _get_marker_label marker_data marker_id in
      match _get_marker_score marker_data with
      | Raised => st
      | Ok sc =>
          let '(st1, raised) :=
            scan_regex_specs t marker_id marker_type lbl sc regex_specs st in
          if raised then st1
          else
            fold_left (fun st term =>
                         scan_pattern t marker_id marker_type lbl
                           (Qmax (4 # 10) (sc - (1 # 10))) st
                           (re_compile (literal_source term) IGNORECASE))
                      literal_terms st1
      end
  end.

(** [family_order.get(self._get_marker_type_from_id(kv[0]), 4)] *)
Definition family_order (marker_id : string) : Z :=
  let ty := _get_marker_type_from_id marker_id in
  if String.eqb ty "ATO" then 0
  else if String.eqb ty "SEM" then 1
  else if String.eqb ty "CLU" then 2
  else if String.eqb ty "MEMA" then 3
  else 4.

(** [_pattern_based_detection(text)] (with [allowed_markers=None], as
    [run_inference] calls it). *)
Definition _pattern_based_detection (self : LD35Model) (t : text)
    : list Annotation * dict (list (Z * Z)) :=
  match markers_index self with
  | [] => ([], [])
  | _ =>
      let marker_items :=
        sorted (fun a b => family_order (fst a) <=? family_order (fst b))
               (markers_index self) in
      let st := fold_left (detect_marker self t) marker_items (mkState [] [] []) in
      (st_annotations st, st_marker_matches st)
  end.

(** ** Sentences and tokens *)

Definition is_punct (c : codepoint) : bool := ((c =? 46) || (c =? 33) || (c =? 63))%N.
Definition is_newline (c : codepoint) : bool := (c =? 10)%N.

(** [re.finditer(r'[^.!?\n]+(?:[.!?]+|\n+)', text)], written out as the
    scanner this fixed pattern denotes.  The three character classes are
    disjoint, so a match is a maximal run of ordinary characters followed
    by a maximal run of [.!?] or of newlines; a run of ordinary characters
    that reaches the end of the text matches nowhere. *)
Inductive scan_mode :=
| Idle                      (* looking for the start of a match *)
| Body (s : Z)              (* inside [^.!?\n]+ of a match begun at s *)
| Puncts (s : Z)            (* inside [.!?]+ *)
| Newlines (s : Z).         (* inside \n+ *)

Fixpoint sentence_matches (m : scan_mode) (rest : text) (pos : Z) : list (Z * Z) :=
  match rest with
  | [] =>
      match m with
      | Puncts s | Newlines s => [(s, pos)]
      | Idle | Body _ => []
      end
  | c :: rest' =>
      let restart := if is_punct c || is_newline c then Idle else Body pos in
      match m with
      | Idle => sentence_matches restart rest' (pos + 1)
      | Body s =>
          if is_punct c then sentence_matches (Puncts s) rest' (pos + 1)
          else if is_newline c then sentence_matches (Newlines s) rest' (pos + 1)
          else sentence_matches (Body s) rest' (pos + 1)
      | Puncts s =>
          if is_punct c then sentence_matches (Puncts s) rest' (pos + 1)
          else (s, pos) :: sentence_matches restart rest' (pos + 1)
      | Newlines s =>
          if is_newline c then sentence_matches (Newlines s) rest' (pos + 1)
          else (s, pos) :: sentence_matches restart rest' (pos + 1)
      end
  end.

Definition _get_sentences (t : text) : list (Z * Z) :=
  let sentences := sentence_matches Idle t 0 in
  match sentences with
  | [] => [(0, len t)]
  | _ =>
      let last_end := snd (last sentences (0, 0)) in
      if last_end <? len t then sentences ++ [(last_end, len t)] else sentences
  end.

(** [re.finditer(r"\b\w+\b", text)] *)
Definition _get_tokens (t : text) : list (Z * Z) :=
  match re_compile "\b\w+\b" 0 with
  | Some p => finditer p t
  | None => []
  end.

Fixpoint find_index (spans : list (Z * Z)) (idx position : Z) : option Z :=
  match spans with
  | [] => None
  | (s, e) :: rest =>
      if (s <=? position) && (position <? e) then Some idx
      else find_index rest (idx + 1) position
  end.

Definition _find_sentence_index (sentences : list (Z * Z)) (position : Z) : option Z :=
  match find_index sentences 0 position with
  | Some idx => Some idx
  | None => match sentences with [] => None | _ => Some (len sentences - 1) end
  end.

Definition _find_token_index (tokens : list (Z * Z)) (position : Z) : option Z :=
  match find_index tokens 0 position with
  | Some idx => Some idx
  | None =>
      match tokens with
      | [] => None
      | _ => if position >=? snd (last tokens (0, 0)) then Some (len tokens - 1) else None
      end
  end.

(** ** Expressions *)

Definition _evaluate_expression (expression : option string) (context : dict value) : bool :=
  match expression with
  | None => true
  | Some src =>
      if String.eqb src "" then true
      else
        match builtin_eval (normalize_operators src) context with
        | Some v => truthy v
        | None => false
        end
  end.

(** ** Span policies *)

(** A policy dict is truthy when it has a key. *)
Definition policy_nonempty (p : policy) : bool :=
  match mode p, max_sentence_span p, window_tokens p, fallback p with
  | None, None, None, None => false
  | _, _, _, _ => true
  end.

(** [max(spans, key=lambda s: s[1] - s[0])]: the first longest span. *)
Definition longest_span (s0 : Z * Z) (spans : list (Z * Z)) : Z * Z :=
  fold_left (fun best s => if (snd s - fst s) >? (snd best - fst best) then s else best)
            spans s0.

Definition _anchor_window (t : text) (tokens : list (Z * Z))
    (spans : list (Z * Z)) (span_policy : policy) : outcome (option (Z * Z)) :=
  match spans with
  | [] => Ok None
  | s0 :: rest =>
      let window_tokens := SemCore.policy_window_tokens span_policy in
      let anchor_span := longest_span s0 rest in
      match _find_token_index tokens (fst anchor_span) with
      | None =>
          Ok (Some (Z.max 0 (fst anchor_span - 50),
                    Z.min (len t) (snd anchor_span + 50)))
      | Some anchor_index =>
          let left_ := Z.max 0 (anchor_index + fst window_tokens) in
          let right_ := Z.min (len tokens - 1) (anchor_index + snd window_tokens) in
          match py_index tokens left_, py_index tokens right_ with
          | Some tl, Some tr => Ok (Some (fst tl, snd tr))
          | _, _ => Raised                                   (* IndexError *)
          end
      end
  end.

Definition Zmin_list (x : Z) (l : list Z) : Z := fold_left Z.min l x.
Definition Zmax_list (x : Z) (l : list Z) : Z := fold_left Z.max l x.

Definition _apply_span_policy (t : text) (sentences tokens child_spans : list (Z * Z))
    (span_policy : policy) : outcome (option (Z * Z)) :=
  match child_spans with
  | [] => Ok None
  | _ =>
      if String.eqb (SemCore.policy_mode span_policy) "sentence_union" then
        match sentences with
        | [] => _anchor_window t tokens child_spans span_policy
        | _ =>
            let sentence_ids :=
              flat_map (fun '(s, e) =>
                          opt_list (_find_sentence_index sentences ((s + e) / 2)))
                       child_spans in
            match sentence_ids with
            | [] => _anchor_window t tokens child_spans span_policy
            | i :: ids =>
                let first_id := Zmin_list i ids in
                let last_id := Zmax_list i ids in
                let max_span := SemCore.policy_max_sentence_span span_policy in
                if last_id - first_id + 1 >? max_span then
                  match fallback span_policy with
                  | Some fb =>
                      if String.eqb fb "anchor_window"
                      then _anchor_window t tokens child_spans span_policy
                      else Ok None
                  | None => Ok None
                  end
                else
                  match py_index sentences first_id, py_index sentences last_id with
                  | Some sl, Some sr => Ok (Some (fst sl, snd sr))
                  | _, _ => Raised
                  end
            end
        end
      else _anchor_window t tokens child_spans span_policy
  end.

(** ** Composed markers *)

Definition min_children_default (self : LD35Model) : Z :=
  match weights self with
  | Some cfg =>
      match composed_min_children cfg with
      | Some n => if n =? 0 then 1 else n
      | None => 1
      end
  | None => 1
  end.

(** [float(composed_cfg.get("min_score", 0.6) or 0.6)] *)
Definition min_score_default (self : LD35Model) : outcome Q :=
  py_float
    match weights self with
    | Some cfg =>
        match composed_min_score cfg with
        | Some q => if Qeqb q 0 then 6 # 10 else q
        | None => 6 # 10
        end
    | None => 6 # 10
    end.

(** [a or b] on optional values with Python truthiness. *)
Definition py_or {A} (is_true : A -> bool) (a b : option A) : option A :=
  match a with
  | Some x => if is_true x then a else b
  | None => b
  end.

Definition nonempty_string (s : string) : bool := negb (String.eqb s "").
Definition nonzero (q : Q) : bool := negb (Qeqb q 0).
Definition nonempty_list {A} (l : list A) : bool :=
  match l with [] => false | _ => true end.

(** The [for child in composed_of] loop: [(child_id, weight, matches)]
    for every child with an id.  The weight of a child is converted
    before its id is looked at. *)
Fixpoint child_info_of (composed_of : list child_spec)
    (marker_matches : dict (list (Z * Z)))
    : outcome (list (string * Q * list (Z * Z))) :=
  match composed_of with
  | [] => Ok []
  | child :: rest =>
      let child_id := child_marker_id child in
      match py_float match weight child with
                     | Some w => if Qeqb w 0 then 1%Q else w
                     | None => 1%Q
                     end with
      | Raised => Raised
      | Ok w =>
          let matches :=
            match dict_get marker_matches child_id with
            | Some l => l
            | None => []
            end in
          match child_info_of rest marker_matches with
          | Raised => Raised
          | Ok child_info =>
              Ok (if String.eqb child_id "" then child_info
                  else (child_id, w, matches) :: child_info)
          end
      end
  end.

Definition child_counts_of (child_info : list (string * Q * list (Z * Z))) : dict Z :=
  fold_left (fun d '(child_id, _, matches) => dict_set d child_id (len matches))
            child_info [].

(** [marker_data.get("composed_of") or definition.get("composed_of")] *)
Definition composed_children (self : LD35Model) (marker_id : string)
    (marker_data : Marker) : list child_spec :=
  if nonempty_list (composed_of marker_data) then composed_of marker_data
  else match dict_get (marker_definitions self) marker_id with
       | Some d => composed_of d
       | None => []
       end.

(** [total_children] as the loop body computes it for a marker, given
    the matches recorded so far. *)
Definition total_children_of (self : LD35Model) (marker_matches : dict (list (Z * Z)))
    (item : string * Marker) : outcome Z :=
  match child_info_of (composed_children self (fst item) (snd item)) marker_matches with
  | Raised => Raised
  | Ok child_info => Ok (SemCore.Zsum (dict_values (child_counts_of child_info)))
  end.

(** A composed hit as it stands before the promotion rule is consulted
    (the values of [span], [score], [total_children], [final_family] and
    [label] at that point of the loop body). *)
Record candidate := mkCandidate {
  cand_marker_id : string;
  cand_span : Z * Z;
  cand_score : Q;
  cand_total_children : Z;
  cand_family : string;
  cand_label : string
}.

(** The loop body up to the span computation: [Ok None] is a
    [continue], [Raised] an exception.  [default_score] is the value of
    [min_score_default], computed before the loop. *)
Definition composed_candidate (self : LD35Model) (t : text)
    (sentences tokens : list (Z * Z)) (default_score : Q)
    (marker_matches : dict (list (Z * Z)))
    (item : string * Marker) : outcome (option candidate) :=
  let '(marker_id, marker_data) := item in
  let is_composed :=
    match kind marker_data with
    | Some k => String.eqb k "composed" || String.eqb k "COMPOSED"
    | None => false
    end in
  if negb is_composed then Ok None
  else
    let definition := dict_get (marker_definitions self) marker_id in
    let def_get {A} (f : Marker -> option A) : option A :=
      match definition with Some d => f d | None => None end in
    match child_info_of (composed_children self marker_id marker_data) marker_matches with
    | Raised => Raised
    | Ok [] => Ok None
    | Ok child_info =>
        let child_counts := child_counts_of child_info in
        let total_children := SemCore.Zsum (dict_values child_counts) in
        if total_children <? min_children_default self then Ok None
        else
          let weights_total := SemCore.Qsum (map (fun '(_, w, _) => w) child_info) in
          let weight_sum := if Qeqb weights_total 0 then 1%Q else weights_total in
          let sc :=
            (SemCore.Qsum (map (fun '(_, w, matches) => inject_Z (len matches) * w)
                               child_info) / weight_sum)%Q in
          match py_float
                  match py_or nonzero
                          (py_or nonzero (min_score marker_data) (def_get min_score))
                          (Some default_score) with
                  | Some q => q
                  | None => default_score
                  end with
          | Raised => Raised
          | Ok min_score_ =>
          if Qltb sc min_score_ then Ok None
          else
            let activation_expr :=
              py_or nonempty_string (activation marker_data) (def_get activation) in
            let context :=
              dict_set (dict_set (map (fun '(k, v) => (k, VInt v)) child_counts)
                                 "score" (VFloat sc))
                       "total_children" (VInt total_children) in
            if negb (_evaluate_expression activation_expr context) then Ok None
            else
              let child_spans := flat_map (fun '(_, _, matches) => matches) child_info in
              let span_policy_ :=
                match py_or policy_nonempty (span_policy marker_data) (def_get span_policy) with
                | Some p => p
                | None => SemCore.empty_policy
                end in
              match _apply_span_policy t sentences tokens child_spans span_policy_ with
              | Raised => Raised
              | Ok None => Ok None
              | Ok (Some span) =>
                  let final_family :=
                    match py_or nonempty_string
                            (py_or nonempty_string (declared_family marker_data)
                                   (def_get declared_family))
                            (Some (_get_marker_type_from_id marker_id)) with
                    | Some f => f
                    | None => _get_marker_type_from_id marker_id
                    end in
                  Ok (Some {| cand_marker_id := marker_id; cand_span := span;
                              cand_score := sc; cand_total_children := total_children;
                              cand_family := final_family;
                              cand_label := _get_marker_label marker_data marker_id |})
              end
          end
    end.

Definition emit (c : candidate) (fam : string) : Annotation :=
  {| start := fst (cand_span c); end_ := snd (cand_span c);
     marker := cand_marker_id c; family := fam;
     label := cand_label c; score := cand_score c |}.

(** The promotion block: with a rule for the marker, a false guard or a
    score under the rule's [min_score] is a [continue] ([Ok None]);
    otherwise the family becomes [promote_to]. *)
Definition apply_promotion (self : LD35Model) (c : candidate)
    : outcome (option Annotation) :=
  match dict_get (promotion_rules self) (cand_marker_id c) with
  | None => Ok (Some (emit c (cand_family c)))
  | Some promo_rule =>
      let promo_context :=
        [("score", VFloat (cand_score c));
         ("total_children", VInt (cand_total_children c))] in
      if negb (_evaluate_expression (activate_when promo_rule) promo_context)
      then Ok None
      else
        let promoted :=
          Some (emit c (match promote_to promo_rule with
                        | Some f => f
                        | None => cand_family c
                        end)) in
        match promo_min_score promo_rule with
        | Some min_score_rule =>
            match py_float min_score_rule with
            | Raised => Raised
            | Ok min_score_rule =>
                if Qltb (cand_score c) min_score_rule then Ok None else Ok promoted
            end
        | None => Ok promoted
        end
  end.

(** One iteration of [for marker_id, marker_data in self.markers_index.items()]. *)
Definition detect_composed_marker (self : LD35Model) (t : text)
    (sentences tokens : list (Z * Z)) (default_score : Q)
    (marker_matches : dict (list (Z * Z)))
    (item : string * Marker) : outcome (option Annotation) :=
  match composed_candidate self t sentences tokens default_score marker_matches item with
  | Raised => Raised
  | Ok None => Ok None
  | Ok (Some c) => apply_promotion self c
  end.

(** The marker loop, from the state [(composed_annotations,
    marker_matches)] to the state at its end: an emitted annotation is
    appended and its span is recorded in [marker_matches], where later
    composed markers see it. *)
Fixpoint composed_loop (self : LD35Model) (t : text) (sentences tokens : list (Z * Z))
    (default_score : Q) (items : list (string * Marker))
    (composed_annotations : list Annotation) (marker_matches : dict (list (Z * Z)))
    : outcome (list Annotation * dict (list (Z * Z))) :=
  match items with
  | [] => Ok (composed_annotations, marker_matches)
  | item :: items' =>
      match detect_composed_marker self t sentences tokens default_score
              marker_matches item with
      | Raised => Raised
      | Ok None =>
          composed_loop self t sentences tokens default_score items'
            composed_annotations marker_matches
      | Ok (Some a) =>
          composed_loop self t sentences tokens default_score items'
            (composed_annotations ++ [a])
            (matches_append marker_matches (fst item) (start a, end_ a))
      end
  end.

Definition _detect_composed_markers (self : LD35Model) (t : text)
    (marker_matches : dict (list (Z * Z))) : outcome (list Annotation) :=
  match min_score_default self with
  | Raised => Raised
  | Ok default_score =>
      match composed_loop self t (_get_sentences t) (_get_tokens t) default_score
              (markers_index self) [] marker_matches with
      | Raised => Raised
      | Ok (composed_annotations, _) => Ok composed_annotations
      end
  end.

(** [run_inference] on its fallback path (no CARL runtime, or one that
    fails or finds nothing): atomic hits followed by composed hits. *)
Definition run_inference (self : LD35Model) (t : text) : outcome (list Annotation) :=
  let '(atomic_annotations, marker_matches) := _pattern_based_detection self t in
  match _detect_composed_markers self t marker_matches with
  | Raised => Raised
  | Ok composed_annotations => Ok (atomic_annotations ++ composed_annotations)
  end.

(** ** Converting CARL results *)

(** The keys of a CARL marker record that [_detect_annotation_in_text]
    reads. *)
Record carl_marker := mkCarl {
  carl_id : option string;
  carl_pattern : option string;
  carl_examples : list string;
  carl_concept : option string
}.

Definition _detect_annotation_in_text (marker_data : carl_marker) (t : text)
    : option Annotation :=
  let marker_id := match carl_id marker_data with Some i => i | None => "UNKNOWN" end in
  let patterns := opt_list (carl_pattern marker_data)
                  ++ firstn 3 (carl_examples marker_data) in
  let lbl := match carl_concept marker_data with Some c => c | None => marker_id end in
  let fix search (ps : list string) : option (option Annotation) :=
    match ps with
    | [] => Some None
    | p :: ps' =>
        match re_compile (re_escape p) IGNORECASE with
        | None => None                                      (* caught: returns None *)
        | Some compiled =>
            match finditer compiled t with
            | (s, e) :: _ =>
                Some (Some {| start := s; end_ := e; marker := marker_id;
                              family := _get_marker_type_from_id marker_id;
                              label := lbl; score := 7 # 10 |})
            | [] => search ps'
            end
        end
    end in
  match search patterns with
  | None => None
  | Some (Some a) => Some a
  | Some None =>
      (* If no pattern found, return a zero-span annotation at start *)
      Some {| start := 0; end_ := 0; marker := marker_id;
              family := _get_marker_type_from_id marker_id;
              label := lbl; score := 5 # 10 |}
  end.

End Engine.

(** ** Post-processing *)

Definition same_key (a b : Annotation) : bool :=
  (start a =? start b) && (end_ a =? end_ b) && String.eqb (marker a) (marker b).

(** [remove_duplicate_annotations]: first occurrence of each
    [(start, end, marker)] key. *)
Definition remove_duplicate_annotations (annotations : list Annotation) : list Annotation :=
  fold_left (fun unique a => if existsb (same_key a) unique then unique else unique ++ [a])
            annotations [].

(** [max(ann.start, existing.start) < min(ann.end, existing.end)] *)
Definition overlapping (a existing : Annotation) : bool :=
  Z.max (start a) (start existing) <? Z.min (end_ a) (end_ existing).

(** Descending order of the key [(score, end - start)] ([reverse=True]
    keeps the sort stable). *)
Definition priority_ge (a b : Annotation) : bool :=
  Qgtb (score a) (score b)
  || (Qeqb (score a) (score b) && (end_ a - start a >=? end_ b - start b)).

Definition resolve_overlapping_annotations (annotations : list Annotation)
    : list Annotation :=
  let sorted_anns := sorted priority_ge annotations in
  let non_overlapping :=
    fold_left (fun acc a => if existsb (overlapping a) acc then acc else acc ++ [a])
              sorted_anns [] in
  sorted (fun a b => start a <=? start b) non_overlapping.

Definition post_process_annotations (annotations : list Annotation) : list Annotation :=
  resolve_overlapping_annotations (remove_duplicate_annotations annotations).

End LD35Engine.

(* ================================================================== *)
(** * utils/chunking.py                                                 *)
(* ================================================================== *)

Module Chunking.
Import LD35Engine.

(** A slice index as Python adjusts it for a sequence of length [n]: a
    negative index counts from the end, and both ends are clipped. *)
Definition clip (n i : Z) : Z :=
  if i <? 0 then Z.max 0 (i + n) else Z.min i n.

(** [text[s:e]] for any two integers. *)
Definition py_slice (t : text) (s e : Z) : text :=
  slice t (clip (len t) s) (clip (len t) e).

(** [t.startswith(sub)] *)
Fixpoint startswith_text (sub t : text) : bool :=
  match sub, t with
  | [], _ => true
  | x :: sub', y :: t' => (x =? y)%N && startswith_text sub' t'
  | _ :: _, [] => false
  end.

(** The candidates [lo + n - 1, ..., lo] of a reverse search, tried from
    the highest down. *)
Fixpoint rfind_down (t sub : text) (lo : Z) (n : nat) : Z :=
  match n with
  | O => -1
  | S n' =>
      let i := lo + Z.of_nat n' in
      if startswith_text sub (skipn (Z.to_nat i) t) then i
      else rfind_down t sub lo n'
  end.

(** [text.rfind(sub, lo, hi)] for a non-empty [sub]: the highest [i] with
    [lo <= i], [i + len(sub) <= hi] and [text[i:i+len(sub)] == sub], or
    [-1]. *)
Definition str_rfind (t sub : text) (lo hi : Z) : Z :=
  let lo' := clip (len t) lo in
  let hi' := clip (len t) hi in
  rfind_down t sub lo' (Z.to_nat (hi' - len sub - lo' + 1)).

Definition chunk : Type := text * Z * Z.

(** [['\\n\\n', '. ', '! ', '? ', '; ', ': ']]: the first entry is
    written with escaped backslashes, so it is the four characters
    backslash, n, backslash, n. *)
Definition BOUNDARIES : list text :=
  [ [92; 110; 92; 110]; [46; 32]; [33; 32]; [63; 32]; [59; 32]; [58; 32] ]%N.

(** The [for boundary in ...] loop: the first boundary found decides. *)
Fixpoint break_point (t : text) (boundaries : list text)
    (search_start end_ chunk_end : Z) : Z :=
  match boundaries with
  | [] => chunk_end
  | boundary :: rest =>
      let last_boundary := str_rfind t boundary search_start end_ in
      if negb (last_boundary =? -1) then last_boundary + len boundary
      else break_point t rest search_start end_ chunk_end
  end.

(** The value of [end] when the chunk that begins at [start] is cut. *)
Definition chunk_end_of (t : text) (chunk_size overlap start : Z) : Z :=
  let text_len := len t in
  let end_ := start + chunk_size in
  if end_ >=? text_len then text_len
  else
    let search_start := end_ - overlap in
    if search_start >? start
    then break_point t BOUNDARIES search_start end_ end_
    else end_.

(** The [while start < text_len] loop.  [None] means that the loop is
    still running after [fuel] iterations. *)
Fixpoint chunk_loop (fuel : nat) (t : text) (chunk_size overlap start : Z)
    (chunks : list chunk) : option (list chunk) :=
  match fuel with
  | O => None
  | S fuel' =>
      if start <? len t then
        let end_ := chunk_end_of t chunk_size overlap start in
        let chunks' := chunks ++ [(py_slice t start end_, start, end_)] in
        let start' := start + chunk_size in
        if start' >=? len t then Some chunks'
        else chunk_loop fuel' t chunk_size overlap start' chunks'
      else Some chunks
  end.

Definition chunk_text (fuel : nat) (t : text) (chunk_size overlap : Z)
    : option (list chunk) :=
  let text_len := len t in
  if text_len <=? chunk_size then Some [(t, 0, text_len)]
  else chunk_loop fuel t chunk_size overlap 0 [].

(** [new_ann = ann.copy(); new_ann.start += offset; new_ann.end += offset] *)
Definition shift (offset : Z) (ann : Annotation) : Annotation :=
  {| start := start ann + offset; end_ := end_ ann + offset;
     marker := marker ann; family := family ann;
     label := label ann; score := score ann |}.

Definition adjust_annotation_offsets (annotations : list Annotation) (offset : Z)
    : list Annotation :=
  map (shift offset) annotations.

(** [key=lambda x: (x.start, x.end)] *)
Definition span_le (a b : Annotation) : bool :=
  pair_le (start a, end_ a) (start b, end_ b).

Definition remove_cross_chunk_duplicates (annotations : list Annotation)
    : list Annotation :=
  let sorted_anns := sorted span_le annotations in
  fold_left (fun unique_annotations ann =>
               if existsb (same_key ann) unique_annotations
               then unique_annotations
               else unique_annotations ++ [ann])
            sorted_anns [].

Definition merge_chunk_annotations
    (all_chunk_annotations : list (list Annotation * Z)) : list Annotation :=
  let merged_annotations :=
    flat_map (fun '(chunk_annotations, offset) =>
                adjust_annotation_offsets chunk_annotations offset)
             all_chunk_annotations in
  remove_cross_chunk_duplicates merged_annotations.

End Chunking.

(* ================================================================== *)
(** * ld35_engine.py: the entry points                                  *)
(* ================================================================== *)

Module LD35Service.
Import LD35Engine Chunking.

Section Engine.
Context {RE : RegexEngine}.
Variable builtin_eval : string -> dict value -> option value.
(** [unicodedata.normalize('NFC', text)] *)
Variable normalize_text : text -> text.

(** The [for chunk_text, start_offset, _ in chunks] loop. *)
Fixpoint gather_chunks (self : LD35Model) (chunks : list chunk)
    (all_chunk_annotations : list (list Annotation * Z))
    : outcome (list (list Annotation * Z)) :=
  match chunks with
  | [] => Ok all_chunk_annotations
  | (chunk_text, start_offset, _) :: rest =>
      match run_inference builtin_eval self chunk_text with
      | Raised => Raised
      | Ok chunk_annotations =>
          gather_chunks self rest
            (all_chunk_annotations ++ [(chunk_annotations, start_offset)])
      end
  end.

(** [process_ld35_annotations(text, options)] for a model without CARL
    runtime; [chunk_size] and [overlap] are the integers under these
    keys of [options], when present.  The outer [None] means that
    [chunk_text] does not return. *)
Definition process_ld35_annotations (self : LD35Model) (t : text)
    (chunk_size overlap : option Z) : option (outcome (list Annotation)) :=
  let normalized_text := normalize_text t in
  let chunk_size := match chunk_size with Some n => n | None => 12000 end in
  let overlap := match overlap with Some n => n | None => 200 end in
  match chunk_text (S (List.length normalized_text)) normalized_text
                   chunk_size overlap with
  | None => None
  | Some chunks =>
      match gather_chunks self chunks [] with
      | Raised => Some Raised
      | Ok all_chunk_annotations =>
          Some (Ok (post_process_annotations
                      (merge_chunk_annotations all_chunk_annotations)))
      end
  end.

(** [process_with_llm_fallback(text)]:
    [ann.score = max(0.3, ann.score - 0.2)] on every atomic hit. *)
Definition process_with_llm_fallback (self : LD35Model) (t : text) : list Annotation :=
  let '(annotations, _) := _pattern_based_detection self t in
  map (fun ann =>
         {| start := start ann; end_ := end_ ann; marker := marker ann;
            family := family ann; label := label ann;
            score := Qmax (3 # 10) (score ann - (2 # 10)) |})
      annotations.

End Engine.
End LD35Service.

(* ================================================================== *)
(** * utils/html_renderer.py: the segmentation                          *)
(* ================================================================== *)

Module HtmlRenderer.
Import LD35Engine.

(** A [defaultdict(list)] keyed by offsets, in insertion order; a
    missing key reads as the empty list. *)
Definition groups : Type := list (Z * list Annotation).

Fixpoint groups_get (g : groups) (k : Z) : list Annotation :=
  match g with
  | [] => []
  | (k', anns) :: g' => if k =? k' then anns else groups_get g' k
  end.

(** [position_groups[k].append(ann)] *)
Fixpoint groups_append (g : groups) (k : Z) (ann : Annotation) : groups :=
  match g with
  | [] => [(k, [ann])]
  | (k', anns) :: g' =>
      if k =? k' then (k', anns ++ [ann]) :: g'
      else (k', anns) :: groups_append g' k ann
  end.

Definition group_annotations_by_position (annotations : list Annotation) : groups :=
  fold_left (fun position_groups ann =>
               groups_append (groups_append position_groups (start ann) ann)
                             (end_ ann) ann)
            annotations [].

(** [boundaries.add(x)] on a set of offsets, kept as a duplicate-free
    list (the set is sorted before it is read). *)
Definition set_add (s : list Z) (x : Z) : list Z :=
  if existsb (Z.eqb x) s then s else s ++ [x].

(** [for i in range(len(boundaries) - 1)]: the pairs
    [(boundaries[i], boundaries[i + 1])]. *)
Fixpoint consecutive (boundaries : list Z) : list (Z * Z) :=
  match boundaries with
  | x :: (y :: _) as rest => (x, y) :: consecutive rest
  | _ => []
  end.

Definition create_segments (t : text) (position_groups : groups)
    : list (Z * Z * list Annotation) :=
  let boundaries0 := set_add (set_add [] 0) (len t) in
  let boundaries1 :=
    fold_left (fun b '(_, anns) =>
                 fold_left (fun b ann => set_add (set_add b (start ann)) (end_ ann))
                           anns b)
              position_groups boundaries0 in
  let boundaries := sorted Z.leb boundaries1 in
  map (fun '(start_, end') =>
         (* Find annotations that are active in this segment *)
         let active_anns :=
           filter (fun ann => (start ann <=? start_) && (end_ ann >=? end'))
                  (groups_get position_groups start_) in
         (start_, end', active_anns))
      (consecutive boundaries).

(** The segments [render_annotations_to_html] walks through. *)
Definition segments_of (t : text) (annotations : list Annotation)
    : list (Z * Z * list Annotation) :=
  create_segments t (group_annotations_by_position annotations).

End HtmlRenderer.

(* ================================================================== *)
(** * A small regex engine and parser, to run the engines on examples   *)
(* ================================================================== *)

(** An instance of [RegexEngine] for three pattern shapes -- [\bword\b],
    [^word$] and a plain [word] (letters, digits, [_] and spaces) -- with
    the [IGNORECASE] flag.  Every other source is refused like a pattern
    that does not compile.  It serves the worked examples and witnesses;
    the theorems hold for every engine. *)
Module Fixture.

Inductive shape := Word | Anchored | Plain | Token.

Record fixture_pattern := mkPat {
  pat_shape : shape;
  pat_lit : text;
  pat_ci : bool
}.

Definition is_word_char (c : codepoint) : bool :=
  (((48 <=? c) && (c <=? 57)) || ((65 <=? c) && (c <=? 90))
   || ((97 <=? c) && (c <=? 122)) || (c =? 95))%N.

Definition fold_case (ci : bool) (c : codepoint) : codepoint :=
  if (ci && (65 <=? c) && (c <=? 90))%N then (c + 32)%N else c.

(** [lit] is a prefix of [t] (up to case); the rest of [t] is returned. *)
Fixpoint strip_prefix (ci : bool) (lit t : text) : option text :=
  match lit, t with
  | [], _ => Some t
  | _ :: _, [] => None
  | a :: lit', b :: t' =>
      if (fold_case ci a =? fold_case ci b)%N then strip_prefix ci lit' t' else None
  end.

(** The length of the leading run of word characters. *)
Fixpoint word_run (t : text) : nat :=
  match t with
  | c :: t' => if is_word_char c then S (word_run t') else O
  | [] => O
  end.

(** The length of the match starting at the head of [rest], if any. *)
Definition match_length (p : fixture_pattern) (at_start prev_word : bool)
    (rest : text) : option nat :=
  match pat_shape p with
  | Token =>
      if negb prev_word && negb (Nat.eqb (word_run rest) 0)
      then Some (word_run rest) else None
  | sh =>
      match strip_prefix (pat_ci p) (pat_lit p) rest with
      | None => None
      | Some after =>
          let ok :=
            match sh with
            | Word =>
                negb prev_word
                && match after with [] => true | c :: _ => negb (is_word_char c) end
            | Anchored => at_start && match after with [] => true | _ => false end
            | _ => true
            end in
          if ok then Some (List.length (pat_lit p)) else None
      end
  end.

(** Left-to-right scan for non-overlapping matches; [skip] counts the
    characters of the last match still to be stepped over. *)
Fixpoint scan (p : fixture_pattern) (prev_word : bool) (rest : text)
    (pos : Z) (skip : nat) : list (Z * Z) :=
  match rest with
  | [] => []
  | c :: rest' =>
      match skip with
      | S k => scan p (is_word_char c) rest' (pos + 1) k
      | O =>
          match match_length p (pos =? 0) prev_word rest with
          | Some n =>
              (pos, pos + Z.of_nat n)
                :: scan p (is_word_char c) rest' (pos + 1) (n - 1)
          | None => scan p (is_word_char c) rest' (pos + 1) 0
          end
      end
  end.

Definition fixture_finditer (p : fixture_pattern) (t : text) : list (Z * Z) :=
  scan p false t 0 0.

Definition fixture_fullmatch (p : fixture_pattern) (t : text) : bool :=
  match strip_prefix (pat_ci p) (pat_lit p) t with
  | Some [] => true
  | _ => false
  end.

Definition literal_ok (t : text) : bool :=
  match t with
  | [] => false
  | _ => forallb (fun c => is_word_char c || (c =? 32)%N) t
  end.

Definition word_ok (t : text) : bool :=
  match t with
  | [] => false
  | _ => forallb is_word_char t
  end.

Definition BACKSLASH : codepoint := 92%N.

(** Recognise the three shapes in a pattern source. *)
Definition fixture_compile (src : string) (flags : Z) : option fixture_pattern :=
  let ci := Z.testbit flags 1 in
  let t := of_string src in
  let n := List.length t in
  if String.eqb src "\b\w+\b" then Some (mkPat Token [] ci) else
  match t with
  | 92%N :: 98%N :: body =>                        (* \b ... \b *)
      let w := firstn (List.length body - 2) body in
      match skipn (List.length body - 2) body with
      | [92%N; 98%N] =>
          if word_ok w then Some (mkPat Word w ci) else None
      | _ => None
      end
  | 94%N :: body =>                                (* ^ ... $ *)
      let w := firstn (List.length body - 1) body in
      match skipn (List.length body - 1) body with
      | [36%N] => if word_ok w then Some (mkPat Anchored w ci) else None
      | _ => None
      end
  | _ => if literal_ok t then Some (mkPat Plain t ci) else None
  end.

Lemma strip_prefix_length (ci : bool) (lit t after : text) :
  strip_prefix ci lit t = Some after ->
  List.length t = (List.length lit + List.length after)%nat.
Proof.
  revert t. induction lit as [|a lit IH]; intros [|b t] H; simpl in *;
    try discriminate.
  - now injection H as <-.
  - now injection H as <-.
  - destruct (fold_case ci a =? fold_case ci b)%N; [|discriminate].
    now rewrite (IH t H).
Qed.

Lemma word_run_length (t : text) : (word_run t <= List.length t)%nat.
Proof.
  induction t as [|c t IH]; simpl; [lia|]. destruct (is_word_char c); simpl; lia.
Qed.

Lemma match_length_bound (p : fixture_pattern) (a w : bool) (rest : text) (n : nat) :
  match_length p a w rest = Some n -> (n <= List.length rest)%nat.
Proof.
  unfold match_length. intros H.
  destruct (pat_shape p).
  1-3: destruct (strip_prefix (pat_ci p) (pat_lit p) rest) as [after|] eqn:Es;
       [|discriminate]; cbv beta zeta in H;
       try (match type of H with
            | (match ?c with true => _ | false => _ end) = _ => destruct c
            end; [|discriminate]);
       injection H as <-; apply strip_prefix_length in Es; lia.
  destruct (negb w && negb (Nat.eqb (word_run rest) 0)); [|discriminate].
  injection H as <-. apply word_run_length.
Qed.

Lemma scan_span (p : fixture_pattern) (rest : text) :
  forall prev_word pos skip s e,
    In (s, e) (scan p prev_word rest pos skip) ->
    pos <= s /\ s <= e /\ e <= pos + len rest.
Proof.
  unfold len.
  induction rest as [|c rest IH]; intros pw pos skip s e Hin; simpl in Hin;
    [contradiction|].
  assert (Hrec : forall pw' k, In (s, e) (scan p pw' rest (pos + 1) k) ->
                 pos <= s /\ s <= e /\ e <= pos + Z.of_nat (List.length (c :: rest))).
  { intros pw' k H. apply IH in H. simpl List.length. lia. }
  destruct skip as [|k]; [|now apply Hrec in Hin].
  destruct (match_length p (pos =? 0) pw (c :: rest)) as [n|] eqn:Em;
    [|now apply Hrec in Hin].
  destruct Hin as [Heq|Hin]; [|now apply Hrec in Hin].
  injection Heq as <- <-.
  apply match_length_bound in Em. lia.
Qed.

#[export] Instance fixture_engine : RegexEngine.
Proof.
  refine {| pattern := fixture_pattern;
            re_compile := fixture_compile;
            finditer := fixture_finditer;
            fullmatch := fixture_fullmatch |}.
  intros p t s e H. apply scan_span in H. lia.
Defined.

(** The parse trees of the expression sources used in the examples. *)
Definition cmp (n : string) (op : cmpop) (k : Z) : expr :=
  Compare (Name n) [(op, Constant (VInt k))].

Definition cmpf (n : string) (op : cmpop) (q : Q) : expr :=
  Compare (Name n) [(op, Constant (VFloat q))].

Definition fixture_parse (src : string) : option expr :=
  if String.eqb src "x < 1" then Some (cmp "x" Lt 1)
  else if String.eqb src "total_children >= 1" then Some (cmp "total_children" GtE 1)
  else if String.eqb src "total_children >= 3" then Some (cmp "total_children" GtE 3)
  else if String.eqb src "ATO_A>=1 and ATO_B>=1"
  then Some (BoolOp And [cmp "ATO_A" GtE 1; cmp "ATO_B" GtE 1])
  else if String.eqb src "score>0.5" then Some (cmpf "score" Gt (1 # 2))
  else if String.eqb src "score > 2" then Some (cmp "score" Gt 2)
  else None.

(** Python's own evaluation of the same expression fragment, for
    [eval(src, {"__builtins__": {}}, context)]: [and]/[or] short-circuit
    and return an operand, comparison chains short-circuit, and a name
    bound neither in [context] nor in the empty builtins raises
    [NameError].  The fixture's parser yields no node outside the
    fragment. *)
Fixpoint py_eval (node : expr) (context : dict value) : option value :=
  match node with
  | BoolOp op values =>
      (fix go (vs : list expr) : option value :=
         match vs with
         | [] => None
         | [v] => py_eval v context
         | v :: vs' =>
             match py_eval v context with
             | None => None
             | Some x =>
                 match op with
                 | And => if truthy x then go vs' else Some x
                 | Or => if truthy x then Some x else go vs'
                 end
             end
         end) values
  | Compare l ops_comparators =>
      match py_eval l context with
      | None => None
      | Some left0 =>
          (fix chain (lhs : value) (rest : list (cmpop * expr)) : option value :=
             match rest with
             | [] => Some (VBool true)
             | (op, r) :: rest' =>
                 match py_eval r context with
                 | None => None
                 | Some rhs =>
                     match apply_cmpop op lhs rhs with
                     | None => None
                     | Some false => Some (VBool false)
                     | Some true => chain rhs rest'
                     end
                 end
             end) left0 ops_comparators
      end
  | UnaryOp Not operand =>
      match py_eval operand context with
      | None => None
      | Some v => Some (VBool (negb (truthy v)))
      end
  | Name name_id => dict_get context name_id          (* None: NameError *)
  | Constant v => Some v
  | UnaryOp OtherUnary _ => None
  | OtherNode => None
  end.

Definition python_eval (src : string) (context : dict value) : option value :=
  match fixture_parse src with
  | Some tree => py_eval tree context
  | None => None                                      (* SyntaxError *)
  end.

End Fixture.

(* ================================================================== *)
(** * Worked scenarios: bundles and texts from the specification        *)
(* ================================================================== *)

Module Scenarios.

Definition atomic_marker (i rx fl : string) (demotes : list detect_spec)
    (sc : option scoring_spec) : Marker :=
  {| id := i; kind := Some "atomic"; detects := [mkDetect rx fl];
     demote_if := demotes; composed_of := []; activation := None;
     span_policy := None; min_children := None; min_score := None;
     frame_concept := None;
     frame_signal := []; description := None; examples := [];
     scoring := sc; explicit_score := None; declared_family := None |}.

Definition composed_marker (i : string) (children : list child_spec)
    (act : option string) (pol : option policy) (mc : option Z) : Marker :=
  {| id := i; kind := Some "composed"; detects := []; demote_if := [];
     composed_of := children; activation := act; span_policy := pol;
     min_children := mc;
     min_score := None; frame_concept := None; frame_signal := [];
     description := None; examples := []; scoring := None;
     explicit_score := None; declared_family := None |}.

(** Scenario 1: [ATO_HELLO] with detect [\bhello\b], case-insensitive. *)
Definition ATO_HELLO : Marker := atomic_marker "ATO_HELLO" "\bhello\b" "i" [] None.

(** Scenario 2: the same with [demote_if: [{"regex": "^Hello$"}]]. *)
Definition ATO_HELLO_demoted : Marker :=
  atomic_marker "ATO_HELLO" "\bhello\b" "i" [mkDetect "^Hello$" ""] None.

(** [ATO_HELLO] declaring [scoring: {"weight": 0.1}]. *)
Definition ATO_HELLO_low : Marker :=
  atomic_marker "ATO_HELLO" "\bhello\b" "i" []
                (Some (mkScoring (Some (1 # 10)) None None)).

(** Scenario 3: [ATO_A], [ATO_B] and the composed [SEM_AB]. *)
Definition ATO_A : Marker := atomic_marker "ATO_A" "\ba\b" "" [] None.
Definition ATO_B : Marker := atomic_marker "ATO_B" "\bb\b" "" [] None.

Definition sentence_union_1 : policy :=
  mkPolicy (Some "sentence_union") (Some 1) None None.

Definition SEM_AB (pol : policy) : Marker :=
  composed_marker "SEM_AB" [mkChild "ATO_A" (Some 1%Q); mkChild "ATO_B" (Some 1%Q)]
                  (Some "ATO_A>=1 and ATO_B>=1") (Some pol) None.

Definition markers_ab (pol : policy) : list Marker := [ATO_A; ATO_B; SEM_AB pol].



Definition say_hello : text := of_string "say Hello world".
Definition hello : text := of_string "Hello".
Definition a_and_b : text := of_string "a and b. nothing.".

(** "a." followed by an empty line and "b". *)
Definition two_paragraphs : text := [97; 46; 10; 10; 98]%N.
(** "Hi." and "Bye." on two lines. *)
Definition two_lines : text := [72; 105; 46; 10; 66; 121; 101; 46]%N.

Definition sem_bundle (ms : list Marker) (w : option weights_cfg)
    : SemCore.bundle (list promotion_entry) (option weights_cfg) :=
  SemCore.mkBundle _ _ ms [] w.

Definition ld35_model (ms : list Marker) (w : option weights_cfg)
    (promotions : list promotion_entry) : LD35Engine.LD35Model :=
  {| LD35Engine.markers_index := LD35Engine._build_marker_index ms;
     LD35Engine.weights := w;
     LD35Engine.marker_definitions := [];
     LD35Engine.promotion_rules := LD35Engine._load_promotion_rules promotions |}.

(** A promotion rule for [SEM_AB] whose guard no score in [0, 1] meets. *)
Definition strict_rule : promotion_entry :=
  mkPromotion "SEM_AB" (Some "score > 2") None (Some "CLU").

(** The marker ids of the annotations a run returned. *)
Definition emitted_markers (r : outcome (list LD35Engine.Annotation)) : option (list string) :=
  match r with
  | Ok anns => Some (map LD35Engine.marker anns)
  | Raised => None
  end.

(** Two fully overlapping hits that agree on family, score and length. *)
Definition hit_A : SemCore.ann :=
  {| SemCore.marker_id := "SEM_A"; SemCore.family := "SEM";
     SemCore.start := 0; SemCore.end_ := 10; SemCore.score := 9 # 10 |}.
Definition hit_B : SemCore.ann :=
  {| SemCore.marker_id := "SEM_B"; SemCore.family := "SEM";
     SemCore.start := 0; SemCore.end_ := 10; SemCore.score := 9 # 10 |}.

End Scenarios.

(* ================================================================== *)
(** * Properties                                                        *)
(* ================================================================== *)

(** ** Facts about the stable sort *)

Section SortedFacts.
Context {A : Type} (le : A -> A -> bool).

Lemma insert_sorted_perm (x : A) (l : list A) :
  Permutation (x :: l) (insert_sorted le x l).
Proof.
  induction l as [|y l IH]; simpl; [reflexivity|].
  destruct (le x y); [reflexivity|].
  rewrite perm_swap. now constructor.
Qed.

Lemma sorted_perm (l : list A) : Permutation l (sorted le l).
Proof.
  induction l as [|x l IH]; simpl; [constructor|].
  rewrite <- insert_sorted_perm. now constructor.
Qed.

Lemma sorted_In (l : list A) (x : A) : In x (sorted le l) <-> In x l.
Proof.
  split; apply Permutation_in; [symmetry|]; apply sorted_perm.
Qed.

Lemma sorted_length (l : list A) : List.length (sorted le l) = List.length l.
Proof. symmetry. apply Permutation_length, sorted_perm. Qed.

(** With a total order that refines a transitive relation [R], the
    result is strongly sorted for [R]. *)
Context (R : A -> A -> Prop).
Hypothesis le_R : forall x y, le x y = true -> R x y.
Hypothesis nle_R : forall x y, le x y = false -> R y x.
Hypothesis R_trans : forall x y z, R x y -> R y z -> R x z.

Lemma insert_sorted_strongly (x : A) (l : list A) :
  StronglySorted R l -> StronglySorted R (insert_sorted le x l).
Proof.
  induction l as [|y l IH]; simpl; intros Hs.
  - constructor; constructor.
  - inversion Hs as [|? ? Hs' Hall]; subst.
    destruct (le x y) eqn:E.
    + constructor; [assumption|].
      constructor; [now apply le_R|].
      eapply Forall_impl; [|exact Hall]. intros z Hz.
      eapply R_trans; [apply le_R; eassumption|assumption].
    + constructor; [now apply IH|].
      rewrite Forall_forall. intros z Hz.
      apply (Permutation_in _ (Permutation_sym (insert_sorted_perm x l))) in Hz.
      destruct Hz as [<-|Hz]; [now apply nle_R|].
      rewrite Forall_forall in Hall. now apply Hall.
Qed.

Lemma sorted_strongly (l : list A) : StronglySorted R (sorted le l).
Proof.
  induction l as [|x l IH]; simpl; [constructor|].
  now apply insert_sorted_strongly.
Qed.
End SortedFacts.

(** ** sem_core: the overlap resolver *)

Module SemCoreResolver.
Import SemCore.

(** Two annotations do not overlap: the specification's
    [a.end <= b.start \/ b.end <= a.start]. *)
Definition disjoint (a b : ann) : Prop :=
  end_ a <= start b \/ end_ b <= start a.

(** Every pair of list positions [i < j] is disjoint. *)
Definition pairwise_disjoint (l : list ann) : Prop := ForallOrdPairs disjoint l.

Lemma disjoint_sym (a b : ann) : disjoint a b -> disjoint b a.
Proof. unfold disjoint. tauto. Qed.

Lemma overlaps_false (c k : ann) : overlaps c k = false <-> disjoint c k.
Proof. unfold overlaps, disjoint. rewrite negb_false_iff, orb_true_iff. lia. Qed.

Lemma overlaps_true (c k : ann) :
  overlaps c k = true <-> start k < end_ c /\ start c < end_ k.
Proof. unfold overlaps. rewrite negb_true_iff, orb_false_iff. lia. Qed.

(** The candidate starts at or after everything kept so far, so it can
    overlap at most one element of a pairwise-disjoint [kept]: two kept
    elements overlapping it would both contain its start. *)
Lemma overlap_unique (c e r : ann) :
  start e <= start c -> start r <= start c ->
  overlaps c e = true -> disjoint e r -> disjoint c r.
Proof. rewrite overlaps_true. unfold disjoint. lia. Qed.

Lemma scan_kept_Some (c : ann) (kept kept' : list ann) :
  pairwise_disjoint kept ->
  Forall (fun k => start k <= start c) kept ->
  scan_kept c kept = Some kept' ->
  pairwise_disjoint kept'
  /\ (forall x, In x kept' -> In x kept \/ x = c)
  /\ List.length kept' = List.length kept.
Proof.
  revert kept'. induction kept as [|e rest IH]; intros kept' Hp Hs Hscan;
    simpl in Hscan; [discriminate|].
  inversion Hp as [|? ? Hall Hp']; subst.
  inversion Hs as [|? ? He Hs']; subst.
  destruct (overlaps c e) eqn:Eo.
  - destruct (current_wins c e); injection Hscan as <-.
    + split; [|split; [|reflexivity]].
      * constructor; [|assumption].
        rewrite Forall_forall in *. intros r Hr.
        apply (overlap_unique c e r); auto.
      * simpl. intros x [<-|Hx]; auto.
    + split; [assumption|split; [|reflexivity]]. intros x Hx; now left.
  - destruct (scan_kept c rest) as [k''|] eqn:Er; [|discriminate].
    injection Hscan as <-.
    destruct (IH k'' Hp' Hs' eq_refl) as (Hd & Hin & Hlen).
    split; [|split].
    + constructor; [|assumption].
      rewrite Forall_forall in *. intros x Hx.
      destruct (Hin x Hx) as [Hx'| ->]; [now apply Hall|].
      apply disjoint_sym. now apply overlaps_false.
    + simpl. intros x [<-|Hx]; [now left; left|].
      destruct (Hin x Hx); [left; now right|now right].
    + simpl. now rewrite Hlen.
Qed.

Lemma scan_kept_None (c : ann) (kept : list ann) :
  scan_kept c kept = None -> Forall (fun k => disjoint k c) kept.
Proof.
  induction kept as [|e rest IH]; simpl; intros H; [constructor|].
  destruct (overlaps c e) eqn:Eo.
  - destruct (current_wins c e); discriminate.
  - destruct (scan_kept c rest); [discriminate|].
    constructor; [apply disjoint_sym; now apply overlaps_false|now apply IH].
Qed.

Lemma pairwise_disjoint_snoc (kept : list ann) (c : ann) :
  pairwise_disjoint kept -> Forall (fun k => disjoint k c) kept ->
  pairwise_disjoint (kept ++ [c]).
Proof.
  induction kept as [|e rest IH]; simpl; intros Hp Hc.
  - constructor; constructor.
  - inversion Hp; subst. inversion Hc; subst.
    constructor; [|now apply IH].
    apply Forall_app; split; [assumption|]. now constructor.
Qed.

Lemma resolve_step_spec (kept : list ann) (c : ann) :
  pairwise_disjoint kept ->
  Forall (fun k => start k <= start c) kept ->
  pairwise_disjoint (resolve_step kept c)
  /\ (forall x, In x (resolve_step kept c) -> In x kept \/ x = c).
Proof.
  intros Hp Hs. unfold resolve_step.
  destruct (scan_kept c kept) as [k'|] eqn:E.
  - destruct (scan_kept_Some c kept k' Hp Hs E) as (? & ? & ?). now split.
  - split.
    + apply pairwise_disjoint_snoc; [assumption|now apply scan_kept_None].
    + intros x Hx. apply in_app_or in Hx. destruct Hx as [?|[<-|[]]]; auto.
Qed.

(** The selection property of one step needs no hypothesis at all. *)
Lemma scan_kept_select (c : ann) (kept kept' : list ann) :
  scan_kept c kept = Some kept' ->
  (forall x, In x kept' -> In x kept \/ x = c)
  /\ List.length kept' = List.length kept.
Proof.
  revert kept'. induction kept as [|e rest IH]; intros kept' H; simpl in H;
    [discriminate|].
  destruct (overlaps c e).
  - destruct (current_wins c e); injection H as <-; split; try reflexivity;
      simpl; intros x [<-|Hx]; auto.
  - destruct (scan_kept c rest) as [k''|]; [|discriminate].
    injection H as <-. destruct (IH k'' eq_refl) as [Hin Hlen].
    split; [|simpl; now rewrite Hlen].
    simpl. intros x [<-|Hx]; [now left; left|].
    destruct (Hin x Hx); [left; now right|now right].
Qed.

Lemma resolve_step_select (kept : list ann) (c : ann) :
  (forall x, In x (resolve_step kept c) -> In x kept \/ x = c)
  /\ (List.length (resolve_step kept c) <= S (List.length kept))%nat.
Proof.
  unfold resolve_step. destruct (scan_kept c kept) as [k'|] eqn:E.
  - destruct (scan_kept_select c kept k' E) as [Hin Hlen]. split; [assumption|lia].
  - split.
    + intros x Hx. apply in_app_or in Hx. destruct Hx as [?|[<-|[]]]; auto.
    + rewrite length_app. simpl. lia.
Qed.

Lemma fold_resolve_select (l kept : list ann) :
  (forall x, In x (fold_left resolve_step l kept) -> In x kept \/ In x l)
  /\ (List.length (fold_left resolve_step l kept) <= List.length kept + List.length l)%nat.
Proof.
  revert kept. induction l as [|c l IH]; intros kept; simpl.
  - split; [auto|lia].
  - destruct (IH (resolve_step kept c)) as [Hin Hlen].
    destruct (resolve_step_select kept c) as [Hin1 Hlen1].
    split; [|lia].
    intros x Hx. destruct (Hin x Hx) as [H|H]; [|auto].
    destruct (Hin1 x H) as [?| ->]; auto.
Qed.

Lemma fold_resolve_disjoint (l kept : list ann) :
  StronglySorted (fun a b => start a <= start b) l ->
  pairwise_disjoint kept ->
  Forall (fun k => Forall (fun c => start k <= start c) l) kept ->
  pairwise_disjoint (fold_left resolve_step l kept).
Proof.
  revert kept. induction l as [|c l IH]; intros kept Hsort Hp Hs; simpl;
    [assumption|].
  inversion Hsort as [|? ? Hsort' Hc]; subst.
  assert (Hkc : Forall (fun k => start k <= start c) kept).
  { eapply Forall_impl; [|exact Hs]. intros k Hk. now inversion Hk. }
  destruct (resolve_step_spec kept c Hp Hkc) as [Hd Hin].
  apply IH; [assumption|assumption|].
  rewrite Forall_forall. intros x Hx.
  destruct (Hin x Hx) as [Hx'| ->]; [|assumption].
  rewrite Forall_forall in Hs. specialize (Hs x Hx'). now inversion Hs.
Qed.

Lemma position_sorted (anns : list ann) :
  StronglySorted (fun a b => start a <= start b) (sorted position_le anns).
Proof.
  apply sorted_strongly; unfold position_le, pair_le, position_key; simpl.
  - intros x y. rewrite orb_true_iff, andb_true_iff. lia.
  - intros x y. rewrite orb_false_iff, andb_false_iff. lia.
  - intros; lia.
Qed.

(** Whatever list of hits the resolver is given, no two annotations of
    its output overlap. *)
Lemma resolve_overlaps_disjoint {W : Type} (anns : list ann) (weights : W) :
  pairwise_disjoint (resolve_overlaps anns weights).
Proof.
  unfold resolve_overlaps.
  apply fold_resolve_disjoint; [apply position_sorted|constructor|constructor].
Qed.

(** Every annotation of the output is an element of the input, and the
    output is no longer than the input. *)
Lemma resolve_overlaps_subset {W : Type} (anns : list ann) (weights : W) :
  (forall a, In a (resolve_overlaps anns weights) -> In a anns)
  /\ (List.length (resolve_overlaps anns weights) <= List.length anns)%nat.
Proof.
  unfold resolve_overlaps.
  destruct (fold_resolve_select (sorted position_le anns) []) as [Hin Hlen].
  rewrite sorted_length in Hlen. split; [|exact Hlen].
  intros a Ha. destruct (Hin a Ha) as [[]|H]. now apply sorted_In in H.
Qed.

End SemCoreResolver.

(** ** sem_core: the sentence segmenter *)

Module SemCoreSegmenter.
Import SemCore.

(** Consecutive spans abut: the list covers [[p, q)] with non-empty
    spans, each starting where the previous one ends. *)
Fixpoint abut (p : Z) (l : list (Z * Z)) (q : Z) : Prop :=
  match l with
  | [] => p = q
  | (s, e) :: l' => s = p /\ p < e /\ abut e l' q
  end.

(** The same with the two liberties a hard break takes: a span may be
    empty, and the next span may start one character after it. *)
Fixpoint gapped (p : Z) (l : list (Z * Z)) (q : Z) : Prop :=
  match l with
  | [] => p = q
  | (s, e) :: l' => s = p /\ p <= e /\ (gapped e l' q \/ gapped (e + 1) l' q)
  end.

(** A newline immediately followed by a newline or a carriage return. *)
Fixpoint has_hard_break (t : text) : bool :=
  match t with
  | [] => false
  | c :: t' =>
      ((c =? 10)%N && match t' with
                      | d :: _ => ((d =? 10) || (d =? 13))%N
                      | [] => false
                      end)
      || has_hard_break t'
  end.

Lemma has_hard_break_nth (t : text) (i : nat) (ch : codepoint) :
  has_hard_break t = false ->
  nth_error t i = Some ch ->
  ((ch =? 10)%N && (is_char 10%N (nth_error t (S i)) || is_char 13%N (nth_error t (S i))))
  = false.
Proof.
  revert i. induction t as [|c t IH]; intros i Hb Hn; [destruct i; discriminate|].
  simpl in Hb. apply orb_false_iff in Hb. destruct Hb as [Hhere Hrest].
  destruct i as [|i]; simpl in Hn.
  - injection Hn as ->. simpl. destruct t as [|d t']; simpl.
    + now rewrite andb_false_r.
    + exact Hhere.
  - now apply IH.
Qed.

Lemma abut_snoc (p : Z) (l : list (Z * Z)) (q e : Z) :
  abut p l q -> q < e -> abut p (l ++ [(q, e)]) e.
Proof.
  revert p. induction l as [|[s e'] l IH]; simpl; intros p H Hlt.
  - subst. auto.
  - destruct H as (-> & Hp & H). auto.
Qed.

Lemma gapped_snoc (p : Z) (l : list (Z * Z)) (q e : Z) :
  gapped p l q -> q <= e ->
  gapped p (l ++ [(q, e)]) e /\ gapped p (l ++ [(q, e)]) (e + 1).
Proof.
  revert p. induction l as [|[s e'] l IH]; simpl; intros p H Hle.
  - subst. auto.
  - destruct H as (-> & Hp & [H|H]); destruct (IH _ H Hle); auto.
Qed.

Lemma abut_gapped (p : Z) (l : list (Z * Z)) (q : Z) : abut p l q -> gapped p l q.
Proof.
  revert p. induction l as [|[s e] l IH]; simpl; intros p H; [assumption|].
  destruct H as (-> & Hp & H). repeat split; [lia|]. left. now apply IH.
Qed.

Lemma skip_closing_bounds (fuel : nat) (t : text) (j : nat) :
  (j <= List.length t)%nat ->
  (j <= skip_closing fuel t j <= List.length t)%nat.
Proof.
  revert j. induction fuel as [|fuel IH]; intros j Hj; simpl; [lia|].
  destruct (nth_error t j) as [ch|] eqn:E; [|lia].
  destruct (is_closing ch); [|lia].
  assert (j < List.length t)%nat by (apply nth_error_Some; congruence).
  specialize (IH (S j)). lia.
Qed.

(** [skip_closing] stops by its own test: once the fuel covers the rest
    of the text, more fuel changes nothing. *)
Lemma skip_closing_fuel (t : text) (fuel fuel' : nat) :
  forall j, (List.length t - j <= fuel)%nat -> (List.length t - j <= fuel')%nat ->
            skip_closing fuel t j = skip_closing fuel' t j.
Proof.
  revert fuel'. induction fuel as [|fuel IH]; intros fuel' j H H'.
  - assert (Hn : nth_error t j = None) by (apply nth_error_None; lia).
    destruct fuel'; simpl; [reflexivity|now rewrite Hn].
  - destruct fuel' as [|fuel'].
    + assert (Hn : nth_error t j = None) by (apply nth_error_None; lia).
      simpl. now rewrite Hn.
    + simpl. destruct (nth_error t j) as [ch|] eqn:En; [|reflexivity].
      assert (j < List.length t)%nat by (apply nth_error_Some; congruence).
      destruct (is_closing ch); [|reflexivity]. apply IH; lia.
Qed.

Lemma ender_break_bounds (t : text) (i j : nat) (ch : codepoint) :
  (i < List.length t)%nat -> ender_break t i ch = Some j ->
  (i < j <= List.length t)%nat.
Proof.
  unfold ender_break. intros Hi H.
  destruct (is_ender ch); [|discriminate].
  pose proof (skip_closing_bounds (List.length t) t (S i) Hi) as Hb.
  destruct (nth_error t (skip_closing (List.length t) t (S i))) as [c|].
  - destruct (isspace c); [|discriminate]. injection H as <-. lia.
  - injection H as <-. lia.
Qed.

(** The loop invariant, in its general form: whatever the text, the
    spans collected so far reach the current [start] with at most
    one-character gaps. *)
Lemma sentence_loop_gapped (fuel : nat) (t : text) :
  forall i start out start' out',
    sentence_loop fuel t i start out = (start', out') ->
    gapped 0 out (Z.of_nat start) ->
    (start <= i <= List.length t)%nat ->
    gapped 0 out' (Z.of_nat start') /\ (start' <= List.length t)%nat.
Proof.
  induction fuel as [|fuel IH]; intros i start out start' out' Hrun Hg Hi;
    cbn [sentence_loop] in Hrun.
  - injection Hrun as <- <-. split; [assumption|lia].
  - destruct (nth_error t i) as [ch|] eqn:En;
      [|injection Hrun as <- <-; split; [assumption|lia]].
    assert (Hlt : (i < List.length t)%nat) by (apply nth_error_Some; congruence).
    destruct (ender_break t i ch) as [j|] eqn:Eb.
    + apply ender_break_bounds in Eb; [|assumption].
      apply (IH _ _ _ _ _ Hrun); [|lia].
      apply gapped_snoc; [assumption|lia].
    + destruct ((ch =? 10)%N && (is_char 10%N (nth_error t (S i))
                                 || is_char 13%N (nth_error t (S i)))).
      * apply (IH _ _ _ _ _ Hrun); [|lia].
        replace (Z.of_nat (S i)) with (Z.of_nat i + 1) by lia.
        apply gapped_snoc; [assumption|lia].
      * apply (IH _ _ _ _ _ Hrun); [assumption|lia].
Qed.

(** Without hard breaks the spans abut and are non-empty. *)
Lemma sentence_loop_abut (fuel : nat) (t : text) :
  has_hard_break t = false ->
  forall i start out start' out',
    sentence_loop fuel t i start out = (start', out') ->
    abut 0 out (Z.of_nat start) ->
    (start <= i <= List.length t)%nat ->
    abut 0 out' (Z.of_nat start').
Proof.
  intros Hb.
  induction fuel as [|fuel IH]; intros i start out start' out' Hrun Hg Hi;
    cbn [sentence_loop] in Hrun.
  - now injection Hrun as <- <-.
  - destruct (nth_error t i) as [ch|] eqn:En; [|now injection Hrun as <- <-].
    assert (Hlt : (i < List.length t)%nat) by (apply nth_error_Some; congruence).
    rewrite (has_hard_break_nth t i ch Hb En) in Hrun.
    destruct (ender_break t i ch) as [j|] eqn:Eb.
    + apply ender_break_bounds in Eb; [|assumption].
      apply (IH _ _ _ _ _ Hrun); [|lia].
      apply abut_snoc; [assumption|lia].
    + apply (IH _ _ _ _ _ Hrun); [assumption|lia].
Qed.

(** The loop exits by its own test, not by want of fuel: with
    [N - i] units it returns what any larger budget returns. *)
Lemma sentence_loop_fuel (t : text) (fuel fuel' : nat) :
  forall i start out,
    (List.length t - i <= fuel)%nat -> (List.length t - i <= fuel')%nat ->
    sentence_loop fuel t i start out = sentence_loop fuel' t i start out.
Proof.
  revert fuel'. induction fuel as [|fuel IH]; intros fuel' i start out H H'.
  - assert (Hn : nth_error t i = None) by (apply nth_error_None; lia).
    destruct fuel'; cbn [sentence_loop]; [reflexivity|now rewrite Hn].
  - destruct fuel' as [|fuel'].
    + assert (Hn : nth_error t i = None) by (apply nth_error_None; lia).
      cbn [sentence_loop]. now rewrite Hn.
    + cbn [sentence_loop]. destruct (nth_error t i) as [ch|] eqn:En; [|reflexivity].
      assert (Hlt : (i < List.length t)%nat) by (apply nth_error_Some; congruence).
      destruct (ender_break t i ch) as [j|] eqn:Eb.
      * apply ender_break_bounds in Eb; [|assumption]. apply IH; lia.
      * destruct ((ch =? 10)%N && _); apply IH; lia.
Qed.

Lemma sentence_boundaries_gapped (t : text) :
  gapped 0 (sentence_boundaries t) (len t).
Proof.
  unfold sentence_boundaries, len.
  destruct (sentence_loop (List.length t) t 0 0 []) as [start out] eqn:E.
  destruct (sentence_loop_gapped _ _ _ _ _ _ _ E) as [Hg Hle];
    [reflexivity|lia|].
  destruct (start <? List.length t)%nat eqn:El.
  - apply Nat.ltb_lt in El. apply gapped_snoc; [assumption|lia].
  - apply Nat.ltb_ge in El. now replace (List.length t) with start by lia.
Qed.

Lemma abut_without_hard_break (t : text) :
  has_hard_break t = false ->
  abut 0 (sentence_boundaries t) (len t).
Proof.
  intros Hb. unfold sentence_boundaries, len.
  destruct (sentence_loop (List.length t) t 0 0 []) as [start out] eqn:E.
  pose proof (sentence_loop_abut _ _ Hb _ _ _ _ _ E eq_refl) as Ha.
  destruct (sentence_loop_gapped _ _ _ _ _ _ _ E) as [_ Hle];
    [reflexivity|lia|].
  specialize (Ha ltac:(lia)).
  destruct (start <? List.length t)%nat eqn:El.
  - apply Nat.ltb_lt in El. apply abut_snoc; [assumption|lia].
  - apply Nat.ltb_ge in El. now replace (List.length t) with start by lia.
Qed.

End SemCoreSegmenter.

(** ** sem_core: span bounds *)

Module SemCoreBounds.
Import SemCore SemCoreSegmenter.

(** Sentence spans in increasing order inside [[lo, hi]]. *)
Fixpoint ordered (lo : Z) (l : list (Z * Z)) (hi : Z) : Prop :=
  match l with
  | [] => lo <= hi
  | (s, e) :: l' => lo <= s /\ s <= e /\ ordered e l' hi
  end.

Lemma ordered_weaken (lo lo' : Z) (l : list (Z * Z)) (hi : Z) :
  lo' <= lo -> ordered lo l hi -> ordered lo' l hi.
Proof. destruct l as [|[s e] l]; simpl; intros; [lia|]. intuition lia. Qed.

Lemma gapped_ordered (p : Z) (l : list (Z * Z)) (q : Z) :
  gapped p l q -> ordered p l q.
Proof.
  revert p. induction l as [|[s e] l IH]; simpl; intros p H; [lia|].
  destruct H as (-> & Hp & [H|H]); repeat split; try lia.
  - now apply IH.
  - apply (ordered_weaken (e + 1)); [lia|now apply IH].
Qed.

Lemma ordered_le (lo : Z) (l : list (Z * Z)) (hi : Z) : ordered lo l hi -> lo <= hi.
Proof.
  revert lo. induction l as [|[s e] l IH]; simpl; intros lo H; [assumption|].
  destruct H as (? & ? & H). apply IH in H. lia.
Qed.

Lemma ordered_nth (l : list (Z * Z)) :
  forall lo hi (i j : nat),
    ordered lo l hi -> (i <= j)%nat -> (j < List.length l)%nat ->
    lo <= fst (nth i l (0, 0))
    /\ fst (nth i l (0, 0)) <= fst (nth j l (0, 0))
    /\ snd (nth i l (0, 0)) <= snd (nth j l (0, 0))
    /\ fst (nth j l (0, 0)) <= snd (nth j l (0, 0))
    /\ snd (nth j l (0, 0)) <= hi.
Proof.
  induction l as [|[s e] l IH]; intros lo hi i j Ho Hij Hj; simpl in Hj; [lia|].
  simpl in Ho. destruct Ho as (Hlo & Hse & Ho).
  destruct j as [|j].
  - assert (i = O) by lia. subst. simpl. apply ordered_le in Ho. lia.
  - assert (Hj' : (j < List.length l)%nat) by lia.
    destruct i as [|i]; simpl.
    + destruct (IH e hi j j Ho (le_n _) Hj') as (? & ? & ? & ? & ?). lia.
    + destruct (IH e hi i j Ho ltac:(lia) Hj') as (? & ? & ? & ? & ?). lia.
Qed.

(** The same on the [Z] indices the source uses. *)
Lemma ordered_index (l : list (Z * Z)) (lo hi i j : Z) :
  ordered lo l hi -> 0 <= i <= j -> j < len l ->
  lo <= fst (index (0, 0) l i)
  /\ fst (index (0, 0) l i) <= fst (index (0, 0) l j)
  /\ snd (index (0, 0) l i) <= snd (index (0, 0) l j)
  /\ fst (index (0, 0) l j) <= snd (index (0, 0) l j)
  /\ snd (index (0, 0) l j) <= hi.
Proof.
  unfold index, len. intros Ho Hij Hj. apply (ordered_nth l lo hi); [assumption|lia|lia].
Qed.

Lemma first_containing_spec (sentences : list (Z * Z)) :
  forall i pos k,
    first_containing sentences i pos = Some k ->
    i <= k < i + len sentences
    /\ fst (nth (Z.to_nat (k - i)) sentences (0, 0)) <= pos
       < snd (nth (Z.to_nat (k - i)) sentences (0, 0)).
Proof.
  unfold len.
  induction sentences as [|[s e] rest IH]; intros i pos k H; simpl in H;
    [discriminate|].
  destruct ((s <=? pos) && (pos <? e)) eqn:E.
  - injection H as <-. rewrite Z.sub_diag. simpl List.length. simpl nth.
    simpl. apply andb_true_iff in E. lia.
  - apply IH in H. destruct H as [Hk Hc]. simpl List.length.
    replace (Z.to_nat (k - i)) with (S (Z.to_nat (k - (i + 1)))) by lia.
    simpl nth. split; [lia|assumption].
Qed.

(** After the second [enumerate] loop, each of [iL], [iR] is either the
    value it had or the index of a sentence around [s], resp. [e]. *)
Lemma span_range_spec (sentences : list (Z * Z)) :
  forall i s e iL0 iR0 iL iR,
    span_range sentences i s e iL0 iR0 = (iL, iR) ->
    (iL = iL0 \/ (i <= iL < i + len sentences
                  /\ fst (nth (Z.to_nat (iL - i)) sentences (0, 0)) <= s))
    /\ (iR = iR0 \/ (i <= iR < i + len sentences
                     /\ e <= snd (nth (Z.to_nat (iR - i)) sentences (0, 0)))).
Proof.
  unfold len.
  induction sentences as [|[a b] rest IH]; intros i s e iL0 iR0 iL iR H; simpl in H.
  - injection H as <- <-. auto.
  - apply IH in H. simpl List.length.
    assert (Hshift : forall k, i + 1 <= k ->
              nth (Z.to_nat (k - i)) ((a, b) :: rest) (0, 0)
              = nth (Z.to_nat (k - (i + 1))) rest (0, 0)).
    { intros k Hk. replace (Z.to_nat (k - i)) with (S (Z.to_nat (k - (i + 1)))) by lia.
      reflexivity. }
    destruct H as [HL HR]. split.
    + destruct HL as [->|[Hr Hc]].
      * destruct ((a <=? s) && (s <? b)) eqn:E; [|now left].
        right. rewrite Z.sub_diag. simpl. apply andb_true_iff in E. lia.
      * right. rewrite Hshift by lia. split; [lia|assumption].
    + destruct HR as [->|[Hr Hc]].
      * destruct ((a <? e) && (e <=? b)) eqn:E; [|now left].
        right. rewrite Z.sub_diag. simpl. apply andb_true_iff in E. lia.
      * right. rewrite Hshift by lia. split; [lia|assumption].
Qed.

Lemma sentence_union_loop_range (need : nat) :
  forall step N iL iR iL' iR',
    sentence_union_loop need step N iL iR = (iL', iR') ->
    0 <= iL -> iR <= N - 1 ->
    0 <= iL' <= iL /\ iR <= iR' <= N - 1.
Proof.
  induction need as [|need IH]; intros step N iL iR iL' iR' H HL HR; simpl in H.
  - injection H as <- <-. lia.
  - destruct ((iL >? 0) || (iR <? N - 1)); [|injection H as <- <-; lia].
    destruct ((step mod 2 =? 0) && (iR <? N - 1)) eqn:E1.
    + apply andb_true_iff in E1. apply IH in H; lia.
    + destruct (iL >? 0) eqn:E2; apply IH in H; lia.
Qed.

Definition span_ok (t : text) (se : Z * Z) : Prop :=
  0 <= fst se /\ fst se < snd se /\ snd se <= len t.

Lemma sentence_union_bounds (t : text) (sentences : list (Z * Z)) (iL iR max_sent mid : Z) :
  ordered 0 sentences (len t) ->
  0 <= iL < len sentences -> 0 <= iR < len sentences ->
  fst (index (0, 0) sentences iL) <= mid ->
  mid < snd (index (0, 0) sentences iR) ->
  span_ok t (sentence_union sentences iL iR max_sent).
Proof.
  intros Ho HL HR HmL HmR. unfold sentence_union.
  destruct (sentence_union_loop _ 0 (len sentences) iL iR) as [iL' iR'] eqn:E.
  apply sentence_union_loop_range in E; [|lia|lia].
  destruct (ordered_index sentences 0 (len t) iL' iL Ho) as (? & ? & ? & ? & ?);
    [lia|lia|].
  destruct (ordered_index sentences 0 (len t) iR iR' Ho) as (? & ? & ? & ? & ?);
    [lia|lia|].
  unfold span_ok. simpl. lia.
Qed.

Lemma last_index_of_lt (c : codepoint) (t : text) (k : nat) :
  last_index_of c t = Some k -> (k < List.length t)%nat.
Proof.
  revert k. induction t as [|x t IH]; intros k H; simpl in H; [discriminate|].
  destruct (last_index_of c t) as [k'|].
  - injection H as <-. specialize (IH k' eq_refl). simpl. lia.
  - destruct (x =? c)%N; [|discriminate]. injection H as <-. simpl. lia.
Qed.

Lemma rfind_lt (t : text) (c : codepoint) (stop : Z) : 0 <= stop -> rfind t c stop < stop.
Proof.
  intros H. unfold rfind.
  destruct (last_index_of c (firstn (Z.to_nat stop) t)) as [k|] eqn:E; [|lia].
  apply last_index_of_lt in E. rewrite length_firstn in E. lia.
Qed.

Lemma find_ge (t : text) (c : codepoint) (from : Z) :
  find t c from = -1 \/ from <= find t c from.
Proof.
  unfold find. destruct (first_index_of c (skipn (Z.to_nat from) t)); [right; lia|now left].
Qed.

Lemma clause_union_bounds (t : text) (s e : Z) :
  0 <= s -> s < e -> e <= len t -> span_ok t (clause_union t s e).
Proof.
  intros Hs Hse He. unfold clause_union, span_ok. cbv zeta. cbn [fst snd].
  pose proof (rfind_lt t COMMA s Hs). pose proof (rfind_lt t SEMICOLON s Hs).
  match goal with
  | |- 0 <= Z.max 0 ?l /\ Z.max 0 ?l < Z.min _ ?r /\ _ =>
      assert (Hleft : l <= s) by (destruct (_ >=? 0); lia);
      assert (Hright : e <= r)
  end.
  { destruct (find_ge t COMMA e) as [Hc|Hc]; destruct (find_ge t SEMICOLON e) as [Hm|Hm];
      cbn [filter];
      destruct (find t COMMA e =? -1) eqn:E1; destruct (find t SEMICOLON e =? -1) eqn:E2;
      cbn [negb fold_left]; lia. }
  lia.
Qed.

(** The condition under which the character window of the
    [anchor_window] branch really widens the span: the window reaches
    back ([window[0] <= 0]) and forth ([window[1] >= 0]), as the default
    [[-8, 8]] does. *)
Definition window_widens (pol : policy) : bool :=
  String.eqb (policy_mode pol) "sentence_union"
  || String.eqb (policy_mode pol) "clause_union"
  || ((fst (policy_window_tokens pol) <=? 0) && (0 <=? snd (policy_window_tokens pol))).

Lemma apply_span_policy_bounds (pol : policy) (t : text)
    (sentences : list (Z * Z)) (s e : Z) :
  ordered 0 sentences (len t) ->
  window_widens pol = true ->
  0 <= s -> s < e -> e <= len t ->
  span_ok t (apply_span_policy pol t sentences s e).
Proof.
  intros Ho Hw Hs Hse He. unfold apply_span_policy, window_widens in *.
  destruct (String.eqb (policy_mode pol) "sentence_union").
  - assert (Hmid : s <= (s + e) / 2 < e).
    { split; [apply Z.div_le_lower_bound; lia|apply Z.div_lt_upper_bound; lia]. }
    destruct (first_containing sentences 0 ((s + e) / 2)) as [sent_idx|] eqn:Ef;
      [|unfold span_ok; simpl; lia].
    apply first_containing_spec in Ef. rewrite Z.sub_0_r in Ef.
    destruct Ef as [Hidx Hc].
    destruct (span_range sentences 0 s e sent_idx sent_idx) as [iL iR] eqn:Er.
    apply span_range_spec in Er. destruct Er as [HL HR].
    apply (sentence_union_bounds t sentences iL iR _ ((s + e) / 2) Ho).
    + destruct HL as [->|[? _]]; lia.
    + destruct HR as [->|[? _]]; lia.
    + unfold index. destruct HL as [->|[_ HL]]; [lia|].
      rewrite Z.sub_0_r in HL. lia.
    + unfold index. destruct HR as [->|[_ HR]]; [lia|].
      rewrite Z.sub_0_r in HR. lia.
  - destruct (String.eqb (policy_mode pol) "clause_union").
    + now apply clause_union_bounds.
    + simpl in Hw. apply andb_true_iff in Hw. unfold span_ok. simpl. lia.
Qed.

End SemCoreBounds.

(** ** sem_core: the pipeline *)

Module SemCorePipeline.
Import SemCore SemCoreSegmenter SemCoreBounds SemCoreResolver.

Definition in_bounds (t : text) (a : ann) : Prop :=
  0 <= start a /\ start a < end_ a /\ end_ a <= len t.

(** *** Dicts and counts *)

Lemma dict_get_set_same {V} (d : dict V) (k : string) (v : V) :
  dict_get (dict_set d k v) k = Some v.
Proof.
  induction d as [|[k' v'] d IH]; simpl.
  - now rewrite String.eqb_refl.
  - destruct (String.eqb k k') eqn:E; simpl; rewrite ?String.eqb_refl, ?E; auto.
Qed.

Lemma dict_set_values {V} (P : V -> Prop) (d : dict V) (k : string) (v : V) :
  Forall P (dict_values d) -> P v -> Forall P (dict_values (dict_set d k v)).
Proof.
  unfold dict_values. induction d as [|[k' v'] d IH]; simpl; intros Hd Hv.
  - now constructor.
  - inversion Hd; subst. destruct (String.eqb k k'); simpl; constructor; auto.
Qed.

Lemma Zsum_zero (l : list Z) : Forall (fun v => v = 0) l -> Zsum l = 0.
Proof.
  unfold Zsum. induction l as [|x l IH]; simpl; intros H; [reflexivity|].
  inversion H; subst. now apply IH.
Qed.

Lemma window_counts_nil (needed_ids : list string) :
  total_children (window_counts needed_ids []) = 0.
Proof.
  unfold total_children, window_counts. simpl. rewrite dict_get_set_same.
  apply Zsum_zero.
  assert (H : forall ids d, Forall (fun v => v = 0) (dict_values d) ->
              Forall (fun v => v = 0)
                     (dict_values (fold_left (fun d k => dict_set d k 0) ids d))).
  { induction ids as [|k ids IH]; intros d Hd; simpl; [assumption|].
    apply IH. now apply dict_set_values. }
  apply H. constructor.
Qed.

(** *** Atomic hits lie in their sentence's bucket *)

Lemma append_at_In {A} (l : list (list A)) (idx k : nat) (x a : A) :
  In a (nth k (append_at l idx x) []) -> In a (nth k l []) \/ (k = idx /\ a = x).
Proof.
  revert idx k. induction l as [|y l IH]; intros idx k H.
  - destruct idx; simpl in H; now left.
  - destruct idx as [|idx]; destruct k as [|k]; simpl in *; auto.
    + apply in_app_or in H. destruct H as [H|[<-|[]]]; auto.
    + apply IH in H. destruct H as [H|[-> ->]]; auto.
Qed.

Definition bucketed (sentences : list (Z * Z)) (per_sent : list (list ann)) : Prop :=
  forall k x, In x (nth k per_sent []) ->
              first_containing sentences 0 (midpoint x) = Some (Z.of_nat k).

Lemma distribute_bucketed (sentences : list (Z * Z)) (atoms : list ann) :
  bucketed sentences (distribute sentences atoms).
Proof.
  unfold distribute.
  assert (Hinit : bucketed sentences (map (fun _ => []) sentences)).
  { intros k x H. exfalso. revert k H.
    induction sentences as [|se l IH]; intros [|k] H; simpl in H; eauto. }
  revert Hinit. generalize (map (fun _ : Z * Z => @nil ann) sentences) as ps.
  induction atoms as [|atomic atoms IH]; intros ps Hps; simpl; [assumption|].
  apply IH.
  destruct (first_containing sentences 0 (midpoint atomic)) as [idx|] eqn:E;
    [|assumption].
  intros k x H. apply append_at_In in H. destruct H as [H|[-> ->]]; [now apply Hps|].
  rewrite E. f_equal. apply first_containing_spec in E. lia.
Qed.

Lemma range_incl_In (a b k : Z) : In k (range_incl a b) -> a <= k <= b.
Proof.
  unfold range_incl. rewrite in_map_iff. intros (n & <- & Hn).
  apply in_seq in Hn. lia.
Qed.

Lemma range_In (n k : Z) : In k (range n) -> 0 <= k < n.
Proof.
  unfold range. rewrite in_map_iff. intros (m & <- & Hm). apply in_seq in Hm. lia.
Qed.

(** *** Composed hits *)

(** [marker.get("span_policy", {"mode": "sentence_union", ...})] *)
Definition marker_policy (m : Marker) : policy :=
  match span_policy m with Some p => p | None => default_span_policy end.

Section ComposeBounds.
Variable ast_parse : string -> option expr.

Lemma compose_window_bounds (t : text) (sentences : list (Z * Z))
    (per_sent : list (list ann)) (m : Marker) (i0 window_size : Z) (a : ann) :
  ordered 0 sentences (len t) ->
  bucketed sentences per_sent ->
  window_widens (marker_policy m) = true ->
  0 <= i0 ->
  compose_window ast_parse t sentences per_sent m i0 window_size = Some a ->
  in_bounds t a.
Proof.
  intros Ho Hb Hw Hi0. unfold compose_window. cbv zeta.
  fold (marker_policy m).
  set (iR := Z.min (len sentences - 1) (i0 + window_size - 1)).
  set (window_atomics := flat_map (fun k => index [] per_sent k) (range_incl i0 iR)).
  destruct (total_children (window_counts _ window_atomics) =? 0) eqn:Et;
    [discriminate|].
  destruct (eval_activation _ _ _); [|discriminate].
  destruct (apply_span_policy _ _ _ _ _) as [final_start final_end] eqn:Ep.
  intros H. injection H as <-. unfold in_bounds. simpl.
  (* some atomic hit sits in a sentence of the window *)
  destruct window_atomics as [|x rest] eqn:Ew.
  { rewrite window_counts_nil in Et. discriminate. }
  assert (Hx : In x window_atomics) by (rewrite Ew; now left).
  unfold window_atomics in Hx. apply in_flat_map in Hx.
  destruct Hx as (k & Hk & Hxk). apply range_incl_In in Hk. unfold index in Hxk.
  apply Hb in Hxk. rewrite Z2Nat.id in Hxk by lia.
  apply first_containing_spec in Hxk. rewrite Z.sub_0_r in Hxk.
  destruct Hxk as [Hklen Hmid].
  assert (HiR : iR < len sentences) by (unfold iR; lia).
  destruct (ordered_index sentences 0 (len t) i0 k Ho) as (? & ? & ? & ? & ?);
    [lia|lia|].
  destruct (ordered_index sentences 0 (len t) k iR Ho) as (? & ? & ? & ? & ?);
    [lia|lia|].
  unfold index in *.
  pose proof (apply_span_policy_bounds (marker_policy m) t sentences
                (fst (nth (Z.to_nat i0) sentences (0, 0)))
                (snd (nth (Z.to_nat iR) sentences (0, 0))) Ho Hw) as Hspan.
  unfold index in Ep. rewrite Ep in Hspan. unfold span_ok in Hspan. simpl in Hspan.
  apply Hspan; lia.
Qed.

Lemma compose_bounds {P W : Type} (t : text) (canon : Canon) (atoms : list ann)
    (promotion : P) (weights : W) :
  Forall (fun m => window_widens (marker_policy m) = true) (composed canon) ->
  Forall (in_bounds t) (compose ast_parse t canon atoms promotion weights).
Proof.
  intros Hw. unfold compose. rewrite Forall_forall. intros a Ha.
  apply in_flat_map in Ha. destruct Ha as (m & Hm & Ha).
  rewrite Forall_forall in Hw. specialize (Hw m Hm).
  unfold compose_marker in Ha. destruct (composed_of m); [contradiction|].
  apply in_flat_map in Ha. destruct Ha as (i0 & Hi0 & Ha). apply range_In in Hi0.
  induction (range1 _) as [|ws sizes IH]; simpl in Ha; [contradiction|].
  destruct (compose_window _ _ _ _ _ _ _) as [a'|] eqn:E; [|now apply IH].
  destruct Ha as [<-|[]].
  eapply compose_window_bounds; try eassumption; try lia.
  - apply gapped_ordered, sentence_boundaries_gapped.
  - apply distribute_bucketed.
Qed.

End ComposeBounds.

(** *** Atomic hits *)

Section AtomicBounds.
Context {RE : RegexEngine}.

Lemma pattern_hits_spec (t : text) (mid : string) (demotes : list pattern)
    (p : pattern) (a : ann) :
  In a (pattern_hits t mid demotes p) ->
  In (start a, end_ a) (finditer p t)
  /\ start a < end_ a
  /\ should_demote_match t (start a) (end_ a) demotes = false
  /\ marker_id a = mid /\ family a = family_of mid /\ score a = 1%Q.
Proof.
  unfold pattern_hits. rewrite in_flat_map. intros ([s e] & Hm & Ha).
  destruct (e <=? s) eqn:E; [contradiction|].
  destruct (should_demote_match t s e demotes) eqn:Ed; [contradiction|].
  destruct Ha as [<-|[]]. simpl. repeat split; auto. lia.
Qed.

(** Every hit of [detect_atomics] comes from a match of a detect pattern
    of one entry of the index. *)
Lemma detect_atomics_spec (t : text) (rx_index : dict rx_entry) (a : ann) :
  In a (detect_atomics t rx_index) ->
  exists patterns demotes p,
    In (marker_id a, (patterns, demotes)) rx_index /\ In p patterns
    /\ In a (pattern_hits t (marker_id a) demotes p).
Proof.
  unfold detect_atomics. rewrite sorted_In, in_flat_map.
  intros ([mid [patterns demotes]] & Hin & Ha). apply in_flat_map in Ha.
  destruct Ha as (p & Hp & Ha).
  destruct (pattern_hits_spec _ _ _ _ _ Ha) as (_ & _ & _ & Hid & _).
  exists patterns, demotes, p. rewrite Hid. auto.
Qed.

Lemma detect_atomics_bounds (t : text) (rx_index : dict rx_entry) :
  Forall (in_bounds t) (detect_atomics t rx_index).
Proof.
  rewrite Forall_forall. intros a Ha.
  apply detect_atomics_spec in Ha. destruct Ha as (ps & ds & p & _ & _ & Ha).
  apply pattern_hits_spec in Ha. destruct Ha as (Hm & Hlt & _).
  apply finditer_span in Hm. unfold in_bounds. lia.
Qed.

End AtomicBounds.

End SemCorePipeline.

(** ** sem_core: demotion and the evaluator *)

Module SemCoreDetector.
Import SemCore SemCorePipeline.

Section Demote.
Context {RE : RegexEngine}.

(** [should_demote_match] answers true exactly when a demote pattern
    fullmatches the matched text or a demote match in the text overlaps
    the span. *)
Lemma should_demote_match_iff (t : text) (s e : Z) (demotes : list pattern) :
  should_demote_match t s e demotes = true <->
  (exists p, In p demotes /\ fullmatch p (slice t s e) = true)
  \/ (exists p ds de, In p demotes /\ In (ds, de) (finditer p t)
                      /\ s < de /\ ds < e).
Proof.
  unfold should_demote_match.
  assert (Hov : forall span, demote_overlaps s e span = true <->
                              s < snd span /\ fst span < e).
  { intros [ds de]. unfold demote_overlaps. simpl.
    rewrite negb_true_iff, orb_false_iff. lia. }
  destruct demotes as [|p0 ps] eqn:Ed.
  - split; [discriminate|]. intros [(p & [] & _)|(p & ? & ? & [] & _)].
  - rewrite <- Ed. clear Ed.
    destruct (existsb (fun p => fullmatch p (slice t s e)) demotes) eqn:Ef.
    + split; [|reflexivity]. intros _. left. apply existsb_exists in Ef. exact Ef.
    + rewrite existsb_exists. split.
      * intros (p & Hp & Hm). apply existsb_exists in Hm.
        destruct Hm as ([ds de] & Hin & Ho). apply Hov in Ho.
        right. exists p, ds, de. auto.
      * intros [(p & Hp & Hm)|(p & ds & de & Hp & Hin & Ho)].
        -- assert (Ht : existsb (fun p => fullmatch p (slice t s e)) demotes = true)
             by (apply existsb_exists; eauto).
           congruence.
        -- exists p. split; [assumption|]. apply existsb_exists.
           exists (ds, de). split; [assumption|]. now apply Hov.
Qed.

(** No hit of [detect_atomics] fullmatches a demote pattern of its
    index entry. *)
Lemma detect_atomics_not_demoted (t : text) (rx_index : dict rx_entry) (a : ann) :
  In a (detect_atomics t rx_index) ->
  exists patterns demotes,
    In (marker_id a, (patterns, demotes)) rx_index
    /\ forall p, In p demotes -> fullmatch p (slice t (start a) (end_ a)) = false.
Proof.
  intros Ha. apply detect_atomics_spec in Ha.
  destruct Ha as (ps & ds & p & Hin & _ & Ha).
  apply pattern_hits_spec in Ha. destruct Ha as (_ & _ & Hd & _).
  exists ps, ds. split; [assumption|]. intros q Hq.
  destruct (fullmatch q (slice t (start a) (end_ a))) eqn:E; [|reflexivity].
  assert (should_demote_match t (start a) (end_ a) ds = true)
    by (apply should_demote_match_iff; left; eauto).
  congruence.
Qed.

End Demote.

(** In [_eval] a name missing from the environment is the integer 0. *)
Lemma eval_unknown_name (env : dict value) (x : string) :
  dict_get env x = None -> _eval (Name x) env = Some (VInt 0).
Proof. intros H. simpl. now rewrite H. Qed.

End SemCoreDetector.

(** ** ld35_engine: the fallback pipeline *)

Module LD35Facts.
Import LD35Engine.

(** *** Post-processing only selects *)

Lemma keep_disjoint_subset (l acc : list Annotation) :
  incl (fold_left (fun acc a => if existsb (overlapping a) acc then acc else acc ++ [a])
                  l acc) (acc ++ l)
  /\ (List.length (fold_left (fun acc a => if existsb (overlapping a) acc
                                           then acc else acc ++ [a]) l acc)
      <= List.length acc + List.length l)%nat.
Proof.
  revert acc. induction l as [|a l IH]; intros acc; simpl.
  - rewrite app_nil_r. split; [apply incl_refl|lia].
  - destruct (existsb (overlapping a) acc).
    + destruct (IH acc) as [Hi Hl]. split; [|lia].
      intros x Hx. apply Hi in Hx. apply in_app_or in Hx.
      apply in_or_app. destruct Hx; [now left|right; now right].
    + destruct (IH (acc ++ [a])) as [Hi Hl]. rewrite length_app in Hl. simpl in Hl.
      split; [|lia]. intros x Hx. apply Hi in Hx. now rewrite <- app_assoc in Hx.
Qed.

Lemma resolve_overlapping_annotations_subset (annotations : list Annotation) :
  incl (resolve_overlapping_annotations annotations) annotations
  /\ (List.length (resolve_overlapping_annotations annotations)
      <= List.length annotations)%nat.
Proof.
  unfold resolve_overlapping_annotations.
  destruct (keep_disjoint_subset (sorted priority_ge annotations) []) as [Hi Hl].
  rewrite sorted_length in *. simpl in *. split; [|lia].
  intros x Hx. apply sorted_In in Hx. apply Hi in Hx. now apply sorted_In in Hx.
Qed.

(** *** Scores of atomic hits *)

(** The key under which [_pattern_based_detection] remembers a hit. *)
Definition key (a : Annotation) : Z * Z * string := (start a, end_ a, marker a).

Definition span (a : Annotation) : Z * Z := (start a, end_ a).

Section Engine.
Context {RE : RegexEngine}.
Variable builtin_eval : string -> dict value -> option value.

Lemma key_seen_iff (k : Z * Z * string) (seen : list (Z * Z * string)) :
  key_seen k seen = true <-> In k seen.
Proof.
  unfold key_seen. rewrite existsb_exists. destruct k as [[s e] m]. simpl. split.
  - intros ([[s' e'] m'] & Hin & H).
    apply andb_true_iff in H. destruct H as [H Hm].
    apply andb_true_iff in H. destruct H as [Hs He].
    apply Z.eqb_eq in Hs. apply Z.eqb_eq in He. apply String.eqb_eq in Hm.
    now subst.
  - intros Hin. exists (s, e, m). split; [assumption|].
    now rewrite !Z.eqb_refl, String.eqb_refl.
Qed.

(** What a loop over matches adds to the state [st]: the hits [new], in
    order, each of marker [marker_id] with score [sc], on a non-empty
    span of [spans] whose key was not seen before. *)
Definition records (marker_id : string) (sc : Q) (spans : list (Z * Z))
    (st st' : detection_state) (new : list Annotation) : Prop :=
  st_annotations st' = st_annotations st ++ new
  /\ st_seen_keys st' = st_seen_keys st ++ map key new
  /\ Forall (fun a => marker a = marker_id /\ score a = sc
                      /\ start a <> end_ a /\ In (span a) spans
                      /\ ~ In (key a) (st_seen_keys st)) new.

(** After the loop every non-empty span it went through is seen. *)
Definition all_seen (marker_id : string) (spans : list (Z * Z))
    (st' : detection_state) : Prop :=
  forall s e, In (s, e) spans -> s <> e -> In (s, e, marker_id) (st_seen_keys st').

Lemma records_nil (marker_id : string) (sc : Q) (spans : list (Z * Z))
    (st : detection_state) :
  records marker_id sc spans st st [].
Proof. unfold records. rewrite !app_nil_r. repeat split. constructor. Qed.

Lemma records_trans (marker_id : string) (sc : Q) (spans1 spans2 : list (Z * Z))
    (st0 st1 st2 : detection_state) (new1 new2 : list Annotation) :
  records marker_id sc spans1 st0 st1 new1 ->
  records marker_id sc spans2 st1 st2 new2 ->
  records marker_id sc (spans1 ++ spans2) st0 st2 (new1 ++ new2).
Proof.
  intros (Ha1 & Hk1 & Hf1) (Ha2 & Hk2 & Hf2). unfold records.
  rewrite Ha2, Ha1, Hk2, Hk1, map_app, <- !app_assoc. repeat split.
  apply Forall_app. split.
  - eapply Forall_impl; [|exact Hf1]. intros a (? & ? & ? & Hin & ?).
    repeat split; auto. apply in_or_app. now left.
  - eapply Forall_impl; [|exact Hf2]. intros a (? & ? & ? & Hin & Hnew).
    repeat split; auto; [apply in_or_app; now right|].
    intros Hseen. apply Hnew. rewrite Hk1. apply in_or_app. now left.
Qed.

Lemma all_seen_later (marker_id : string) (sc : Q) (spans spans' : list (Z * Z))
    (st st' : detection_state) (new : list Annotation) :
  records marker_id sc spans' st st' new ->
  all_seen marker_id spans st -> all_seen marker_id spans st'.
Proof.
  intros (_ & Hk & _) H s e Hin Hne. rewrite Hk. apply in_or_app. left. now apply H.
Qed.

Lemma all_seen_app (marker_id : string) (spans1 spans2 : list (Z * Z))
    (st : detection_state) :
  all_seen marker_id spans1 st -> all_seen marker_id spans2 st ->
  all_seen marker_id (spans1 ++ spans2) st.
Proof.
  intros H1 H2 s e Hin Hne. apply in_app_or in Hin. destruct Hin; auto.
Qed.

Lemma record_match_spec (marker_id marker_type lbl : string) (sc : Q)
    (st : detection_state) (sp : Z * Z) :
  exists new,
    records marker_id sc [sp] st (record_match marker_id marker_type lbl sc st sp) new
    /\ all_seen marker_id [sp] (record_match marker_id marker_type lbl sc st sp).
Proof.
  destruct sp as [s e]. unfold record_match.
  destruct (s =? e) eqn:Ese.
  - apply Z.eqb_eq in Ese. exists []. split; [apply records_nil|].
    intros s' e' [Heq|[]] Hne. injection Heq as <- <-. contradiction.
  - apply Z.eqb_neq in Ese.
    destruct (key_seen (s, e, marker_id) (st_seen_keys st)) eqn:Eseen.
    + exists []. split; [apply records_nil|].
      intros s' e' [Heq|[]] _. injection Heq as <- <-. now apply key_seen_iff.
    + exists [ {| start := s; end_ := e; marker := marker_id; family := marker_type;
                  label := lbl; score := sc |} ]. split.
      * unfold records. simpl. repeat split. constructor; [|constructor].
        unfold key, span. simpl. repeat split; auto.
        intros Hin. apply key_seen_iff in Hin. congruence.
      * intros s' e' [Heq|[]] _. injection Heq as <- <-. simpl.
        apply in_or_app. right. now left.
Qed.

Lemma scan_pattern_spec (t : text) (marker_id marker_type lbl : string) (sc : Q)
    (compiled : option pattern) (st : detection_state) :
  let spans := match compiled with Some p => finditer p t | None => [] end in
  exists new,
    records marker_id sc spans st
            (scan_pattern t marker_id marker_type lbl sc st compiled) new
    /\ all_seen marker_id spans (scan_pattern t marker_id marker_type lbl sc st compiled).
Proof.
  unfold scan_pattern. destruct compiled as [p|]; cbv zeta.
  - revert st. induction (finditer p t) as [|sp spans IH]; intros st; simpl.
    + exists []. split; [apply records_nil|]. intros s e [].
    + destruct (record_match_spec marker_id marker_type lbl sc st sp) as (new1 & H1 & S1).
      destruct (IH (record_match marker_id marker_type lbl sc st sp)) as (new2 & H2 & S2).
      exists (new1 ++ new2). split.
      * exact (records_trans _ _ [sp] spans _ _ _ _ _ H1 H2).
      * apply (all_seen_app _ [sp] spans); [|assumption].
        exact (all_seen_later _ _ _ _ _ _ _ H2 S1).
  - exists []. split; [apply records_nil|]. intros s e [].
Qed.

(** The spans the regex loop of a marker goes through, and whether it
    is left by an exception. *)
Fixpoint scanned_spans (t : text) (regex_specs : list (string * Z))
    : list (Z * Z) * bool :=
  match regex_specs with
  | [] => ([], false)
  | (pat, fl) :: rest =>
      match re_compile pat fl with
      | None => scanned_spans t rest
      | Some compiled =>
          if flags_rejected fl then ([], true)
          else (finditer compiled t ++ fst (scanned_spans t rest),
                snd (scanned_spans t rest))
      end
  end.

Lemma scan_regex_specs_spec (t : text) (marker_id marker_type lbl : string) (sc : Q)
    (regex_specs : list (string * Z)) :
  forall st,
    let r := scan_regex_specs t marker_id marker_type lbl sc regex_specs st in
    snd r = snd (scanned_spans t regex_specs)
    /\ exists new,
         records marker_id sc (fst (scanned_spans t regex_specs)) st (fst r) new
         /\ all_seen marker_id (fst (scanned_spans t regex_specs)) (fst r).
Proof.
  induction regex_specs as [|[pat fl] rest IH]; intros st; simpl.
  - split; [reflexivity|]. exists []. split; [apply records_nil|]. intros s e [].
  - destruct (re_compile pat fl) as [compiled|]; [|apply IH].
    destruct (flags_rejected fl); simpl.
    + split; [reflexivity|]. exists []. split; [apply records_nil|]. intros s e [].
    + destruct (scan_pattern_spec t marker_id marker_type lbl sc (Some compiled) st)
        as (new1 & H1 & S1). cbv zeta in H1, S1.
      destruct (IH (scan_pattern t marker_id marker_type lbl sc st (Some compiled)))
        as (Hr & new2 & H2 & S2).
      split; [exact Hr|]. exists (new1 ++ new2). split.
      * exact (records_trans _ _ _ _ _ _ _ _ _ H1 H2).
      * apply all_seen_app; [|assumption].
        exact (all_seen_later _ _ _ _ _ _ _ H2 S1).
Qed.

(** The spans the literal loop goes through. *)
Definition term_spans (t : text) (literal_terms : list string) : list (Z * Z) :=
  flat_map (fun term =>
              match re_compile (literal_source term) IGNORECASE with
              | Some p => finditer p t
              | None => []
              end)
           literal_terms.

Lemma scan_literals_spec (t : text) (marker_id marker_type lbl : string) (sc : Q)
    (literal_terms : list string) :
  forall st,
    exists new,
      records marker_id sc (term_spans t literal_terms) st
        (fold_left (fun st term =>
                      scan_pattern t marker_id marker_type lbl sc st
                        (re_compile (literal_source term) IGNORECASE))
                   literal_terms st) new.
Proof.
  induction literal_terms as [|term rest IH]; intros st; simpl.
  - exists []. apply records_nil.
  - destruct (scan_pattern_spec t marker_id marker_type lbl sc
                (re_compile (literal_source term) IGNORECASE) st) as (new1 & H1 & _).
    cbv zeta in H1.
    destruct (IH (scan_pattern t marker_id marker_type lbl sc st
                    (re_compile (literal_source term) IGNORECASE))) as (new2 & H2).
    exists (new1 ++ new2). exact (records_trans _ _ _ _ _ _ _ _ _ H1 H2).
Qed.

(** The matches of the regex patterns of a marker, as far as its regex
    loop gets; and the matches of its literal terms, when the literal
    loop is reached. *)
Definition regex_spans (self : LD35Model) (t : text) (item : string * Marker)
    : list (Z * Z) :=
  fst (scanned_spans t (fst (_collect_marker_signals self (fst item) (snd item)))).

Definition literal_spans (self : LD35Model) (t : text) (item : string * Marker)
    : list (Z * Z) :=
  if snd (scanned_spans t (fst (_collect_marker_signals self (fst item) (snd item))))
  then []
  else term_spans t (snd (_collect_marker_signals self (fst item) (snd item))).

(** A hit of the marker [item]: a regex match with the base score of the
    marker, or else a literal match with the literal-fallback score. *)
Definition hit_of (self : LD35Model) (t : text) (item : string * Marker)
    (a : Annotation) : Prop :=
  marker a = fst item
  /\ start a <> end_ a
  /\ exists base,
       _get_marker_score (snd item) = Ok base
       /\ ((In (span a) (regex_spans self t item) /\ score a = base)
           \/ (~ In (span a) (regex_spans self t item)
               /\ In (span a) (literal_spans self t item)
               /\ score a = Qmax (4 # 10) (base - (1 # 10)))).

Lemma detect_marker_spec (self : LD35Model) (t : text) (st : detection_state)
    (item : string * Marker) :
  exists new,
    st_annotations (detect_marker self t st item) = st_annotations st ++ new
    /\ st_seen_keys (detect_marker self t st item) = st_seen_keys st ++ map key new
    /\ Forall (hit_of self t item) new.
Proof.
  destruct item as [marker_id marker_data].
  unfold hit_of, regex_spans, literal_spans, detect_marker. cbn [fst snd].
  destruct (_collect_marker_signals self marker_id marker_data) as [specs terms].
  cbn [fst snd].
  assert (Hnone : exists new : list Annotation,
             st_annotations st = st_annotations st ++ new
             /\ st_seen_keys st = st_seen_keys st ++ map key new
             /\ Forall (fun a : Annotation =>
                   marker a = marker_id /\ start a <> end_ a
                   /\ exists base, _get_marker_score marker_data = Ok base
                        /\ ((In (span a) (fst (scanned_spans t specs)) /\ score a = base)
                            \/ (~ In (span a) (fst (scanned_spans t specs))
                                /\ In (span a) (if snd (scanned_spans t specs) then []
                                                else term_spans t terms)
                                /\ score a = Qmax (4 # 10) (base - (1 # 10))))) new).
  { exists []. rewrite !app_nil_r. repeat split. constructor. }
  assert (Hsome :
    match _get_marker_score marker_data with
    | Ok sc =>
        exists new : list Annotation,
          st_annotations
            (let '(st1, raised) :=
               scan_regex_specs t marker_id (_get_marker_type_from_id marker_id)
                 (_get_marker_label marker_data marker_id) sc specs st in
             if raised then st1
             else fold_left
                    (fun st0 term =>
                       scan_pattern t marker_id (_get_marker_type_from_id marker_id)
                         (_get_marker_label marker_data marker_id)
                         (Qmax (4 # 10) (sc - (1 # 10))) st0
                         (re_compile (literal_source term) IGNORECASE)) terms st1)
          = st_annotations st ++ new
          /\ st_seen_keys
               (let '(st1, raised) :=
                  scan_regex_specs t marker_id (_get_marker_type_from_id marker_id)
                    (_get_marker_label marker_data marker_id) sc specs st in
                if raised then st1
                else fold_left
                       (fun st0 term =>
                          scan_pattern t marker_id (_get_marker_type_from_id marker_id)
                            (_get_marker_label marker_data marker_id)
                            (Qmax (4 # 10) (sc - (1 # 10))) st0
                            (re_compile (literal_source term) IGNORECASE)) terms st1)
             = st_seen_keys st ++ map key new
          /\ Forall (fun a : Annotation =>
                   marker a = marker_id /\ start a <> end_ a
                   /\ exists base, Ok sc = Ok base
                        /\ ((In (span a) (fst (scanned_spans t specs)) /\ score a = base)
                            \/ (~ In (span a) (fst (scanned_spans t specs))
                                /\ In (span a) (if snd (scanned_spans t specs) then []
                                                else term_spans t terms)
                                /\ score a = Qmax (4 # 10) (base - (1 # 10))))) new
    | Raised => True
    end).
  { destruct (_get_marker_score marker_data) as [sc|]; [|exact I].
    pose proof (scan_regex_specs_spec t marker_id (_get_marker_type_from_id marker_id)
                  (_get_marker_label marker_data marker_id) sc specs st) as Hre.
    cbv zeta in Hre.
    destruct (scan_regex_specs t marker_id (_get_marker_type_from_id marker_id)
                (_get_marker_label marker_data marker_id) sc specs st) as [st1 raised].
    simpl fst in Hre. simpl snd in Hre.
    destruct Hre as (Hr & new1 & (Ha1 & Hk1 & Hf1) & Hseen1).
    assert (Hregex : Forall (fun a : Annotation =>
                   marker a = marker_id /\ start a <> end_ a
                   /\ exists base, Ok sc = Ok base
                        /\ ((In (span a) (fst (scanned_spans t specs)) /\ score a = base)
                            \/ (~ In (span a) (fst (scanned_spans t specs))
                                /\ In (span a) (if snd (scanned_spans t specs) then []
                                                else term_spans t terms)
                                /\ score a = Qmax (4 # 10) (base - (1 # 10))))) new1).
    { eapply Forall_impl; [|exact Hf1]. intros a (Hm & Hs & Hne & Hin & _).
      repeat split; auto. exists sc. split; [reflexivity|]. left. now split. }
    rewrite <- Hr in Hregex |- *. destruct raised.
    - exists new1. repeat split; assumption.
    - destruct (scan_literals_spec t marker_id (_get_marker_type_from_id marker_id)
                  (_get_marker_label marker_data marker_id)
                  (Qmax (4 # 10) (sc - (1 # 10))) terms st1) as (new2 & Ha2 & Hk2 & Hf2).
      exists (new1 ++ new2). rewrite Ha2, Hk2, Ha1, Hk1, map_app, <- !app_assoc.
      repeat split. apply Forall_app. split; [exact Hregex|].
      eapply Forall_impl; [|exact Hf2]. intros a (Hm & Hs & Hne & Hin & Hnew).
      repeat split; auto. exists sc. split; [reflexivity|]. right.
      repeat split; auto. intros Hre. apply Hnew.
      unfold span in Hre. specialize (Hseen1 _ _ Hre Hne).
      unfold key. now rewrite Hm. }
  destruct specs as [|sp specs']; [destruct terms as [|tm terms']; [exact Hnone|]|];
    (destruct (_get_marker_score marker_data) as [sc|]; [exact Hsome|exact Hnone]).
Qed.

Lemma detect_fold_spec (self : LD35Model) (t : text) (items : list (string * Marker)) :
  forall st,
    exists new,
      st_annotations (fold_left (detect_marker self t) items st)
      = st_annotations st ++ new
      /\ Forall (fun a => exists item, In item items /\ hit_of self t item a) new.
Proof.
  induction items as [|item items IH]; intros st; simpl.
  - exists []. rewrite app_nil_r. split; [reflexivity|constructor].
  - destruct (detect_marker_spec self t st item) as (new1 & Ha1 & _ & Hf1).
    destruct (IH (detect_marker self t st item)) as (new2 & Ha2 & Hf2).
    exists (new1 ++ new2). rewrite Ha2, Ha1, <- app_assoc. split; [reflexivity|].
    apply Forall_app. split.
    + eapply Forall_impl; [|exact Hf1]. intros a H. exists item. split; [now left|exact H].
    + eapply Forall_impl; [|exact Hf2]. intros a (it & Hin & H).
      exists it. split; [now right|exact H].
Qed.

(** Every atomic hit is a hit of a marker of the index. *)
Lemma pattern_based_detection_hit_of (self : LD35Model) (t : text) (a : Annotation) :
  In a (fst (_pattern_based_detection self t)) ->
  exists marker_data,
    In (marker a, marker_data) (markers_index self)
    /\ hit_of self t (marker a, marker_data) a.
Proof.
  unfold _pattern_based_detection.
  destruct (markers_index self) as [|it its] eqn:Ei; [contradiction|].
  rewrite <- Ei. clear Ei it its. simpl fst.
  destruct (detect_fold_spec self t
              (sorted (fun a b => family_order (fst a) <=? family_order (fst b))
                      (markers_index self)) (mkState [] [] [])) as (new & Ha & Hf).
  rewrite Ha. simpl. intros Hin. rewrite Forall_forall in Hf.
  destruct (Hf a Hin) as ([mid md] & Hit & Hhit).
  apply sorted_In in Hit. pose proof Hhit as (Hm & _). simpl in Hm. subst mid.
  exists md. now split.
Qed.

(** What [detect_marker] may append for a marker: its id, and its base
    score or the literal-fallback score. *)
Lemma pattern_based_detection_scores (self : LD35Model) (t : text) (a : Annotation) :
  In a (fst (_pattern_based_detection self t)) ->
  exists marker_data base,
    In (marker a, marker_data) (markers_index self)
    /\ _get_marker_score marker_data = Ok base
    /\ (score a = base \/ score a = Qmax (4 # 10) (base - (1 # 10))).
Proof.
  intros Ha. apply pattern_based_detection_hit_of in Ha.
  destruct Ha as (md & Hin & _ & _ & base & Hb & H). simpl in Hb.
  exists md, base. repeat split; auto. destruct H as [[_ H]|(_ & _ & H)]; auto.
Qed.

(** *** The base score *)

Lemma floats_Ok (values xs : list Q) : floats values = Ok xs -> xs = values.
Proof.
  revert xs. induction values as [|v rest IH]; intros xs; simpl.
  - now intros [= <-].
  - unfold py_float. destruct (_ || _); [discriminate|].
    destruct (floats rest) as [ys|]; [|discriminate].
    intros [= <-]. now rewrite (IH ys eq_refl).
Qed.

(** With no declared score the base score is 0.7. *)
Lemma get_marker_score_default (marker_data : Marker) :
  scoring marker_data = None -> explicit_score marker_data = None ->
  _get_marker_score marker_data = Ok (7 # 10).
Proof. unfold _get_marker_score, score_candidates_of. now intros -> ->. Qed.

Lemma Qgtb_lt (x y : Q) : Qgtb x y = true <-> (y < x)%Q.
Proof.
  unfold Qgtb. rewrite negb_true_iff. split.
  - intros H. apply Qnot_le_lt. intros Hle. apply Qle_bool_iff in Hle. congruence.
  - intros H. destruct (Qle_bool x y) eqn:E; [|reflexivity].
    apply Qle_bool_iff in E. exfalso. exact (Qlt_not_le _ _ H E).
Qed.

Lemma Qgtb_le (x y : Q) : Qgtb x y = false <-> (x <= y)%Q.
Proof.
  unfold Qgtb. rewrite negb_false_iff. apply Qle_bool_iff.
Qed.

(** [max(score_candidates)] is a candidate that no candidate exceeds. *)
Lemma Qmax_list_spec (l : list Q) :
  forall x, (In (Qmax_list x l) (x :: l))
            /\ Forall (fun c => (c <= Qmax_list x l)%Q) (x :: l).
Proof.
  unfold Qmax_list. induction l as [|y l IH]; intros x; simpl.
  - split; [now left|]. constructor; [apply Qle_refl|constructor].
  - destruct (Qgtb y x) eqn:E.
    + destruct (IH y) as [Hin Hall]. split; [now right|].
      inversion Hall as [|? ? Hy Hl]; subst. constructor; [|now constructor].
      apply Qgtb_lt in E. apply Qlt_le_weak. eapply Qlt_le_trans; eassumption.
    + destruct (IH x) as [Hin Hall]. split.
      * destruct Hin as [Hin|Hin]; [now left|right; now right].
      * inversion Hall as [|? ? Hx Hl]; subst. constructor; [assumption|].
        constructor; [|assumption]. apply Qgtb_le in E. eapply Qle_trans; eassumption.
Qed.

(** The base score as a function of the largest declared candidate [M]:
    0.3 up to 0.3, [M] up to 1, [M / 2] up to 2, and 1 beyond. *)
Definition normalised (M base : Q) : Prop :=
  ((M <= 3 # 10)%Q -> (base == 3 # 10)%Q)
  /\ ((3 # 10 <= M)%Q -> (M <= 1)%Q -> base = M)
  /\ ((1 < M)%Q -> (M <= 2)%Q -> (base == M / 2)%Q)
  /\ ((2 <= M)%Q -> (base == 1)%Q).

Lemma get_marker_score_declared (marker_data : Marker) (base : Q) :
  score_candidates_of marker_data <> [] ->
  _get_marker_score marker_data = Ok base ->
  exists M, In M (score_candidates_of marker_data)
            /\ Forall (fun c => (c <= M)%Q) (score_candidates_of marker_data)
            /\ normalised M base.
Proof.
  unfold _get_marker_score. intros Hne.
  destruct (floats (score_candidates_of marker_data)) as [xs|] eqn:Ef; [|discriminate].
  apply floats_Ok in Ef. subst xs.
  destruct (score_candidates_of marker_data) as [|c cs]; [contradiction|].
  cbv zeta. intros [= <-].
  destruct (Qmax_list_spec cs c) as [Hin Hall].
  exists (Qmax_list c cs). split; [exact Hin|]. split; [exact Hall|].
  generalize (Qmax_list c cs) as M. clear. intros M.
  assert (Hhalf : forall x : Q, (x / 2 <= 1)%Q <-> (x <= 2)%Q).
  { intros x. unfold Qdiv, Qle, Qmult, Qinv. simpl. lia. }
  assert (Hhalf' : forall x : Q, (1 <= x / 2)%Q <-> (2 <= x)%Q).
  { intros x. unfold Qdiv, Qle, Qmult, Qinv. simpl. lia. }
  assert (H12 : ~ (2 <= 1)%Q) by (unfold Qle; simpl; lia).
  assert (H31 : (3 # 10 <= 1)%Q) by (unfold Qle; simpl; lia).
  unfold normalised, Qmax, Qmin.
  destruct (Qgtb M 1) eqn:E1.
  - apply Qgtb_lt in E1.
    destruct (Qle_bool 1 (M / 2)) eqn:E2.
    + apply Qle_bool_iff in E2. apply Hhalf' in E2.
      change (Qle_bool (3 # 10) 1) with true. cbv iota.
      split; [|split; [|split]].
      * intros H. exfalso. apply (Qlt_not_le _ _ E1). eapply Qle_trans; eassumption.
      * intros _ H. exfalso. exact (Qlt_not_le _ _ E1 H).
      * intros _ H. assert (HM : (M == 2)%Q) by (apply Qle_antisym; assumption).
        rewrite HM. reflexivity.
      * intros _. reflexivity.
    + assert (Hlt : (M < 2)%Q).
      { apply Qnot_le_lt. intros H. apply Hhalf' in H. apply Qle_bool_iff in H. congruence. }
      assert (Hlo : Qle_bool (3 # 10) (M / 2) = true).
      { apply Qle_bool_iff. revert E1. unfold Qdiv, Qle, Qlt, Qmult, Qinv. simpl. lia. }
      rewrite Hlo. split; [|split; [|split]].
      * intros H. exfalso. apply (Qlt_not_le _ _ E1). eapply Qle_trans; eassumption.
      * intros _ H. exfalso. exact (Qlt_not_le _ _ E1 H).
      * intros _ _. reflexivity.
      * intros H. exfalso. exact (Qlt_not_le _ _ Hlt H).
  - apply Qgtb_le in E1.
    destruct (Qle_bool (3 # 10) M) eqn:E3.
    + apply Qle_bool_iff in E3. split; [|split; [|split]].
      * intros H. apply Qle_antisym; assumption.
      * intros _ _. reflexivity.
      * intros H _. exfalso. exact (Qlt_not_le _ _ H E1).
      * intros H. exfalso. apply H12. eapply Qle_trans; eassumption.
    + assert (Hlt : (M < 3 # 10)%Q).
      { apply Qnot_le_lt. intros H. apply Qle_bool_iff in H. congruence. }
      split; [|split; [|split]].
      * intros _. reflexivity.
      * intros H _. exfalso. exact (Qlt_not_le _ _ Hlt H).
      * intros H _. exfalso. exact (Qlt_not_le _ _ H E1).
      * intros H. exfalso. apply H12. eapply Qle_trans; eassumption.
Qed.

End Engine.
End LD35Facts.

(** ** ld35_engine: composed markers and promotion *)

Module LD35Composer.
Import LD35Engine.

Section Engine.
Context {RE : RegexEngine}.
Variable builtin_eval : string -> dict value -> option value.

(** A candidate exists only when the marker has at least
    [min_children_default] children recorded. *)
Lemma composed_candidate_spec (self : LD35Model) (t : text)
    (sentences tokens : list (Z * Z)) (default_score : Q)
    (marker_matches : dict (list (Z * Z)))
    (item : string * Marker) (c : candidate) :
  composed_candidate builtin_eval self t sentences tokens default_score
    marker_matches item = Ok (Some c) ->
  cand_marker_id c = fst item
  /\ total_children_of self marker_matches item = Ok (cand_total_children c)
  /\ min_children_default self <= cand_total_children c.
Proof.
  destruct item as [marker_id marker_data].
  unfold composed_candidate, total_children_of. cbv zeta. cbn [fst snd].
  destruct (negb _); [discriminate|].
  destruct (child_info_of _ marker_matches) as [child_info|]; [|discriminate].
  destruct child_info as [|ci cis] eqn:Eci; [discriminate|].
  rewrite <- Eci. clear Eci ci cis.
  destruct (SemCore.Zsum (dict_values (child_counts_of child_info))
            <? min_children_default self) eqn:Emin; [discriminate|].
  destruct (py_float _); [|discriminate].
  destruct (Qltb _ _); [discriminate|].
  destruct (negb (_evaluate_expression _ _ _)); [discriminate|].
  destruct (_apply_span_policy _ _ _ _ _) as [[span|]|]; try discriminate.
  intros H. injection H as <-. simpl. repeat split. lia.
Qed.


(** The guard of a promotion rule on a candidate, and its score test. *)
Definition guard_passes (rule : promotion_entry) (c : candidate) : bool :=
  _evaluate_expression builtin_eval (activate_when rule)
    [("score", VFloat (cand_score c));
     ("total_children", VInt (cand_total_children c))].

Definition below_rule_score (rule : promotion_entry) (c : candidate) : outcome bool :=
  match promo_min_score rule with
  | Some min_score_rule =>
      match py_float min_score_rule with
      | Raised => Raised
      | Ok m => Ok (Qltb (cand_score c) m)
      end
  | None => Ok false
  end.

(** The candidate with the family its rule names. *)
Definition promoted (rule : promotion_entry) (c : candidate) : Annotation :=
  emit c (match promote_to rule with
          | Some f => f
          | None => cand_family c
          end).

Lemma apply_promotion_rule (self : LD35Model) (c : candidate) (rule : promotion_entry) :
  dict_get (promotion_rules self) (cand_marker_id c) = Some rule ->
  apply_promotion builtin_eval self c
  = if guard_passes rule c
    then match below_rule_score rule c with
         | Raised => Raised
         | Ok true => Ok None
         | Ok false => Ok (Some (promoted rule c))
         end
    else Ok None.
Proof.
  unfold apply_promotion, guard_passes, below_rule_score, promoted. intros ->.
  destruct (_evaluate_expression _ _ _); simpl; [|reflexivity].
  destruct (promo_min_score rule) as [m|]; [|reflexivity].
  destruct (py_float m) as [m'|]; [|reflexivity].
  now destruct (Qltb (cand_score c) m').
Qed.

Lemma apply_promotion_no_rule (self : LD35Model) (c : candidate) :
  dict_get (promotion_rules self) (cand_marker_id c) = None ->
  apply_promotion builtin_eval self c = Ok (Some (emit c (cand_family c))).
Proof. unfold apply_promotion. now intros ->. Qed.

Lemma apply_promotion_Some (self : LD35Model) (c : candidate) (a : Annotation) :
  apply_promotion builtin_eval self c = Ok (Some a) ->
  marker a = cand_marker_id c
  /\ start a = fst (cand_span c) /\ end_ a = snd (cand_span c)
  /\ score a = cand_score c
  /\ forall rule, dict_get (promotion_rules self) (cand_marker_id c) = Some rule ->
                  guard_passes rule c = true /\ below_rule_score rule c = Ok false.
Proof.
  destruct (dict_get (promotion_rules self) (cand_marker_id c)) as [rule|] eqn:Er.
  - rewrite (apply_promotion_rule self c rule Er).
    destruct (guard_passes rule c) eqn:Eg; [|discriminate].
    destruct (below_rule_score rule c) as [[|]|] eqn:Eb; try discriminate.
    intros H. injection H as <-. unfold promoted. simpl.
    do 4 (split; [reflexivity|]). intros r Hr. injection Hr as <-. now split.
  - rewrite (apply_promotion_no_rule self c Er).
    intros H. injection H as <-. simpl. do 4 (split; [reflexivity|]). discriminate.
Qed.

Lemma detect_composed_marker_Some (self : LD35Model) (t : text)
    (sentences tokens : list (Z * Z)) (default_score : Q)
    (marker_matches : dict (list (Z * Z))) (item : string * Marker) (a : Annotation) :
  detect_composed_marker builtin_eval self t sentences tokens default_score
    marker_matches item = Ok (Some a) ->
  exists c,
    composed_candidate builtin_eval self t sentences tokens default_score
      marker_matches item = Ok (Some c)
    /\ apply_promotion builtin_eval self c = Ok (Some a)
    /\ marker a = fst item.
Proof.
  unfold detect_composed_marker.
  destruct (composed_candidate _ _ _ _ _ _ _ _) as [[c|]|] eqn:Ec; try discriminate.
  intros Hp. exists c. repeat split; [exact Hp|].
  apply apply_promotion_Some in Hp. destruct Hp as (Hm & _).
  apply composed_candidate_spec in Ec. destruct Ec as (Hid & _). congruence.
Qed.

(** *** The marker loop *)

Lemma composed_loop_app (self : LD35Model) (t : text)
    (sentences tokens : list (Z * Z)) (default_score : Q)
    (items1 items2 : list (string * Marker)) :
  forall anns marker_matches,
    composed_loop builtin_eval self t sentences tokens default_score
      (items1 ++ items2) anns marker_matches
    = match composed_loop builtin_eval self t sentences tokens default_score
              items1 anns marker_matches with
      | Raised => Raised
      | Ok (anns1, mm1) =>
          composed_loop builtin_eval self t sentences tokens default_score
            items2 anns1 mm1
      end.
Proof.
  induction items1 as [|item items1 IH]; intros anns mm; simpl; [reflexivity|].
  destruct (detect_composed_marker _ _ _ _ _ _ _ _) as [[a|]|]; auto.
Qed.

(** What the loop appends belongs to the markers it went through. *)
Lemma composed_loop_extra (self : LD35Model) (t : text)
    (sentences tokens : list (Z * Z)) (default_score : Q)
    (items : list (string * Marker)) :
  forall anns marker_matches anns' mm',
    composed_loop builtin_eval self t sentences tokens default_score
      items anns marker_matches = Ok (anns', mm') ->
    exists extra, anns' = anns ++ extra
                  /\ Forall (fun a => In (marker a) (map fst items)) extra.
Proof.
  induction items as [|item items IH]; intros anns mm anns' mm' Hrun; simpl in Hrun.
  - injection Hrun as <- <-. exists []. rewrite app_nil_r. split; [reflexivity|constructor].
  - destruct (detect_composed_marker _ _ _ _ _ _ _ _) as [[a|]|] eqn:Ed;
      [| |discriminate].
    + apply detect_composed_marker_Some in Ed. destruct Ed as (c & _ & _ & Hm).
      destruct (IH _ _ _ _ Hrun) as (extra & -> & Hall).
      exists (a :: extra). rewrite <- app_assoc. split; [reflexivity|].
      constructor; [simpl; now left|].
      eapply Forall_impl; [|exact Hall]. intros x Hx. simpl. now right.
    + destruct (IH _ _ _ _ Hrun) as (extra & -> & Hall).
      exists extra. split; [reflexivity|].
      eapply Forall_impl; [|exact Hall]. intros x Hx. simpl. now right.
Qed.

(** The match table when the loop of [_detect_composed_markers] has gone
    through the markers [items1] of the index, which is the table the
    next marker is looked up in. *)
Definition table_after (self : LD35Model) (t : text)
    (marker_matches : dict (list (Z * Z))) (items1 : list (string * Marker))
    : outcome (dict (list (Z * Z))) :=
  match min_score_default self with
  | Raised => Raised
  | Ok default_score =>
      match composed_loop builtin_eval self t (_get_sentences t) (_get_tokens t)
              default_score items1 [] marker_matches with
      | Raised => Raised
      | Ok (_, mm) => Ok mm
      end
  end.

(** A run that returns has gone through every marker of the index: at
    each one the table is defined and the loop body returns (an
    annotation or nothing); the annotations of the output with the id of
    this marker are the one of this turn of the loop, if any. *)
Lemma detect_composed_markers_at (self : LD35Model) (t : text)
    (marker_matches : dict (list (Z * Z))) (out : list Annotation)
    (items1 items2 : list (string * Marker)) (item : string * Marker) :
  NoDup (map fst (markers_index self)) ->
  _detect_composed_markers builtin_eval self t marker_matches = Ok out ->
  markers_index self = items1 ++ item :: items2 ->
  exists default_score mm r,
    min_score_default self = Ok default_score
    /\ table_after self t marker_matches items1 = Ok mm
    /\ detect_composed_marker builtin_eval self t (_get_sentences t) (_get_tokens t)
         default_score mm item = Ok r
    /\ (forall a, r = Some a -> In a out)
    /\ (forall a, In a out -> marker a = fst item -> r = Some a).
Proof.
  intros Hnd Hrun Hsplit. unfold _detect_composed_markers, table_after in *.
  destruct (min_score_default self) as [d|]; [|discriminate].
  rewrite Hsplit in Hrun, Hnd. rewrite composed_loop_app in Hrun.
  destruct (composed_loop builtin_eval self t (_get_sentences t) (_get_tokens t) d
              items1 [] marker_matches) as [[anns1 mm1]|] eqn:E1; [|discriminate].
  exists d, mm1. simpl in Hrun.
  destruct (detect_composed_marker builtin_eval self t (_get_sentences t)
              (_get_tokens t) d mm1 item) as [r|] eqn:Ed; [|discriminate].
  exists r. do 3 (split; [reflexivity|]).
  apply composed_loop_extra in E1. destruct E1 as (extra1 & -> & Hall1).
  simpl in Hall1. rewrite map_app in Hnd. simpl in Hnd.
  apply NoDup_remove_2 in Hnd.
  assert (Hrest : exists extra2,
             out = extra1 ++ match r with Some a => [a] | None => [] end ++ extra2
             /\ Forall (fun a => In (marker a) (map fst items2)) extra2).
  { destruct r as [a|].
    - destruct (composed_loop _ _ _ _ _ _ _ _ _) as [[anns2 mm2]|] eqn:E2;
        [|discriminate].
      injection Hrun as <-. apply composed_loop_extra in E2.
      destruct E2 as (extra2 & -> & Hall2). exists extra2.
      rewrite <- app_assoc. now split.
    - destruct (composed_loop _ _ _ _ _ _ _ _ _) as [[anns2 mm2]|] eqn:E2;
        [|discriminate].
      injection Hrun as <-. apply composed_loop_extra in E2.
      destruct E2 as (extra2 & -> & Hall2). exists extra2. now split. }
  destruct Hrest as (extra2 & -> & Hall2). split.
  - intros a ->. apply in_or_app. right. now left.
  - intros a Ha Hm. rewrite Forall_forall in Hall1, Hall2.
    apply in_app_or in Ha. destruct Ha as [Ha|Ha].
    + exfalso. apply Hnd. apply in_or_app. left. rewrite <- Hm. now apply Hall1.
    + apply in_app_or in Ha. destruct Ha as [Ha|Ha].
      * destruct r as [a'|]; [|contradiction]. destruct Ha as [->|[]]. reflexivity.
      * exfalso. apply Hnd. apply in_or_app. right. rewrite <- Hm. now apply Hall2.
Qed.






(** The promotion rule of a marker decides over its candidate: the
    annotations of the output with the id of the marker are the promoted
    candidate when the rule lets it pass, and none otherwise. *)
Lemma promotion_rule_gates (self : LD35Model) (t : text)
    (marker_matches : dict (list (Z * Z))) (out : list Annotation)
    (items1 items2 : list (string * Marker)) (item : string * Marker)
    (default_score : Q) (mm : dict (list (Z * Z))) (c : candidate)
    (rule : promotion_entry) :
  NoDup (map fst (markers_index self)) ->
  _detect_composed_markers builtin_eval self t marker_matches = Ok out ->
  markers_index self = items1 ++ item :: items2 ->
  table_after self t marker_matches items1 = Ok mm ->
  min_score_default self = Ok default_score ->
  composed_candidate builtin_eval self t (_get_sentences t) (_get_tokens t)
    default_score mm item = Ok (Some c) ->
  dict_get (promotion_rules self) (fst item) = Some rule ->
  if guard_passes rule c
  then (below_rule_score rule c = Ok true /\ ~ In (fst item) (map marker out))
       \/ (below_rule_score rule c = Ok false
           /\ forall a, In a out /\ marker a = fst item <-> a = promoted rule c)
  else ~ In (fst item) (map marker out).
Proof.
  intros Hnd Hrun Hsplit Hmm Hd Hc Hrule.
  destruct (detect_composed_markers_at self t marker_matches out items1 items2 item
              Hnd Hrun Hsplit) as (d & mm' & r & Hd' & Hmm' & Hit & Hin & Hout).
  rewrite Hmm in Hmm'. injection Hmm' as <-.
  rewrite Hd in Hd'. injection Hd' as <-.
  unfold detect_composed_marker in Hit. rewrite Hc in Hit.
  pose proof (composed_candidate_spec _ _ _ _ _ _ _ _ Hc) as (Hid & _).
  rewrite <- Hid in Hrule. rewrite (apply_promotion_rule self c rule Hrule) in Hit.
  assert (Hnone : r = None -> ~ In (fst item) (map marker out)).
  { intros -> H. apply in_map_iff in H. destruct H as (a & Hm & Ha).
    discriminate (Hout a Ha Hm). }
  destruct (guard_passes rule c).
  - destruct (below_rule_score rule c) as [[|]|]; [| |discriminate].
    + left. split; [reflexivity|]. apply Hnone. congruence.
    + right. split; [reflexivity|]. injection Hit as <-. intros a. split.
      * intros [Ha Hm]. specialize (Hout a Ha Hm). congruence.
      * intros ->. split; [now apply Hin|]. unfold promoted. simpl. exact Hid.
  - apply Hnone. congruence.
Qed.

(** Without a rule the candidate is emitted as it stands. *)
Lemma no_rule_emits (self : LD35Model) (t : text)
    (marker_matches : dict (list (Z * Z))) (out : list Annotation)
    (items1 items2 : list (string * Marker)) (item : string * Marker)
    (default_score : Q) (mm : dict (list (Z * Z))) (c : candidate) :
  NoDup (map fst (markers_index self)) ->
  _detect_composed_markers builtin_eval self t marker_matches = Ok out ->
  markers_index self = items1 ++ item :: items2 ->
  table_after self t marker_matches items1 = Ok mm ->
  min_score_default self = Ok default_score ->
  composed_candidate builtin_eval self t (_get_sentences t) (_get_tokens t)
    default_score mm item = Ok (Some c) ->
  dict_get (promotion_rules self) (fst item) = None ->
  forall a, In a out /\ marker a = fst item <-> a = emit c (cand_family c).
Proof.
  intros Hnd Hrun Hsplit Hmm Hd Hc Hrule.
  destruct (detect_composed_markers_at self t marker_matches out items1 items2 item
              Hnd Hrun Hsplit) as (d & mm' & r & Hd' & Hmm' & Hit & Hin & Hout).
  rewrite Hmm in Hmm'. injection Hmm' as <-.
  rewrite Hd in Hd'. injection Hd' as <-.
  unfold detect_composed_marker in Hit. rewrite Hc in Hit.
  pose proof (composed_candidate_spec _ _ _ _ _ _ _ _ Hc) as (Hid & _).
  rewrite <- Hid in Hrule. rewrite (apply_promotion_no_rule self c Hrule) in Hit.
  injection Hit as <-. intros a. split.
  - intros [Ha Hm]. specialize (Hout a Ha Hm). congruence.
  - intros ->. split; [now apply Hin|]. simpl. exact Hid.
Qed.

End Engine.
End LD35Composer.

(** ** What the engines do not read *)

Module Independence.

(** Sorting commutes with a map that preserves the order test. *)
Lemma sorted_map {A B : Type} (leA : A -> A -> bool) (leB : B -> B -> bool)
    (f : A -> B) (l : list A) :
  (forall x y, leB (f x) (f y) = leA x y) ->
  sorted leB (map f l) = map f (sorted leA l).
Proof.
  intros Hle. induction l as [|x l IH]; simpl; [reflexivity|].
  rewrite IH. generalize (sorted leA l) as s. clear IH.
  induction s as [|y s IH]; simpl; [reflexivity|].
  rewrite Hle. destruct (leA x y); simpl; [reflexivity|now rewrite IH].
Qed.

(** *** [resolve_overlaps] never looks at [marker_id] *)

Definition rename (f : string -> string) (a : SemCore.ann) : SemCore.ann :=
  {| SemCore.marker_id := f (SemCore.marker_id a); SemCore.family := SemCore.family a;
     SemCore.start := SemCore.start a; SemCore.end_ := SemCore.end_ a;
     SemCore.score := SemCore.score a |}.

Lemma scan_kept_rename (f : string -> string) (c : SemCore.ann) (kept : list SemCore.ann) :
  SemCore.scan_kept (rename f c) (map (rename f) kept)
  = option_map (map (rename f)) (SemCore.scan_kept c kept).
Proof.
  induction kept as [|e rest IH]; simpl; [reflexivity|].
  change (SemCore.overlaps (rename f c) (rename f e)) with (SemCore.overlaps c e).
  change (SemCore.current_wins (rename f c) (rename f e)) with (SemCore.current_wins c e).
  destruct (SemCore.overlaps c e).
  - now destruct (SemCore.current_wins c e).
  - rewrite IH. now destruct (SemCore.scan_kept c rest).
Qed.

Lemma resolve_overlaps_rename {W : Type} (f : string -> string)
    (anns : list SemCore.ann) (w : W) :
  SemCore.resolve_overlaps (map (rename f) anns) w
  = map (rename f) (SemCore.resolve_overlaps anns w).
Proof.
  unfold SemCore.resolve_overlaps.
  rewrite (sorted_map SemCore.position_le SemCore.position_le (rename f))
    by reflexivity.
  change (@nil SemCore.ann) with (map (rename f) []) at 1.
  generalize (@nil SemCore.ann) as kept.
  induction (sorted SemCore.position_le anns) as [|c l IH]; intros kept; simpl;
    [reflexivity|].
  rewrite <- IH. f_equal. unfold SemCore.resolve_step.
  rewrite scan_kept_rename. destruct (SemCore.scan_kept c kept); simpl;
    [reflexivity|]. now rewrite map_app.
Qed.

(** *** [_pattern_based_detection] never looks at [demote_if] *)

Definition without_demotes (m : Marker) : Marker :=
  {| id := id m; kind := kind m; detects := detects m; demote_if := [];
     composed_of := composed_of m; activation := activation m;
     span_policy := span_policy m; min_children := min_children m;
     min_score := min_score m; frame_concept := frame_concept m;
     frame_signal := frame_signal m; description := description m;
     examples := examples m; scoring := scoring m;
     explicit_score := explicit_score m; declared_family := declared_family m |}.

Definition forget_demotes (self : LD35Engine.LD35Model) : LD35Engine.LD35Model :=
  {| LD35Engine.markers_index :=
       map (fun '(k, m) => (k, without_demotes m)) (LD35Engine.markers_index self);
     LD35Engine.weights := LD35Engine.weights self;
     LD35Engine.marker_definitions := LD35Engine.marker_definitions self;
     LD35Engine.promotion_rules := LD35Engine.promotion_rules self |}.

Lemma fold_detect_forgets_demotes {RE : RegexEngine}
    (self : LD35Engine.LD35Model) (t : text) (items : list (string * Marker)) :
  forall st,
    fold_left (LD35Engine.detect_marker (forget_demotes self) t)
              (map (fun '(k, m) => (k, without_demotes m)) items) st
    = fold_left (LD35Engine.detect_marker self t) items st.
Proof.
  induction items as [|[k m] items IH]; intros st; [reflexivity|].
  simpl map. simpl fold_left.
  change (LD35Engine.detect_marker (forget_demotes self) t st (k, without_demotes m))
    with (LD35Engine.detect_marker self t st (k, m)).
  apply IH.
Qed.

Lemma pattern_based_detection_forgets_demotes {RE : RegexEngine}
    (self : LD35Engine.LD35Model) (t : text) :
  LD35Engine._pattern_based_detection (forget_demotes self) t
  = LD35Engine._pattern_based_detection self t.
Proof.
  unfold LD35Engine._pattern_based_detection. simpl LD35Engine.markers_index.
  destruct (LD35Engine.markers_index self) as [|[k0 m0] its]; [reflexivity|].
  cbn [map].
  change ((k0, without_demotes m0) :: map (fun '(k, m) => (k, without_demotes m)) its)
    with (map (fun '(k, m) => (k, without_demotes m)) ((k0, m0) :: its)).
  rewrite (sorted_map
             (fun a b => LD35Engine.family_order (fst a) <=? LD35Engine.family_order (fst b))
             (fun a b => LD35Engine.family_order (fst a) <=? LD35Engine.family_order (fst b))
             (fun '(k, m) => (k, without_demotes m)))
    by (intros [k m] [k' m']; reflexivity).
  now rewrite fold_detect_forgets_demotes.
Qed.

(** *** [run_inference] never looks at a marker's [min_children] *)

Definition without_min_children (m : Marker) : Marker :=
  {| id := id m; kind := kind m; detects := detects m; demote_if := demote_if m;
     composed_of := composed_of m; activation := activation m;
     span_policy := span_policy m; min_children := None;
     min_score := min_score m; frame_concept := frame_concept m;
     frame_signal := frame_signal m; description := description m;
     examples := examples m; scoring := scoring m;
     explicit_score := explicit_score m; declared_family := declared_family m |}.

Definition forget_min_children (self : LD35Engine.LD35Model) : LD35Engine.LD35Model :=
  {| LD35Engine.markers_index :=
       map (fun '(k, m) => (k, without_min_children m)) (LD35Engine.markers_index self);
     LD35Engine.weights := LD35Engine.weights self;
     LD35Engine.marker_definitions :=
       map (fun '(k, m) => (k, without_min_children m))
           (LD35Engine.marker_definitions self);
     LD35Engine.promotion_rules := LD35Engine.promotion_rules self |}.

Lemma dict_get_map {V W : Type} (f : V -> W) (d : dict V) (k : string) :
  dict_get (map (fun '(k, v) => (k, f v)) d) k = option_map f (dict_get d k).
Proof.
  induction d as [|[k' v] d IH]; simpl; [reflexivity|].
  now destruct (String.eqb k k').
Qed.

Lemma detect_marker_forgets_min_children {RE : RegexEngine}
    (self : LD35Engine.LD35Model) (t : text) (st : LD35Engine.detection_state)
    (k : string) (m : Marker) :
  LD35Engine.detect_marker (forget_min_children self) t st (k, without_min_children m)
  = LD35Engine.detect_marker self t st (k, m).
Proof.
  unfold LD35Engine.detect_marker, LD35Engine._collect_marker_signals.
  cbn [LD35Engine.marker_definitions forget_min_children].
  rewrite dict_get_map.
  now destruct (dict_get (LD35Engine.marker_definitions self) k).
Qed.

Lemma pattern_based_detection_forgets_min_children {RE : RegexEngine}
    (self : LD35Engine.LD35Model) (t : text) :
  LD35Engine._pattern_based_detection (forget_min_children self) t
  = LD35Engine._pattern_based_detection self t.
Proof.
  unfold LD35Engine._pattern_based_detection.
  cbn [LD35Engine.markers_index forget_min_children].
  destruct (LD35Engine.markers_index self) as [|[k0 m0] its]; [reflexivity|].
  cbn [map].
  change ((k0, without_min_children m0)
          :: map (fun '(k, m) => (k, without_min_children m)) its)
    with (map (fun '(k, m) => (k, without_min_children m)) ((k0, m0) :: its)).
  rewrite (sorted_map
             (fun a b => LD35Engine.family_order (fst a) <=? LD35Engine.family_order (fst b))
             (fun a b => LD35Engine.family_order (fst a) <=? LD35Engine.family_order (fst b))
             (fun '(k, m) => (k, without_min_children m)))
    by (intros [k m] [k' m']; reflexivity).
  generalize (sorted (fun a b => LD35Engine.family_order (fst a)
                                 <=? LD35Engine.family_order (fst b))
                     ((k0, m0) :: its)) as items.
  generalize (LD35Engine.mkState [] [] []) as st.
  intros st items. revert st.
  induction items as [|[k m] items IH]; intros st; [reflexivity|].
  cbn [map fold_left]. rewrite detect_marker_forgets_min_children. apply IH.
Qed.

Lemma composed_candidate_forgets_min_children {RE : RegexEngine}
    (builtin_eval : string -> dict value -> option value)
    (self : LD35Engine.LD35Model) (t : text) (sentences tokens : list (Z * Z))
    (default_score : Q) (mm : dict (list (Z * Z))) (k : string) (m : Marker) :
  LD35Engine.composed_candidate builtin_eval (forget_min_children self) t
    sentences tokens default_score mm (k, without_min_children m)
  = LD35Engine.composed_candidate builtin_eval self t sentences tokens
      default_score mm (k, m).
Proof.
  unfold LD35Engine.composed_candidate, LD35Engine.composed_children.
  cbn [LD35Engine.marker_definitions forget_min_children].
  rewrite dict_get_map.
  now destruct (dict_get (LD35Engine.marker_definitions self) k).
Qed.

Lemma composed_loop_forgets_min_children {RE : RegexEngine}
    (builtin_eval : string -> dict value -> option value)
    (self : LD35Engine.LD35Model) (t : text) (sentences tokens : list (Z * Z))
    (default_score : Q) (items : list (string * Marker)) :
  forall anns mm,
    LD35Engine.composed_loop builtin_eval (forget_min_children self) t sentences tokens
      default_score (map (fun '(k, m) => (k, without_min_children m)) items) anns mm
    = LD35Engine.composed_loop builtin_eval self t sentences tokens default_score
        items anns mm.
Proof.
  induction items as [|[k m] items IH]; intros anns mm; [reflexivity|].
  cbn [map LD35Engine.composed_loop]. unfold LD35Engine.detect_composed_marker.
  rewrite composed_candidate_forgets_min_children.
  destruct (LD35Engine.composed_candidate builtin_eval self t sentences tokens
              default_score mm (k, m)) as [[c|]|]; [|apply IH|reflexivity].
  change (LD35Engine.apply_promotion builtin_eval (forget_min_children self) c)
    with (LD35Engine.apply_promotion builtin_eval self c).
  destruct (LD35Engine.apply_promotion builtin_eval self c) as [[a|]|];
    [apply IH|apply IH|reflexivity].
Qed.

Lemma run_inference_forgets_min_children {RE : RegexEngine}
    (builtin_eval : string -> dict value -> option value)
    (self : LD35Engine.LD35Model) (t : text) :
  LD35Engine.run_inference builtin_eval (forget_min_children self) t
  = LD35Engine.run_inference builtin_eval self t.
Proof.
  unfold LD35Engine.run_inference.
  rewrite pattern_based_detection_forgets_min_children.
  destruct (LD35Engine._pattern_based_detection self t) as [atoms mm].
  unfold LD35Engine._detect_composed_markers.
  change (LD35Engine.min_score_default (forget_min_children self))
    with (LD35Engine.min_score_default self).
  destruct (LD35Engine.min_score_default self) as [d|]; [|reflexivity].
  cbn [LD35Engine.markers_index forget_min_children].
  now rewrite composed_loop_forgets_min_children.
Qed.

End Independence.

(* ================================================================== *)
(** * Further properties of sem_core.py                                 *)
(* ================================================================== *)

Module SemCoreProperties.
Import SemCore SemCoreSegmenter SemCoreBounds SemCoreResolver SemCorePipeline.

(** ** The sentence segmenter *)

(** What the loop knows about the last span it appended: either the
    next span is still open ([start < N]), or nothing was appended yet,
    or the last span ends at [start]. *)
Definition closed_at (t : text) (start : nat) (out : list (Z * Z)) : Prop :=
  (start < List.length t)%nat
  \/ (out = [] /\ start = O)
  \/ exists l s, out = l ++ [(s, Z.of_nat start)].

Lemma is_char_Some (c : codepoint) (o : option codepoint) :
  is_char c o = true -> o = Some c.
Proof.
  destruct o as [ch|]; simpl; [|discriminate].
  intros H. apply N.eqb_eq in H. now subst.
Qed.

Lemma hard_break_next (t : text) (i : nat) :
  is_char 10%N (nth_error t (S i)) || is_char 13%N (nth_error t (S i)) = true ->
  exists c, nth_error t (S i) = Some c /\ isspace c = true.
Proof.
  intros H. apply orb_true_iff in H.
  destruct H as [H|H]; apply is_char_Some in H; rewrite H; eauto.
Qed.

Lemma sentence_loop_closed (fuel : nat) (t : text) :
  forall i start out start' out',
    sentence_loop fuel t i start out = (start', out') ->
    closed_at t start out ->
    closed_at t start' out'.
Proof.
  induction fuel as [|fuel IH]; intros i start out start' out' Hrun Hc;
    cbn [sentence_loop] in Hrun.
  - now injection Hrun as <- <-.
  - destruct (nth_error t i) as [ch|] eqn:En; [|now injection Hrun as <- <-].
    destruct (ender_break t i ch) as [j|] eqn:Eb.
    + apply (IH _ _ _ _ _ Hrun). right. right. eauto.
    + destruct ((ch =? 10)%N && (is_char 10%N (nth_error t (S i))
                                 || is_char 13%N (nth_error t (S i)))) eqn:Eh.
      * apply (IH _ _ _ _ _ Hrun). left.
        apply andb_true_iff in Eh. destruct Eh as [_ Eh].
        apply hard_break_next in Eh. destruct Eh as (c & Hc' & _).
        apply nth_error_Some. congruence.
      * now apply (IH _ _ _ _ _ Hrun).
Qed.

(** X1.  The spans of [sentence_boundaries] cover the text from its
    first character to its last: the first span starts at 0, every span
    has [start <= end], each span starts where the previous one ends or
    one character later, and the last span ends at [len(text)].  The
    empty text has no span, every other text has one at least. *)
Theorem sentence_boundaries_cover (t : text) :
  gapped 0 (sentence_boundaries t) (len t)
  /\ match t with
     | [] => sentence_boundaries t = []
     | _ :: _ => exists l s, sentence_boundaries t = l ++ [(s, len t)]
     end.
Proof.
  split; [apply sentence_boundaries_gapped|].
  destruct t as [|c0 t0] eqn:Et; [reflexivity|]. rewrite <- Et.
  assert (Hne : (0 < List.length t)%nat) by (subst t; simpl; lia).
  clear Et c0 t0.
  unfold sentence_boundaries, len.
  destruct (sentence_loop (List.length t) t 0 0 []) as [start out] eqn:E.
  destruct (sentence_loop_gapped _ _ _ _ _ _ _ E) as [_ Hle];
    [reflexivity|lia|].
  assert (Hc : closed_at t start out).
  { apply (sentence_loop_closed _ _ _ _ _ _ _ E). right. left. auto. }
  destruct (start <? List.length t)%nat eqn:El; [eauto|].
  apply Nat.ltb_ge in El.
  destruct Hc as [Hc|[[_ Hc]|(l & s & Hc)]]; [lia|lia|].
  exists l, s. rewrite Hc. repeat f_equal. lia.
Qed.

(** A position of the text that holds a whitespace character. *)
Definition at_space (t : text) (k : Z) : Prop :=
  exists c, nth_error t (Z.to_nat k) = Some c /\ isspace c = true.

Definition breaks_at_space (t : text) (span : Z * Z) : Prop :=
  (fst span = 0 \/ at_space t (fst span))
  /\ (snd span = len t \/ at_space t (snd span)).

Lemma ender_break_space (t : text) (i j : nat) (ch : codepoint) :
  (i < List.length t)%nat -> ender_break t i ch = Some j ->
  (j = List.length t \/ at_space t (Z.of_nat j)).
Proof.
  intros Hi H. pose proof (ender_break_bounds t i j ch Hi H) as Hb.
  unfold ender_break in H. destruct (is_ender ch); [|discriminate].
  destruct (nth_error t (skip_closing (List.length t) t (S i))) as [c|] eqn:En.
  - destruct (isspace c) eqn:Es; [|discriminate]. injection H as <-.
    right. exists c. now rewrite Nat2Z.id.
  - injection H as <-. apply nth_error_None in En. left. lia.
Qed.

Lemma sentence_loop_spaces (fuel : nat) (t : text) :
  forall i start out start' out',
    sentence_loop fuel t i start out = (start', out') ->
    (start <= i <= List.length t)%nat ->
    Forall (breaks_at_space t) out ->
    (start = O \/ start = List.length t \/ at_space t (Z.of_nat start)) ->
    Forall (breaks_at_space t) out'
    /\ (start' = O \/ start' = List.length t \/ at_space t (Z.of_nat start')).
Proof.
  induction fuel as [|fuel IH]; intros i start out start' out' Hrun Hi Hout Hst;
    cbn [sentence_loop] in Hrun.
  - injection Hrun as <- <-. auto.
  - destruct (nth_error t i) as [ch|] eqn:En; [|injection Hrun as <- <-; auto].
    assert (Hlt : (i < List.length t)%nat) by (apply nth_error_Some; congruence).
    assert (Hstart : Z.of_nat start = 0 \/ at_space t (Z.of_nat start)).
    { destruct Hst as [->|[->|Hst]]; [now left|lia|now right]. }
    destruct (ender_break t i ch) as [j|] eqn:Eb.
    + pose proof (ender_break_bounds t i j ch Hlt Eb) as Hb.
      pose proof (ender_break_space t i j ch Hlt Eb) as Hj.
      apply (IH _ _ _ _ _ Hrun); [lia| |tauto].
      apply Forall_app. split; [assumption|]. constructor; [|constructor].
      split; simpl; [assumption|].
      destruct Hj as [->|Hj]; [now left|now right].
    + destruct ((ch =? 10)%N && (is_char 10%N (nth_error t (S i))
                                 || is_char 13%N (nth_error t (S i)))) eqn:Eh.
      * apply andb_true_iff in Eh. destruct Eh as [Ech Eh].
        apply N.eqb_eq in Ech. subst ch.
        apply hard_break_next in Eh. destruct Eh as (c & Hc & Hsp).
        assert (S i < List.length t)%nat by (apply nth_error_Some; congruence).
        apply (IH _ _ _ _ _ Hrun); [lia| |].
        -- apply Forall_app. split; [assumption|]. constructor; [|constructor].
           split; simpl; [assumption|].
           right. exists 10%N. rewrite Nat2Z.id. now split.
        -- right. right. exists c. rewrite Nat2Z.id. now split.
      * apply (IH _ _ _ _ _ Hrun); [lia|assumption|assumption].
Qed.

(** X2.  [sentence_boundaries] cuts the text at whitespace only: every
    span starts at 0 or on a whitespace character, and ends at
    [len(text)] or right before a whitespace character. *)
Theorem sentence_boundaries_break_at_whitespace (t : text) :
  Forall (breaks_at_space t) (sentence_boundaries t).
Proof.
  unfold sentence_boundaries.
  destruct (sentence_loop (List.length t) t 0 0 []) as [start out] eqn:E.
  destruct (sentence_loop_spaces _ _ _ _ _ _ _ E) as [Hout Hst];
    [lia|constructor|now left|].
  destruct (start <? List.length t)%nat eqn:El; [|assumption].
  apply Nat.ltb_lt in El.
  apply Forall_app. split; [assumption|]. constructor; [|constructor].
  split; simpl; [|now left].
  destruct Hst as [->|[->|Hst]]; [now left|lia|now right].
Qed.

(** ** Atomic detection *)

Section Atomics.
Context {RE : RegexEngine}.

(** Reading order: by start, and at equal starts the longer hit first. *)
Definition reading_order (a b : ann) : Prop :=
  start a < start b \/ (start a = start b /\ end_ b <= end_ a).

(** X3.  [detect_atomics] returns its hits in reading order: sorted by
    start offset, hits with the same start by decreasing end. *)
Theorem detect_atomics_reading_order (t : text) (rx_index : dict rx_entry) :
  StronglySorted reading_order (detect_atomics t rx_index).
Proof.
  unfold detect_atomics. cbv zeta.
  apply sorted_strongly; unfold atomic_le, pair_le, reading_order; simpl.
  - intros x y. rewrite orb_true_iff, andb_true_iff. lia.
  - intros x y. rewrite orb_false_iff, andb_false_iff. lia.
  - intros; lia.
Qed.

(** A hit that no demote pattern touches: none matches the hit's text
    as a whole, and no match of one in the text overlaps the hit. *)
Definition escapes_demotion (t : text) (demotes : list pattern) (a : ann) : Prop :=
  forall p, In p demotes ->
    fullmatch p (slice t (start a) (end_ a)) = false
    /\ forall ds de, In (ds, de) (finditer p t) -> de <= start a \/ end_ a <= ds.

(** X4.  Every hit of [detect_atomics] is a non-empty match of a detect
    pattern of an index entry with the hit's marker id, and escapes all
    demote patterns of that entry; its family is read off the marker id
    (the part before the first underscore, in upper case) and its score
    is 1. *)
Theorem detect_atomics_honours_demotes (t : text) (rx_index : dict rx_entry) :
  Forall (fun a =>
            exists patterns demotes p,
              In (marker_id a, (patterns, demotes)) rx_index
              /\ In p patterns /\ In (start a, end_ a) (finditer p t)
              /\ start a < end_ a
              /\ family a = family_of (marker_id a) /\ score a = 1%Q
              /\ escapes_demotion t demotes a)
         (detect_atomics t rx_index).
Proof.
  rewrite Forall_forall. intros a Ha.
  apply detect_atomics_spec in Ha. destruct Ha as (ps & ds & p & Hin & Hp & Ha).
  apply pattern_hits_spec in Ha. destruct Ha as (Hm & Hlt & Hd & Hid & Hfam & Hsc).
  exists ps, ds, p. do 4 (split; [assumption|]).
  split; [assumption|]. split; [assumption|].
  intros q Hq. split.
  - destruct (fullmatch q (slice t (start a) (end_ a))) eqn:E; [|reflexivity].
    assert (should_demote_match t (start a) (end_ a) ds = true)
      by (apply SemCoreDetector.should_demote_match_iff; left; eauto).
    congruence.
  - intros s e Hse.
    destruct (Z_le_gt_dec e (start a)) as [?|Hgt]; [now left|].
    destruct (Z_le_gt_dec (end_ a) s) as [?|Hgt']; [now right|].
    assert (should_demote_match t (start a) (end_ a) ds = true).
    { apply SemCoreDetector.should_demote_match_iff. right.
      exists q, s, e. repeat split; auto; lia. }
    congruence.
Qed.

End Atomics.

(** ** Composition *)

Lemma dict_get_set_other {V} (d : dict V) (k k' : string) (v : V) :
  k <> k' -> dict_get (dict_set d k' v) k = dict_get d k.
Proof.
  intros Hne. induction d as [|[k0 v0] d IH]; simpl.
  - destruct (String.eqb k k') eqn:E; [apply String.eqb_eq in E; contradiction|reflexivity].
  - destruct (String.eqb k' k0) eqn:E0; simpl.
    + apply String.eqb_eq in E0. subst k0.
      destruct (String.eqb k k') eqn:E; [apply String.eqb_eq in E; contradiction|reflexivity].
    + now rewrite IH.
Qed.

Lemma zero_counts_get (ids : list string) (k : string) :
  forall d, ~ In k ids -> dict_get d k = None ->
            dict_get (fold_left (fun d k => dict_set d k 0) ids d) k = None.
Proof.
  induction ids as [|i ids IH]; intros d Hk Hd; simpl; [assumption|].
  apply IH; [intros H; apply Hk; now right|].
  rewrite dict_get_set_other; [assumption|]. intros ->. apply Hk. now left.
Qed.

(** Window atomics that are no children of the marker leave the counts
    as they are. *)
Lemma window_counts_no_child (needed_ids : list string) (window_atomics : list ann) :
  Forall (fun x => ~ In (marker_id x) needed_ids) window_atomics ->
  total_children (window_counts needed_ids window_atomics) = 0.
Proof.
  intros Hno. rewrite <- (window_counts_nil needed_ids).
  unfold window_counts. cbv zeta.
  set (counts0 := fold_left (fun d k => dict_set d k 0) needed_ids []).
  assert (Hsame :
    fold_left (fun d atomic =>
                 match dict_get d (marker_id atomic) with
                 | Some n => dict_set d (marker_id atomic) (n + 1)
                 | None => d
                 end) window_atomics counts0 = counts0).
  { induction Hno as [|x l Hx Hl IH]; simpl; [reflexivity|].
    assert (Hx0 : dict_get counts0 (marker_id x) = None)
      by (apply zero_counts_get; auto).
    rewrite Hx0. exact IH. }
  rewrite Hsame. reflexivity.
Qed.

Lemma window_counts_child (needed_ids : list string) (window_atomics : list ann) :
  total_children (window_counts needed_ids window_atomics) <> 0 ->
  exists x, In x window_atomics /\ In (marker_id x) needed_ids.
Proof.
  intros Hne.
  destruct (existsb (fun x => existsb (String.eqb (marker_id x)) needed_ids)
                    window_atomics) eqn:E.
  - apply existsb_exists in E. destruct E as (x & Hx & Hid).
    apply existsb_exists in Hid. destruct Hid as (k & Hk & Hkx).
    apply String.eqb_eq in Hkx. subst k. eauto.
  - exfalso. apply Hne. apply window_counts_no_child.
    rewrite Forall_forall. intros x Hx Hin.
    assert (existsb (fun x => existsb (String.eqb (marker_id x)) needed_ids)
                    window_atomics = true); [|congruence].
    apply existsb_exists. exists x. split; [assumption|].
    apply existsb_exists. exists (marker_id x). split; [assumption|].
    apply String.eqb_refl.
Qed.

Lemma distribute_subset (sentences : list (Z * Z)) (atoms : list ann) (k : nat) (x : ann) :
  In x (nth k (distribute sentences atoms) []) -> In x atoms.
Proof.
  unfold distribute.
  assert (Hinit : forall k, nth k (map (fun _ : Z * Z => @nil ann) sentences) [] = []).
  { clear. intros k. revert k.
    induction sentences as [|se l IH]; intros [|k]; simpl; auto. }
  assert (Hfold : forall atoms ps,
    In x (nth k (fold_left
                   (fun per_sent atomic =>
                      match first_containing sentences 0 (midpoint atomic) with
                      | Some sent_idx => append_at per_sent (Z.to_nat sent_idx) atomic
                      | None => per_sent
                      end) atoms ps) []) ->
    In x (nth k ps []) \/ In x atoms).
  { clear. induction atoms as [|atomic atoms IH]; intros ps H; simpl in *; [now left|].
    apply IH in H. destruct H as [H|H]; [|now right; right].
    destruct (first_containing sentences 0 (midpoint atomic)); [|now left].
    apply append_at_In in H. destruct H as [H|[_ ->]]; auto. }
  intros H. apply Hfold in H. rewrite Hinit in H. destruct H as [[]|H]. exact H.
Qed.

(** The hits of [compose], traced back to the window that produced them. *)
Lemma compose_In (ast_parse : string -> option expr) {P W : Type}
    (t : text) (canon : Canon) (atoms : list ann) (promotion : P) (weights : W)
    (a : ann) :
  In a (compose ast_parse t canon atoms promotion weights) ->
  exists m i0 window_size,
    In m (composed canon)
    /\ compose_window ast_parse t (sentence_boundaries t)
         (distribute (sentence_boundaries t) atoms) m i0 window_size = Some a.
Proof.
  unfold compose. cbv zeta. intros Ha.
  apply in_flat_map in Ha. destruct Ha as (m & Hm & Ha).
  unfold compose_marker in Ha. destruct (composed_of m); [contradiction|].
  apply in_flat_map in Ha. destruct Ha as (i0 & _ & Ha).
  induction (range1 _) as [|ws sizes IH]; simpl in Ha; [contradiction|].
  destruct (compose_window _ _ _ _ _ _ _) as [a'|] eqn:E; [|now apply IH].
  destruct Ha as [<-|[]]. eauto.
Qed.

Lemma compose_window_Some (ast_parse : string -> option expr) (t : text)
    (sentences : list (Z * Z)) (per_sent : list (list ann)) (m : Marker)
    (i0 window_size : Z) (a : ann) :
  compose_window ast_parse t sentences per_sent m i0 window_size = Some a ->
  marker_id a = id m /\ family a = family_of (id m)
  /\ exists k x, In x (index [] per_sent k)
                 /\ In (marker_id x) (map child_marker_id (composed_of m)).
Proof.
  unfold compose_window. cbv zeta.
  set (iR := Z.min (len sentences - 1) (i0 + window_size - 1)).
  set (window_atomics := flat_map (fun k => index [] per_sent k) (range_incl i0 iR)).
  destruct (total_children (window_counts _ window_atomics) =? 0) eqn:Et;
    [discriminate|].
  destruct (eval_activation _ _ _); [|discriminate].
  destruct (apply_span_policy _ _ _ _ _) as [final_start final_end].
  intros H. injection H as <-. simpl. do 2 (split; [reflexivity|]).
  apply Z.eqb_neq in Et. apply window_counts_child in Et.
  destruct Et as (x & Hx & Hid). unfold window_atomics in Hx.
  apply in_flat_map in Hx. destruct Hx as (k & _ & Hx). eauto.
Qed.

Section Composition.
Variable ast_parse : string -> option expr.

(** X5.  Every composed hit is backed by a child hit: it carries the id
    of a composed marker of the canon and the family read off that id,
    and among the atomic hits handed to [compose] there is one whose
    marker is a child of that marker.  In particular [compose] returns
    nothing when it is given no atomic hits. *)
Theorem compose_needs_child_hit {P W : Type} (t : text) (canon : Canon)
    (atoms : list ann) (promotion : P) (weights : W) :
  Forall (fun a =>
            exists m x,
              In m (composed canon) /\ marker_id a = id m
              /\ family a = family_of (id m)
              /\ In x atoms
              /\ In (marker_id x) (map child_marker_id (composed_of m)))
         (compose ast_parse t canon atoms promotion weights)
  /\ compose ast_parse t canon [] promotion weights = [].
Proof.
  assert (Hall : forall atoms,
    Forall (fun a =>
              exists m x,
                In m (composed canon) /\ marker_id a = id m
                /\ family a = family_of (id m)
                /\ In x atoms
                /\ In (marker_id x) (map child_marker_id (composed_of m)))
           (compose ast_parse t canon atoms promotion weights)).
  { intros ats. rewrite Forall_forall. intros a Ha.
    apply compose_In in Ha. destruct Ha as (m & i0 & ws & Hm & Ha).
    apply compose_window_Some in Ha. destruct Ha as (Hid & Hfam & k & x & Hx & Hc).
    exists m, x. repeat split; try assumption.
    unfold index in Hx. now apply distribute_subset in Hx. }
  split; [apply Hall|].
  specialize (Hall []).
  destruct (compose ast_parse t canon [] promotion weights) as [|a l]; [reflexivity|].
  inversion Hall as [|? ? (m & x & _ & _ & _ & [] & _) _].
Qed.

Lemma flat_map_length_le {A B : Type} (f : A -> list B) (n : nat) (l : list A) :
  (forall x, (List.length (f x) <= n)%nat) ->
  (List.length (flat_map f l) <= List.length l * n)%nat.
Proof.
  intros Hf. induction l as [|x l IH]; simpl; [lia|].
  rewrite length_app. specialize (Hf x). lia.
Qed.

(** [compose] emits at most one hit per composed marker and starting
    sentence: the number of composed hits is at most the number of
    composed markers times the number of sentence spans. *)
Remark compose_hit_count {P W : Type} (t : text) (canon : Canon)
    (atoms : list ann) (promotion : P) (weights : W) :
  (List.length (compose ast_parse t canon atoms promotion weights)
   <= List.length (composed canon) * List.length (sentence_boundaries t))%nat.
Proof.
  unfold compose. cbv zeta. apply flat_map_length_le. intros m.
  unfold compose_marker. destruct (composed_of m); [simpl; lia|].
  set (sentences := sentence_boundaries t).
  replace (List.length sentences) with (List.length (range (len sentences)) * 1)%nat.
  - apply flat_map_length_le. intros i0.
    induction (range1 _) as [|ws sizes IH]; simpl; [lia|].
    destruct (compose_window _ _ _ _ _ _ _); [simpl; lia|exact IH].
  - unfold range, len. rewrite length_map, length_seq. lia.
Qed.

End Composition.

(** ** The pipeline *)

Section Pipeline.
Context {RE : RegexEngine}.
Variable ast_parse : string -> option expr.

(** In the output of [analyze_text] the family of every annotation is
    read off its marker id: the part of the id before the first
    underscore, in upper case. *)
Remark analyze_text_family {P W : Type} (t : text) (resources : bundle P W) :
  Forall (fun a => family a = family_of (marker_id a))
         (annotations (analyze_text ast_parse t resources)).
Proof.
  unfold analyze_text. cbv zeta. simpl annotations.
  rewrite Forall_forall. intros a Ha.
  apply resolve_overlaps_subset in Ha. apply in_app_or in Ha.
  destruct Ha as [Ha|Ha].
  - apply detect_atomics_spec in Ha. destruct Ha as (ps & ds & p & _ & _ & Ha).
    apply pattern_hits_spec in Ha. now destruct Ha as (_ & _ & _ & _ & -> & _).
  - apply compose_In in Ha. destruct Ha as (m & i0 & ws & _ & Ha).
    apply compose_window_Some in Ha. destruct Ha as (-> & -> & _). reflexivity.
Qed.

End Pipeline.

(** ** The overlap resolver *)

(** [a] ends before [b] starts. *)
Definition before (a b : ann) : Prop := end_ a <= start b.

Definition nonempty (a : ann) : Prop := start a < end_ a.

(** Three hits for the examples below: two atomic hits and a composed
    hit that overlaps the first of them. *)
Definition example_hits : list ann :=
  [ {| marker_id := "ATO_A"; family := "ATO"; start := 0; end_ := 5; score := 1 |};
    {| marker_id := "ATO_B"; family := "ATO"; start := 9; end_ := 12; score := 1 |};
    {| marker_id := "SEM_AB"; family := "SEM"; start := 3; end_ := 9; score := 1 # 2 |} ].

Lemma before_snoc (kept : list ann) (c : ann) :
  StronglySorted before kept -> Forall (fun k => before k c) kept ->
  StronglySorted before (kept ++ [c]).
Proof.
  induction kept as [|e rest IH]; simpl; intros Hs Hc.
  - repeat constructor.
  - inversion Hs; subst. inversion Hc; subst.
    constructor; [now apply IH|].
    apply Forall_app. split; [assumption|]. now constructor.
Qed.

(** A candidate that starts at or after a kept hit and does not overlap
    it comes after it. *)
Lemma not_overlapping_before (c e : ann) :
  nonempty c -> start e <= start c -> overlaps c e = false -> before e c.
Proof.
  unfold nonempty, before. intros Hc Hs Ho. apply overlaps_false in Ho.
  unfold disjoint in Ho. lia.
Qed.

Lemma scan_kept_before (c : ann) (kept kept' : list ann) :
  nonempty c ->
  StronglySorted before kept ->
  Forall (fun k => start k <= start c) kept ->
  scan_kept c kept = Some kept' ->
  StronglySorted before kept'.
Proof.
  intros Hc. revert kept'.
  induction kept as [|e rest IH]; intros kept' Hs Hle Hscan; simpl in Hscan;
    [discriminate|].
  inversion Hs as [|? ? Hs' Hall]; subst.
  inversion Hle as [|? ? He Hle']; subst.
  destruct (overlaps c e) eqn:Eo.
  - (* no kept hit can follow [e]: it would start after [c] does *)
    assert (Hrest : rest = []).
    { destruct rest as [|r rest']; [reflexivity|exfalso].
      inversion Hall as [|? ? Her _]; subst. inversion Hle' as [|? ? Hr _]; subst.
      apply overlaps_true in Eo. unfold before in Her. lia. }
    subst rest.
    destruct (current_wins c e); injection Hscan as <-; repeat constructor.
  - destruct (scan_kept c rest) as [k''|] eqn:Er; [|discriminate].
    injection Hscan as <-.
    constructor; [now apply IH|].
    rewrite Forall_forall in *. intros x Hx.
    destruct (scan_kept_select c rest k'' Er) as [Hin _].
    destruct (Hin x Hx) as [Hx'| ->]; [now apply Hall|].
    now apply not_overlapping_before.
Qed.

Lemma scan_kept_None_before (c : ann) (kept : list ann) :
  nonempty c ->
  Forall (fun k => start k <= start c) kept ->
  scan_kept c kept = None ->
  Forall (fun k => before k c) kept.
Proof.
  intros Hc. induction kept as [|e rest IH]; simpl; intros Hle H; [constructor|].
  inversion Hle; subst.
  destruct (overlaps c e) eqn:Eo.
  - destruct (current_wins c e); discriminate.
  - destruct (scan_kept c rest); [discriminate|].
    constructor; [now apply not_overlapping_before|now apply IH].
Qed.

Lemma fold_resolve_before (l kept : list ann) :
  StronglySorted (fun a b => start a <= start b) l ->
  Forall nonempty l ->
  StronglySorted before kept ->
  Forall (fun k => Forall (fun c => start k <= start c) l) kept ->
  StronglySorted before (fold_left resolve_step l kept).
Proof.
  revert kept. induction l as [|c l IH]; intros kept Hsort Hne Hs Hle; simpl;
    [assumption|].
  inversion Hsort as [|? ? Hsort' Hc]; subst.
  inversion Hne as [|? ? Hcne Hne']; subst.
  assert (Hkc : Forall (fun k => start k <= start c) kept).
  { eapply Forall_impl; [|exact Hle]. intros k Hk. now inversion Hk. }
  apply IH; [assumption|assumption| |].
  - unfold resolve_step. destruct (scan_kept c kept) as [k'|] eqn:E.
    + now apply (scan_kept_before c kept).
    + apply before_snoc; [assumption|now apply scan_kept_None_before].
  - rewrite Forall_forall. intros x Hx.
    destruct (resolve_step_select kept c) as [Hin _].
    destruct (Hin x Hx) as [Hx'| ->]; [|assumption].
    rewrite Forall_forall in Hle. specialize (Hle x Hx'). now inversion Hle.
Qed.

Lemma resolve_overlaps_before {W : Type} (anns : list ann) (weights : W) :
  Forall nonempty anns ->
  StronglySorted before (resolve_overlaps anns weights)
  /\ Forall nonempty (resolve_overlaps anns weights).
Proof.
  intros Hne. split.
  - unfold resolve_overlaps.
    apply fold_resolve_before; [apply position_sorted| |constructor|constructor].
    rewrite Forall_forall in *. intros a Ha. apply Hne. now apply sorted_In in Ha.
  - rewrite Forall_forall in *. intros a Ha. apply Hne.
    now apply resolve_overlaps_subset in Ha.
Qed.

(** X6.  When every input hit is non-empty ([start < end]),
    [resolve_overlaps] returns its hits in reading order: each hit ends
    at or before the start of every hit after it. *)
Theorem resolve_overlaps_reading_order {W : Type} (anns : list ann) (weights : W) :
  Forall nonempty anns ->
  StronglySorted before (resolve_overlaps anns weights).
Proof. intros Hne. now apply resolve_overlaps_before. Qed.

Lemma resolve_overlaps_reading_order_witness :
  Forall nonempty example_hits
  /\ map marker_id (resolve_overlaps example_hits tt) = ["SEM_AB"; "ATO_B"]
  /\ StronglySorted before (resolve_overlaps example_hits tt).
Proof.
  assert (H : Forall nonempty example_hits) by (repeat constructor).
  split; [exact H|]. split; [reflexivity|].
  exact (resolve_overlaps_reading_order example_hits tt H).
Defined.

(** A list that is sorted for the order test is left as it is. *)
Lemma sorted_fixpoint {A : Type} (le : A -> A -> bool) (l : list A) :
  StronglySorted (fun a b => le a b = true) l -> sorted le l = l.
Proof.
  induction 1 as [|x l Hs IH Hall]; simpl; [reflexivity|].
  rewrite IH. destruct l as [|y l']; simpl; [reflexivity|].
  inversion Hall as [|? ? Hxy _]; subst. now rewrite Hxy.
Qed.

Lemma fold_resolve_fixpoint (l kept : list ann) :
  StronglySorted before (kept ++ l) -> Forall nonempty l ->
  fold_left resolve_step l kept = kept ++ l.
Proof.
  revert kept. induction l as [|c l IH]; intros kept Hs Hne; simpl.
  - now rewrite app_nil_r.
  - inversion Hne as [|? ? Hc Hne']; subst.
    assert (Hnone : scan_kept c kept = None).
    { clear IH Hne Hne'. induction kept as [|e rest IHk]; simpl; [reflexivity|].
      simpl in Hs. inversion Hs as [|? ? Hs' Hall]; subst.
      assert (He : before e c).
      { rewrite Forall_forall in Hall. apply Hall. apply in_or_app. right. now left. }
      assert (Eo : overlaps c e = false).
      { apply overlaps_false. unfold disjoint, before in *. lia. }
      rewrite Eo, (IHk Hs'). reflexivity. }
    unfold resolve_step. rewrite Hnone.
    rewrite IH; [now rewrite <- app_assoc| |assumption].
    now rewrite <- app_assoc.
Qed.

(** X7.  On hits that are all non-empty, [resolve_overlaps] is
    idempotent: resolving its own output changes nothing. *)
Theorem resolve_overlaps_idempotent {W W' : Type} (anns : list ann)
    (weights : W) (weights' : W') :
  Forall nonempty anns ->
  resolve_overlaps (resolve_overlaps anns weights) weights'
  = resolve_overlaps anns weights.
Proof.
  intros Hne.
  destruct (resolve_overlaps_before anns weights Hne) as [Hs Hout].
  unfold resolve_overlaps at 1.
  rewrite sorted_fixpoint.
  - now apply (fold_resolve_fixpoint _ []).
  - clear Hne. induction Hs as [|x l Hs IH Hall]; [constructor|].
    inversion Hout as [|? ? Hx Hout']; subst.
    constructor; [now apply IH|].
    eapply Forall_impl; [|exact Hall]. intros y Hxy.
    unfold position_le, pair_le, position_key, before, nonempty in *. simpl.
    apply orb_true_iff. left. apply Z.ltb_lt. lia.
Qed.

Lemma resolve_overlaps_idempotent_witness :
  Forall nonempty example_hits
  /\ resolve_overlaps (resolve_overlaps example_hits tt) tt
     = resolve_overlaps example_hits tt.
Proof.
  assert (H : Forall nonempty example_hits) by (repeat constructor).
  split; [exact H|]. exact (resolve_overlaps_idempotent example_hits tt tt H).
Defined.

Lemma overlaps_sym (c e : ann) : overlaps c e = overlaps e c.
Proof.
  destruct (overlaps c e) eqn:E1; destruct (overlaps e c) eqn:E2; try reflexivity;
    rewrite ?overlaps_true, ?overlaps_false in *; unfold disjoint in *; lia.
Qed.

(** A kept hit survives a scan by a candidate that does not overlap it. *)
Lemma scan_kept_keeps (x c : ann) (kept kept' : list ann) :
  scan_kept x kept = Some kept' -> In c kept ->
  (overlaps x c = true -> x = c) -> In c kept'.
Proof.
  revert kept'. induction kept as [|e rest IH]; intros kept' H Hin Hx; simpl in H;
    [discriminate|].
  destruct (overlaps x e) eqn:Eo.
  - destruct (current_wins x e); injection H as <-; [|exact Hin].
    destruct Hin as [->|Hin]; [left; now apply Hx|now right].
  - destruct (scan_kept x rest) as [k''|]; [|discriminate]. injection H as <-.
    destruct Hin as [->|Hin]; [now left|right; now apply IH].
Qed.

(** A candidate that overlaps no other kept hit enters the list. *)
Lemma scan_kept_self (c : ann) (kept kept' : list ann) :
  scan_kept c kept = Some kept' ->
  (forall e, In e kept -> overlaps c e = true -> e = c) -> In c kept'.
Proof.
  revert kept'. induction kept as [|e rest IH]; intros kept' H Hall; simpl in H;
    [discriminate|].
  destruct (overlaps c e) eqn:Eo.
  - destruct (current_wins c e); injection H as <-; [now left|].
    left. apply Hall; [now left|assumption].
  - destruct (scan_kept c rest) as [k''|]; [|discriminate]. injection H as <-.
    right. apply IH; [reflexivity|]. intros e' He'. apply Hall. now right.
Qed.

Lemma fold_resolve_keeps (c : ann) (l kept : list ann) :
  (forall x, In x kept \/ In x l -> overlaps x c = true -> x = c) ->
  In c kept \/ In c l ->
  In c (fold_left resolve_step l kept).
Proof.
  revert kept. induction l as [|x l IH]; intros kept Hiso Hin; simpl.
  - destruct Hin as [?|[]]. assumption.
  - apply IH.
    + intros y [Hy|Hy]; [|apply Hiso; right; now right].
      destruct (resolve_step_select kept x) as [Hsel _].
      destruct (Hsel y Hy) as [?| ->]; apply Hiso; [now left|right; now left].
    + destruct Hin as [Hin|[->|Hin]]; [| |now right]; left; unfold resolve_step.
      * destruct (scan_kept x kept) as [k'|] eqn:E.
        -- apply (scan_kept_keeps x c kept k' E Hin).
           apply Hiso. right. now left.
        -- apply in_or_app. now left.
      * destruct (scan_kept c kept) as [k'|] eqn:E.
        -- apply (scan_kept_self c kept k' E).
           intros e He Ho. apply Hiso; [now left|]. now rewrite overlaps_sym.
        -- apply in_or_app. right. now left.
Qed.

(** X8.  [resolve_overlaps] never drops a hit that overlaps no other
    input hit: such a hit is in the output. *)
Theorem resolve_overlaps_keeps_isolated {W : Type} (anns : list ann) (weights : W)
    (c : ann) :
  In c anns ->
  (forall x, In x anns -> overlaps x c = true -> x = c) ->
  In c (resolve_overlaps anns weights).
Proof.
  intros Hin Hiso. unfold resolve_overlaps. apply fold_resolve_keeps.
  - intros x [[]|Hx]. apply Hiso. now apply sorted_In in Hx.
  - right. now apply sorted_In.
Qed.

Lemma resolve_overlaps_keeps_isolated_witness :
  let c := {| marker_id := "ATO_B"; family := "ATO"; start := 9; end_ := 12;
              score := 1 |} in
  In c example_hits /\ In c (resolve_overlaps example_hits tt).
Proof.
  intros c.
  assert (Hin : In c example_hits) by (right; left; reflexivity).
  split; [exact Hin|].
  apply (resolve_overlaps_keeps_isolated example_hits tt c Hin).
  intros x [<-|[<-|[<-|[]]]]; vm_compute; intros H;
    try discriminate H; reflexivity.
Defined.

(** ** The activation evaluator *)

Lemma eval_BoolOp_None (op : boolop) (values : list expr) (env : dict value) :
  (exists v, In v values /\ _eval v env = None) ->
  _eval (BoolOp op values) env = None.
Proof.
  intros (v & Hin & Hv). cbn [_eval].
  match goal with
  | |- match ?vals with _ => _ end = None => assert (Hvals : vals = None)
  end.
  { induction values as [|x xs IH]; [contradiction|].
    destruct Hin as [->|Hin].
    - now rewrite Hv.
    - destruct (_eval x env); [|reflexivity]. now rewrite IH. }
  now rewrite Hvals.
Qed.

(** X9.  [and] and [or] do not short-circuit in [eval_activation]: when
    the formula is a boolean operation and one operand raises (an
    unsupported node, say), the formula is false, whatever the other
    operands are. *)
Theorem eval_activation_no_short_circuit (ast_parse : string -> option expr)
    (src : string) (env : dict value) (op : boolop) (values : list expr) :
  src <> "" ->
  ast_parse (normalize_operators src) = Some (BoolOp op values) ->
  (exists v, In v values /\ _eval v env = None) ->
  eval_activation ast_parse (Some src) env = false.
Proof.
  intros Hsrc Hp Hv. unfold eval_activation.
  destruct (String.eqb src "") eqn:E; [apply String.eqb_eq in E; contradiction|].
  now rewrite Hp, (eval_BoolOp_None op values env Hv).
Qed.

(** [True or f()]: Python answers [True]; the call is an unsupported
    node. *)
Lemma eval_activation_no_short_circuit_witness :
  let ast_parse := fun src : string =>
    if String.eqb src "True or f()"
    then Some (BoolOp Or [Constant (VBool true); OtherNode]) else None in
  eval_activation ast_parse (Some "True or f()") [] = false.
Proof.
  intros ast_parse.
  apply (eval_activation_no_short_circuit ast_parse "True or f()" [] Or
           [Constant (VBool true); OtherNode]).
  - discriminate.
  - reflexivity.
  - exists OtherNode. split; [right; left; reflexivity|reflexivity].
Defined.

(** ** Span policies *)

(** The loop in closed form.  Even steps go right while there is a
    sentence on the right, and left otherwise; odd steps go left, and
    are lost when there is no sentence on the left. *)
Lemma sentence_union_loop_exact (need : nat) :
  forall step N iL iR,
    0 <= iL -> iR <= N - 1 -> 0 <= step ->
    sentence_union_loop need step N iL iR
    = let n := Z.of_nat need in
      let room := N - 1 - iR in
      if step mod 2 =? 0
      then (Z.max 0 (iL - (n / 2 + Z.max 0 ((n + 1) / 2 - room))),
            Z.min (N - 1) (iR + (n + 1) / 2))
      else (Z.max 0 (iL - ((n + 1) / 2 + Z.max 0 (n / 2 - room))),
            Z.min (N - 1) (iR + n / 2)).
Proof.
  induction need as [|need IH]; intros step N iL iR HL HR Hstep.
  - cbn [sentence_union_loop]. cbv zeta. change (Z.of_nat 0) with 0.
    change (0 / 2) with 0. change ((0 + 1) / 2) with 0.
    destruct (step mod 2 =? 0); f_equal; lia.
  - cbn [sentence_union_loop]. cbv zeta.
    assert (Hn : Z.of_nat (S need) = Z.of_nat need + 1) by lia.
    rewrite Hn. set (n := Z.of_nat need) in *.
    assert (Hn0 : 0 <= n) by (unfold n; lia).
    assert (Hpar : (step + 1) mod 2 = 1 - step mod 2)
      by (Z.div_mod_to_equations; lia).
    assert (H1 : (n + 1 + 1) / 2 = n / 2 + 1) by (Z.div_mod_to_equations; lia).
    assert (H2 : n / 2 <= (n + 1) / 2 <= n / 2 + 1) by (Z.div_mod_to_equations; lia).
    assert (H3 : n / 2 + (n + 1) / 2 = n) by (Z.div_mod_to_equations; lia).
    assert (H4 : 0 <= n / 2) by (Z.div_mod_to_equations; lia).
    destruct (step mod 2 =? 0) eqn:Ep.
    + apply Z.eqb_eq in Ep.
      destruct (iR <? N - 1) eqn:ER.
      * apply Z.ltb_lt in ER. rewrite orb_true_r. cbn [andb].
        rewrite (IH (step + 1) N iL (iR + 1)) by lia. cbv zeta.
        rewrite Hpar, Ep. change (1 - 0 =? 0) with false. cbv iota.
        rewrite H1. f_equal; lia.
      * apply Z.ltb_ge in ER. rewrite orb_false_r. cbn [andb].
        destruct (iL >? 0) eqn:EL.
        -- rewrite (IH (step + 1) N (iL - 1) iR) by lia. cbv zeta.
           rewrite Hpar, Ep. change (1 - 0 =? 0) with false. cbv iota.
           rewrite H1. f_equal; lia.
        -- assert (iL = 0) by lia. subst iL. f_equal; lia.
    + apply Z.eqb_neq in Ep.
      assert (Ep1 : step mod 2 = 1) by (Z.div_mod_to_equations; lia).
      cbn [andb].
      destruct (iL >? 0) eqn:EL.
      * cbn [orb]. rewrite (IH (step + 1) N (iL - 1) iR) by lia. cbv zeta.
        rewrite Hpar, Ep1. change (1 - 1 =? 0) with true. cbv iota.
        rewrite H1. f_equal; lia.
      * assert (iL = 0) by lia. subst iL. cbn [orb].
        destruct (iR <? N - 1) eqn:ER.
        -- rewrite (IH (step + 1) N 0 iR) by lia. cbv zeta.
           rewrite Hpar, Ep1. change (1 - 1 =? 0) with true. cbv iota.
           rewrite H1. f_equal; lia.
        -- apply Z.ltb_ge in ER. f_equal; lia.
Qed.

(** X10.  [sentence_union] widens a window of sentences by the [n]
    sentences it lacks to reach [max(1, max_sent)], alternately and
    right first: the span it returns runs from the start of sentence
    [iL'] to the end of sentence [iR'], where [iR'] is [iR] plus
    [ceil(n / 2)], cut at the last sentence, and [iL'] is [iL] minus
    [floor(n / 2)] and minus the steps the right had no sentence for,
    cut at the first sentence.  So the window is never narrowed, stays
    inside the sentence list, has at most [max(1, max_sent)] sentences
    unless it was wider before, and grows whenever a sentence is lacking
    and there is one on either side. *)
Theorem sentence_union_window (sentences : list (Z * Z)) (iL iR max_sent : Z) :
  0 <= iL -> iL <= iR -> iR < len sentences ->
  let n := Z.max 0 (Z.max 1 max_sent - (iR - iL + 1)) in
  let iR' := Z.min (len sentences - 1) (iR + (n + 1) / 2) in
  let iL' := Z.max 0 (iL - (n / 2 + Z.max 0 ((n + 1) / 2 - (len sentences - 1 - iR)))) in
  sentence_union sentences iL iR max_sent
  = (fst (index (0, 0) sentences iL'), snd (index (0, 0) sentences iR'))
  /\ 0 <= iL' <= iL /\ iR <= iR' < len sentences
  /\ iR' - iL' + 1 <= Z.max (iR - iL + 1) (Z.max 1 max_sent)
  /\ (0 < n -> 0 < iL \/ iR < len sentences - 1 -> iR - iL < iR' - iL').
Proof.
  intros HL HLR HR n iR' iL'. unfold sentence_union. cbv zeta.
  rewrite (sentence_union_loop_exact _ 0 (len sentences) iL iR) by lia.
  cbv zeta. change (0 mod 2 =? 0) with true. cbv iota.
  assert (Hn : Z.of_nat (Z.to_nat (Z.max 1 max_sent - (iR - iL + 1))) = n)
    by (unfold n; lia).
  rewrite Hn. fold iR'. fold iL'.
  split; [reflexivity|].
  assert (Hn0 : 0 <= n) by (unfold n; lia).
  assert (H2 : n / 2 <= (n + 1) / 2 <= n / 2 + 1) by (Z.div_mod_to_equations; lia).
  assert (H3 : n / 2 + (n + 1) / 2 = n) by (Z.div_mod_to_equations; lia).
  assert (H4 : 0 <= n / 2) by (Z.div_mod_to_equations; lia).
  assert (H5 : 0 < n -> 0 < (n + 1) / 2) by (Z.div_mod_to_equations; lia).
  unfold iR', iL'. repeat split; lia.
Qed.

Lemma sentence_union_window_witness :
  let sentences := [(0, 4); (4, 9); (9, 15); (15, 20)] in
  sentence_union sentences 1 1 2 = (4, 15)
  /\ sentence_union sentences 1 1 2
     = (fst (index (0, 0) sentences 1), snd (index (0, 0) sentences 2)).
Proof.
  intros sentences. split; [vm_compute; reflexivity|].
  exact (proj1 (sentence_union_window sentences 1 1 2
                  ltac:(lia) ltac:(lia) ltac:(vm_compute; reflexivity))).
Defined.

Lemma last_index_of_spec (c : codepoint) (t : text) :
  match last_index_of c t with
  | Some k => nth_error t k = Some c
              /\ forall j, (k < j)%nat -> nth_error t j <> Some c
  | None => forall j, nth_error t j <> Some c
  end.
Proof.
  induction t as [|x t IH]; simpl.
  - intros [|j]; discriminate.
  - destruct (last_index_of c t) as [k|].
    + destruct IH as [Hk Hlast]. split; [exact Hk|].
      intros [|j] Hj; [lia|]. simpl. apply Hlast. lia.
    + destruct (x =? c)%N eqn:E.
      * apply N.eqb_eq in E. subst x. split; [reflexivity|].
        intros [|j] Hj; [lia|]. simpl. apply IH.
      * apply N.eqb_neq in E. intros [|j]; simpl; [congruence|apply IH].
Qed.

Lemma first_index_of_spec (c : codepoint) (t : text) :
  match first_index_of c t with
  | Some k => nth_error t k = Some c
              /\ forall j, (j < k)%nat -> nth_error t j <> Some c
  | None => forall j, nth_error t j <> Some c
  end.
Proof.
  induction t as [|x t IH]; simpl.
  - intros [|j]; discriminate.
  - destruct (x =? c)%N eqn:E.
    + apply N.eqb_eq in E. subst x. split; [reflexivity|]. intros j Hj. lia.
    + apply N.eqb_neq in E. destruct (first_index_of c t) as [k|].
      * destruct IH as [Hk Hfirst]. split; [exact Hk|].
        intros [|j] Hj; simpl; [congruence|]. apply Hfirst. lia.
      * intros [|j]; simpl; [congruence|apply IH].
Qed.

(** The character at offset [k]. *)
Definition char_at (t : text) (k : Z) : option codepoint :=
  if k <? 0 then None else nth_error t (Z.to_nat k).

Lemma rfind_spec (t : text) (c : codepoint) (stop : Z) :
  0 <= stop ->
  (rfind t c stop = -1 /\ forall k, 0 <= k < stop -> char_at t k <> Some c)
  \/ (0 <= rfind t c stop < stop /\ char_at t (rfind t c stop) = Some c
      /\ forall k, rfind t c stop < k < stop -> char_at t k <> Some c).
Proof.
  intros Hstop. unfold rfind, char_at.
  pose proof (last_index_of_spec c (firstn (Z.to_nat stop) t)) as H.
  assert (Hnth : forall j, (j < Z.to_nat stop)%nat ->
                           nth_error (firstn (Z.to_nat stop) t) j = nth_error t j).
  { intros j Hj. rewrite nth_error_firstn.
    apply Nat.ltb_lt in Hj. now rewrite Hj. }
  destruct (last_index_of c (firstn (Z.to_nat stop) t)) as [k|] eqn:E.
  - right. destruct H as [Hk Hlast].
    assert (Hlt : (k < Z.to_nat stop)%nat).
    { apply last_index_of_lt in E. rewrite length_firstn in E. lia. }
    split; [lia|]. split.
    + destruct (Z.of_nat k <? 0) eqn:En; [apply Z.ltb_lt in En; lia|].
      rewrite Nat2Z.id, <- Hnth by assumption. exact Hk.
    + intros j Hj. destruct (j <? 0) eqn:En; [discriminate|].
      rewrite <- Hnth by lia. apply Hlast. lia.
  - left. split; [reflexivity|]. intros j Hj.
    destruct (j <? 0) eqn:En; [discriminate|].
    rewrite <- Hnth by lia. apply H.
Qed.

Lemma find_spec (t : text) (c : codepoint) (from : Z) :
  0 <= from ->
  (find t c from = -1 /\ forall k, from <= k -> char_at t k <> Some c)
  \/ (from <= find t c from /\ char_at t (find t c from) = Some c
      /\ forall k, from <= k < find t c from -> char_at t k <> Some c).
Proof.
  intros Hfrom. unfold find, char_at.
  pose proof (first_index_of_spec c (skipn (Z.to_nat from) t)) as H.
  assert (Hnth : forall j, nth_error (skipn (Z.to_nat from) t) j
                           = nth_error t (Z.to_nat from + j)).
  { intros j. apply nth_error_skipn. }
  destruct (first_index_of c (skipn (Z.to_nat from) t)) as [k|] eqn:E.
  - right. destruct H as [Hk Hfirst]. split; [lia|]. split.
    + destruct (from + Z.of_nat k <? 0) eqn:En; [apply Z.ltb_lt in En; lia|].
      replace (Z.to_nat (from + Z.of_nat k)) with (Z.to_nat from + k)%nat by lia.
      rewrite <- Hnth. exact Hk.
    + intros j Hj. destruct (j <? 0) eqn:En; [discriminate|].
      replace (Z.to_nat j) with (Z.to_nat from + Z.to_nat (j - from))%nat by lia.
      rewrite <- Hnth. apply Hfirst. lia.
  - left. split; [reflexivity|]. intros j Hj.
    destruct (j <? 0) eqn:En; [discriminate|].
    replace (Z.to_nat j) with (Z.to_nat from + Z.to_nat (j - from))%nat by lia.
    rewrite <- Hnth. apply H.
Qed.

(** No comma and no semicolon at offset [k]. *)
Definition no_delimiter (t : text) (k : Z) : Prop :=
  char_at t k <> Some COMMA /\ char_at t k <> Some SEMICOLON.

Definition delimiter_at (t : text) (k : Z) : Prop :=
  char_at t k = Some COMMA \/ char_at t k = Some SEMICOLON.

(** X11.  [clause_union] widens a span up to the nearest comma or
    semicolon on either side and never across one: the new span
    contains the old one, no character between the new and the old
    bounds is a delimiter, the new start is right after a delimiter
    unless there is none before the span (then the start stays), and
    the new end is at a delimiter unless there is none from the old end
    on (then the end stays). *)
Theorem clause_union_nearest_delimiters (t : text) (s e : Z) :
  0 <= s -> s <= e -> e <= len t ->
  let s' := fst (clause_union t s e) in
  let e' := snd (clause_union t s e) in
  0 <= s' <= s /\ e <= e' <= len t
  /\ (forall k, s' <= k < s \/ e <= k < e' -> no_delimiter t k)
  /\ (delimiter_at t (s' - 1) \/ (s' = s /\ forall k, 0 <= k < s -> no_delimiter t k))
  /\ (delimiter_at t e' \/ (e' = e /\ forall k, e <= k -> no_delimiter t k)).
Proof.
  intros Hs Hse He. unfold clause_union. cbv zeta. cbn [fst snd].
  assert (Hchar : forall k c, char_at t k = Some c -> 0 <= k < len t).
  { intros k c. unfold char_at, len. destruct (k <? 0) eqn:E; [discriminate|].
    intros H. assert (Z.to_nat k < List.length t)%nat
      by (apply nth_error_Some; congruence). lia. }
  pose proof (rfind_spec t COMMA s Hs) as Hlc.
  pose proof (rfind_spec t SEMICOLON s Hs) as Hls.
  pose proof (find_spec t COMMA e ltac:(lia)) as Hrc.
  pose proof (find_spec t SEMICOLON e ltac:(lia)) as Hrs.
  set (lc := rfind t COMMA s) in *. set (ls := rfind t SEMICOLON s) in *.
  set (rc := find t COMMA e) in *. set (rs := find t SEMICOLON e) in *.
  set (s' := Z.max 0 (if Z.max lc ls >=? 0 then Z.max lc ls + 1 else s)).
  assert (HL : 0 <= s' <= s
               /\ (forall k, s' <= k < s -> no_delimiter t k)
               /\ (delimiter_at t (s' - 1)
                   \/ (s' = s /\ forall k, 0 <= k < s -> no_delimiter t k))).
  { unfold s', no_delimiter, delimiter_at. clear Hrc Hrs.
    destruct (Z.max lc ls >=? 0) eqn:Eb;
      [apply Z.geb_le in Eb|rewrite Z.geb_leb in Eb; apply Z.leb_gt in Eb].
    - destruct Hlc as [[Hlc Hlc']|(Hlc & Hlc1 & Hlc2)];
        destruct Hls as [[Hls Hls']|(Hls & Hls1 & Hls2)]; try lia.
      all: split; [lia|]. all: split.
      all: try (intros k Hk; split; [apply Hlc' || apply Hlc2|apply Hls' || apply Hls2]; lia).
      all: left.
      all: destruct (Z.max_spec lc ls) as [[? Hm]|[? Hm]]; rewrite Hm;
        replace (Z.max 0 (ls + 1) - 1) with ls by lia;
        replace (Z.max 0 (lc + 1) - 1) with lc by lia; auto; lia.
    - destruct Hlc as [[Hlc Hlc']|(Hlc & Hlc1 & Hlc2)]; [|lia].
      destruct Hls as [[Hls Hls']|(Hls & Hls1 & Hls2)]; [|lia].
      split; [lia|]. split; [intros k Hk; lia|].
      right. split; [lia|]. intros k Hk. split; [now apply Hlc'|now apply Hls']. }
  set (e' := Z.min (len t)
               match filter (fun x : Z => negb (x =? -1)) [rc; rs] with
               | [] => e
               | x :: xs => fold_left Z.min xs x
               end).
  assert (HR : e <= e' <= len t
               /\ (forall k, e <= k < e' -> no_delimiter t k)
               /\ (delimiter_at t e'
                   \/ (e' = e /\ forall k, e <= k -> no_delimiter t k))).
  { unfold e', no_delimiter, delimiter_at. clear HL Hlc Hls. cbn [filter].
    destruct Hrc as [[Hrc Hrc']|(Hrc & Hrc1 & Hrc2)];
      destruct Hrs as [[Hrs Hrs']|(Hrs & Hrs1 & Hrs2)];
      try (pose proof (Hchar _ _ Hrc1)); try (pose proof (Hchar _ _ Hrs1)).
    all: destruct (rc =? -1) eqn:Ec;
      [apply Z.eqb_eq in Ec|apply Z.eqb_neq in Ec]; try lia.
    all: destruct (rs =? -1) eqn:Es;
      [apply Z.eqb_eq in Es|apply Z.eqb_neq in Es]; try lia.
    all: cbn [negb fold_left].
    all: split; [lia|]. all: split.
    all: try (intros k Hk; split; [apply Hrc' || apply Hrc2|apply Hrs' || apply Hrs2]; lia).
    - right. split; [lia|]. intros k Hk. split; [now apply Hrc'|now apply Hrs'].
    - left. right. now replace (Z.min (len t) rs) with rs by lia.
    - left. left. now replace (Z.min (len t) rc) with rc by lia.
    - left. destruct (Z.min_spec rc rs) as [[? Hm]|[? Hm]]; rewrite Hm.
      + left. now replace (Z.min (len t) rc) with rc by lia.
      + right. now replace (Z.min (len t) rs) with rs by lia. }
  destruct HL as (HL1 & HL2 & HL3). destruct HR as (HR1 & HR2 & HR3).
  split; [lia|]. split; [lia|].
  split; [intros k [Hk|Hk]; [now apply HL2|now apply HR2]|].
  split; assumption.
Qed.

(** "a, b c; d" with the span of "b": the clause between the comma and
    the semicolon. *)
Lemma clause_union_nearest_delimiters_witness :
  let t := of_string "a, b c; d" in
  clause_union t 3 4 = (2, 6)
  /\ let s' := fst (clause_union t 3 4) in
     let e' := snd (clause_union t 3 4) in
     0 <= s' <= 3 /\ 4 <= e' <= len t
     /\ (forall k, s' <= k < 3 \/ 4 <= k < e' -> no_delimiter t k)
     /\ (delimiter_at t (s' - 1)
         \/ (s' = 3 /\ forall k, 0 <= k < 3 -> no_delimiter t k))
     /\ (delimiter_at t e' \/ (e' = 4 /\ forall k, 4 <= k -> no_delimiter t k)).
Proof.
  intros t. split; [reflexivity|].
  apply (clause_union_nearest_delimiters t 3 4); vm_compute; congruence.
Defined.

End SemCoreProperties.

(* ================================================================== *)
(** * Further properties of ld35_engine.py                              *)
(* ================================================================== *)

Module LD35Properties.
Import LD35Engine LD35Facts.

(** ** Scores *)

Lemma Qmax_lower (x y : Q) : (x <= Qmax x y)%Q /\ (y <= Qmax x y)%Q.
Proof.
  unfold Qmax. destruct (Qle_bool x y) eqn:E.
  - apply Qle_bool_iff in E. split; [assumption|apply Qle_refl].
  - split; [apply Qle_refl|].
    apply Qlt_le_weak, Qnot_le_lt. intros H. apply Qle_bool_iff in H. congruence.
Qed.

Lemma Qmax_upper (x y z : Q) : (x <= z)%Q -> (y <= z)%Q -> (Qmax x y <= z)%Q.
Proof. unfold Qmax. now destruct (Qle_bool x y). Qed.

Lemma Qmin_upper (x y : Q) : (Qmin x y <= x)%Q.
Proof.
  unfold Qmin. destruct (Qle_bool x y) eqn:E; [apply Qle_refl|].
  apply Qlt_le_weak, Qnot_le_lt. intros H. apply Qle_bool_iff in H. congruence.
Qed.

(** The base score of a marker lies between 0.3 and 1, whatever the
    marker declares. *)
Lemma get_marker_score_range (marker_data : Marker) (base : Q) :
  _get_marker_score marker_data = Ok base -> (3 # 10 <= base <= 1)%Q.
Proof.
  unfold _get_marker_score.
  destruct (floats (score_candidates_of marker_data)) as [[|c cs]|]; [| |discriminate].
  - intros [= <-]. split; unfold Qle; simpl; lia.
  - cbv zeta. intros [= <-]. split; [apply Qmax_lower|].
    apply Qmax_upper; [unfold Qle; simpl; lia|].
    destruct (Qgtb (Qmax_list c cs) 1) eqn:E; [apply Qmin_upper|].
    unfold Qgtb in E. apply negb_false_iff in E. now apply Qle_bool_iff.
Qed.

Lemma literal_score_range (sc : Q) :
  (3 # 10 <= sc <= 1)%Q -> (4 # 10 <= Qmax (4 # 10) (sc - (1 # 10)) <= 1)%Q.
Proof.
  intros [Hlo Hhi]. split; [apply Qmax_lower|].
  apply Qmax_upper; [unfold Qle; simpl; lia|].
  apply Qle_trans with (y := (sc - 0)%Q).
  - apply Qplus_le_compat; [apply Qle_refl|]. unfold Qle; simpl; lia.
  - unfold Qminus. now rewrite Qplus_0_r.
Qed.

Section Engine.
Context {RE : RegexEngine}.

Lemma atomic_score_range (self : LD35Model) (t : text) :
  Forall (fun a => (3 # 10 <= score a <= 1)%Q)
         (fst (_pattern_based_detection self t)).
Proof.
  rewrite Forall_forall. intros a Ha.
  apply pattern_based_detection_scores in Ha.
  destruct Ha as (md & base & _ & Hb & [-> | ->]).
  - exact (get_marker_score_range md base Hb).
  - destruct (literal_score_range _ (get_marker_score_range md base Hb)) as [Hlo Hhi].
    split; [|exact Hhi].
    apply Qle_trans with (y := (4 # 10)%Q); [unfold Qle; simpl; lia|exact Hlo].
Qed.

(** X12.  Every atomic hit of [_pattern_based_detection] has a score
    between 0.3 and 1: declared scores of any size are normalised into
    that range, and the literal fallback stays inside it.  (A marker
    whose declared score [float] cannot convert has no hit.) *)
Theorem pattern_based_detection_score_range (self : LD35Model) (t : text) :
  Forall (fun a => (3 # 10 <= score a <= 1)%Q)
         (fst (_pattern_based_detection self t)).
Proof. apply atomic_score_range. Qed.

(** X13.  [process_with_llm_fallback] returns scores between 0.3 and
    0.8: it lowers every score by 0.2 and raises the result to 0.3. *)
Theorem llm_fallback_score_range (self : LD35Model) (t : text) :
  Forall (fun a => (3 # 10 <= score a <= 8 # 10)%Q)
         (LD35Service.process_with_llm_fallback self t).
Proof.
  unfold LD35Service.process_with_llm_fallback.
  pose proof (atomic_score_range self t) as H.
  destruct (_pattern_based_detection self t) as [anns mm]. simpl in H.
  rewrite Forall_forall in *. intros a Ha.
  apply in_map_iff in Ha. destruct Ha as (b & <- & Hb). simpl.
  destruct (H b Hb) as [Hlo Hhi]. split; [apply Qmax_lower|].
  apply Qmax_upper; [unfold Qle; simpl; lia|].
  apply Qle_trans with (y := (1 - (2 # 10))%Q).
  - apply Qplus_le_compat; [exact Hhi|apply Qle_refl].
  - unfold Qle; simpl; lia.
Qed.

(** ** The running state of atomic detection *)

(** The spans of the hits of one marker, in the order of the hits. *)
Definition spans_of (marker_id : string) (anns : list Annotation) : list (Z * Z) :=
  map span (filter (fun a => String.eqb (marker a) marker_id) anns).

(** A non-empty span inside the text. *)
Definition in_text (t : text) (a : Annotation) : Prop :=
  0 <= start a /\ start a < end_ a /\ end_ a <= len t.

(** What every state of the detection loop satisfies. *)
Record state_ok (t : text) (st : detection_state) : Prop := mkStateOk {
  ok_keys : st_seen_keys st = map key (st_annotations st);
  ok_nodup : NoDup (st_seen_keys st);
  ok_spans : Forall (in_text t) (st_annotations st);
  ok_matches :
    forall m, dict_get (st_marker_matches st) m
              = match spans_of m (st_annotations st) with
                | [] => None
                | l => Some l
                end
}.

Lemma spans_of_snoc (m : string) (anns : list Annotation) (a : Annotation) :
  spans_of m (anns ++ [a])
  = spans_of m anns ++ (if String.eqb (marker a) m then [span a] else []).
Proof.
  unfold spans_of. rewrite filter_app, map_app. simpl.
  now destruct (String.eqb (marker a) m).
Qed.

Lemma record_match_ok (t : text) (marker_id marker_type lbl : string) (sc : Q)
    (st : detection_state) (s e : Z) :
  0 <= s -> s <= e -> e <= len t ->
  state_ok t st ->
  state_ok t (record_match marker_id marker_type lbl sc st (s, e)).
Proof.
  intros Hs Hse He [Hk Hn Hsp Hm]. unfold record_match.
  destruct (s =? e) eqn:Ese; [now constructor|]. apply Z.eqb_neq in Ese.
  destruct (key_seen (s, e, marker_id) (st_seen_keys st)) eqn:Eseen;
    [now constructor|].
  assert (Hnew : ~ In (s, e, marker_id) (st_seen_keys st)).
  { intros Hin. apply key_seen_iff in Hin. congruence. }
  constructor; simpl.
  - rewrite map_app, Hk. reflexivity.
  - apply NoDup_app; [assumption|repeat constructor; intros []|].
    intros x Hx [<-|[]]. contradiction.
  - apply Forall_app. split; [assumption|]. constructor; [unfold in_text; simpl; lia|constructor].
  - intros m. rewrite spans_of_snoc. simpl. unfold matches_append.
    destruct (String.eqb marker_id m) eqn:Em.
    + apply String.eqb_eq in Em. subst m. rewrite (Hm marker_id).
      destruct (spans_of marker_id (st_annotations st)) as [|x l];
        rewrite SemCorePipeline.dict_get_set_same; reflexivity.
    + assert (Hne : m <> marker_id).
      { intros ->. rewrite String.eqb_refl in Em. discriminate. }
      rewrite app_nil_r, <- (Hm m).
      destruct (dict_get (st_marker_matches st) marker_id);
        now apply SemCoreProperties.dict_get_set_other.
Qed.

Lemma scan_pattern_ok (t : text) (marker_id marker_type lbl : string) (sc : Q)
    (st : detection_state) (compiled : option pattern) :
  state_ok t st ->
  state_ok t (scan_pattern t marker_id marker_type lbl sc st compiled).
Proof.
  unfold scan_pattern. destruct compiled as [p|]; [|auto].
  assert (Hspans : forall s e, In (s, e) (finditer p t) -> 0 <= s /\ s <= e /\ e <= len t)
    by (intros s e; apply finditer_span).
  revert st Hspans. induction (finditer p t) as [|[s e] l IH]; intros st Hspans Hst;
    simpl; [assumption|].
  apply IH; [intros; apply Hspans; now right|].
  destruct (Hspans s e (or_introl eq_refl)) as (? & ? & ?).
  now apply record_match_ok.
Qed.

Lemma scan_regex_specs_ok (t : text) (marker_id marker_type lbl : string) (sc : Q)
    (regex_specs : list (string * Z)) :
  forall st,
    state_ok t st ->
    state_ok t (fst (scan_regex_specs t marker_id marker_type lbl sc regex_specs st)).
Proof.
  induction regex_specs as [|[pat fl] rest IH]; intros st Hst; simpl; [assumption|].
  destruct (re_compile pat fl) as [compiled|]; [|now apply IH].
  destruct (flags_rejected fl); [assumption|].
  apply IH.
  exact (scan_pattern_ok t marker_id marker_type lbl sc st (Some compiled) Hst).
Qed.

Lemma detect_marker_ok (self : LD35Model) (t : text) (st : detection_state)
    (item : string * Marker) :
  state_ok t st -> state_ok t (detect_marker self t st item).
Proof.
  intros Hst. destruct item as [marker_id marker_data]. unfold detect_marker.
  destruct (_collect_marker_signals self marker_id marker_data) as [specs terms].
  assert (Hboth :
    state_ok t
      match _get_marker_score marker_data with
      | Ok sc =>
          let '(st1, raised) :=
            scan_regex_specs t marker_id (_get_marker_type_from_id marker_id)
              (_get_marker_label marker_data marker_id) sc specs st in
          if raised then st1
          else fold_left (fun st term =>
                            scan_pattern t marker_id (_get_marker_type_from_id marker_id)
                              (_get_marker_label marker_data marker_id)
                              (Qmax (4 # 10) (sc - (1 # 10))) st
                              (re_compile (literal_source term) IGNORECASE)) terms st1
      | Raised => st
      end).
  { destruct (_get_marker_score marker_data) as [sc|]; [|assumption].
    pose proof (scan_regex_specs_ok t marker_id (_get_marker_type_from_id marker_id)
                  (_get_marker_label marker_data marker_id) sc specs st Hst) as H1.
    destruct (scan_regex_specs t marker_id (_get_marker_type_from_id marker_id)
                (_get_marker_label marker_data marker_id) sc specs st) as [st1 raised].
    simpl in H1. destruct raised; [assumption|].
    revert H1. generalize st1. clear.
    induction terms as [|term terms IH]; intros st0 H0; simpl; [assumption|].
    apply IH. now apply scan_pattern_ok. }
  destruct specs as [|sp specs]; [destruct terms as [|tm terms]; [assumption|]|];
    exact Hboth.
Qed.

Lemma pattern_based_detection_ok (self : LD35Model) (t : text) :
  exists st, _pattern_based_detection self t = (st_annotations st, st_marker_matches st)
             /\ state_ok t st.
Proof.
  assert (H0 : state_ok t (mkState [] [] [])).
  { constructor; simpl; try constructor; reflexivity. }
  unfold _pattern_based_detection.
  destruct (markers_index self) as [|it its] eqn:Ei.
  - exists (mkState [] [] []). split; [reflexivity|exact H0].
  - rewrite <- Ei. eexists. split; [reflexivity|].
    generalize (sorted (fun a b => family_order (fst a) <=? family_order (fst b))
                       (markers_index self)).
    intros items. revert H0. generalize (mkState [] [] []).
    induction items as [|item items IH]; intros st Hst; simpl; [assumption|].
    apply IH. now apply detect_marker_ok.
Qed.

(** X14.  The atomic hits of [_pattern_based_detection] are non-empty
    spans inside the text, and no two of them share the key
    [(start, end, marker)]. *)
Theorem pattern_based_detection_hits (self : LD35Model) (t : text) :
  Forall (in_text t) (fst (_pattern_based_detection self t))
  /\ NoDup (map key (fst (_pattern_based_detection self t))).
Proof.
  destruct (pattern_based_detection_ok self t) as (st & -> & [Hk Hn Hsp _]).
  simpl. split; [assumption|]. now rewrite <- Hk.
Qed.

(** X15.  The match table that [_pattern_based_detection] hands to the
    composer agrees with the hits it returns: under each marker id it
    holds the spans of that marker's hits, in the order of the hits, and
    a marker without a hit has no entry. *)
Theorem pattern_based_detection_matches (self : LD35Model) (t : text) (m : string) :
  dict_get (snd (_pattern_based_detection self t)) m
  = match spans_of m (fst (_pattern_based_detection self t)) with
    | [] => None
    | l => Some l
    end.
Proof.
  destruct (pattern_based_detection_ok self t) as (st & -> & [_ _ _ Hm]).
  simpl. apply Hm.
Qed.

End Engine.

(** The two ways a marker is given up, on scenario 1: with the flag
    [L], which [re.compile] refuses for a [str] pattern, and with a
    declared score that [float] cannot convert, [ATO_HELLO] has no hit
    in "say Hello world". *)
Remark abandoned_marker_has_no_hit :
  fst (_pattern_based_detection (RE := Fixture.fixture_engine)
         (Scenarios.ld35_model
            [Scenarios.atomic_marker "ATO_HELLO" "\bhello\b" "L" [] None] None [])
         Scenarios.say_hello) = []
  /\ fst (_pattern_based_detection (RE := Fixture.fixture_engine)
            (Scenarios.ld35_model
               [Scenarios.atomic_marker "ATO_HELLO" "\bhello\b" "i" []
                  (Some (mkScoring (Some (inject_Z (10 ^ 400))) None None))] None [])
            Scenarios.say_hello) = []
  /\ List.length
       (fst (_pattern_based_detection (RE := Fixture.fixture_engine)
               (Scenarios.ld35_model [Scenarios.ATO_HELLO] None [])
               Scenarios.say_hello)) = 1%nat.
Proof. repeat split; vm_compute; reflexivity. Qed.

(** ** Sentences *)

(** Non-empty spans in increasing order inside [[lo, hi]], none
    starting before the previous one ends. *)
Fixpoint separated (lo : Z) (l : list (Z * Z)) (hi : Z) : Prop :=
  match l with
  | [] => lo <= hi
  | (s, e) :: l' => lo <= s /\ s < e /\ separated e l' hi
  end.

Lemma separated_weaken (lo lo' : Z) (l : list (Z * Z)) (hi : Z) :
  lo' <= lo -> separated lo l hi -> separated lo' l hi.
Proof. destruct l as [|[s e] l]; simpl; intros; [lia|]. intuition lia. Qed.

Lemma separated_last (l : list (Z * Z)) :
  forall lo hi, separated lo l hi -> l <> [] ->
                separated lo l (snd (last l (0, 0))) /\ snd (last l (0, 0)) <= hi.
Proof.
  induction l as [|[s e] l IH]; intros lo hi H Hne; [contradiction|].
  destruct H as (Hlo & Hse & H). destruct l as [|x l'].
  - simpl in *. lia.
  - destruct (IH e hi H ltac:(discriminate)) as [H1 H2].
    split; [|exact H2]. change (last ((s, e) :: x :: l') (0, 0)) with (last (x :: l') (0, 0)).
    simpl. auto.
Qed.

Lemma separated_snoc (l : list (Z * Z)) :
  forall lo q e, separated lo l q -> q < e -> separated lo (l ++ [(q, e)]) e.
Proof.
  induction l as [|[s e'] l IH]; simpl; intros lo q e H Hlt.
  - lia.
  - destruct H as (? & ? & H). auto.
Qed.

Definition mode_start (m : scan_mode) (pos : Z) : Z :=
  match m with
  | Idle => pos
  | Body s | Puncts s | Newlines s => s
  end.

Definition mode_ok (m : scan_mode) (pos : Z) : Prop :=
  match m with
  | Idle => True
  | Body s | Puncts s | Newlines s => s < pos
  end.

Lemma sentence_matches_separated (rest : text) :
  forall m pos, mode_ok m pos ->
    separated (mode_start m pos) (sentence_matches m rest pos) (pos + len rest).
Proof.
  induction rest as [|c rest IH]; intros m pos Hm.
  - unfold len. destruct m; simpl in *; lia.
  - assert (Hlen : pos + len (c :: rest) = pos + 1 + len rest)
      by (unfold len; simpl List.length; lia).
    rewrite Hlen.
    assert (Hrestart : separated pos
              (sentence_matches (if is_punct c || is_newline c then Idle else Body pos)
                                rest (pos + 1)) (pos + 1 + len rest)).
    { destruct (is_punct c || is_newline c).
      - apply (separated_weaken (pos + 1)); [lia|]. now apply (IH Idle).
      - apply (IH (Body pos)). simpl. lia. }
    destruct m as [|s|s|s]; cbn [sentence_matches mode_start]; simpl in Hm.
    + exact Hrestart.
    + destruct (is_punct c); [|destruct (is_newline c)].
      * apply (IH (Puncts s)). simpl. lia.
      * apply (IH (Newlines s)). simpl. lia.
      * apply (IH (Body s)). simpl. lia.
    + destruct (is_punct c).
      * apply (IH (Puncts s)). simpl. lia.
      * simpl. repeat split; [lia|lia|exact Hrestart].
    + destruct (is_newline c).
      * apply (IH (Newlines s)). simpl. lia.
      * simpl. repeat split; [lia|lia|exact Hrestart].
Qed.

(** X16.  [_get_sentences] always returns a span that ends at
    [len(text)]; for a non-empty text its spans are non-empty, lie in
    the text in increasing order, and none starts before the previous
    one ends.  The empty text gives the one span [(0, 0)]. *)
Theorem get_sentences_cover (t : text) :
  (exists l s, _get_sentences t = l ++ [(s, len t)])
  /\ match t with
     | [] => _get_sentences t = [(0, 0)]
     | _ :: _ => separated 0 (_get_sentences t) (len t)
     end.
Proof.
  pose proof (sentence_matches_separated t Idle 0 I) as H.
  simpl mode_start in H. rewrite Z.add_0_l in H.
  assert (Hcases :
    (exists l s, _get_sentences t = l ++ [(s, len t)])
    /\ (t <> [] -> separated 0 (_get_sentences t) (len t))).
  { unfold _get_sentences. cbv zeta.
    destruct (sentence_matches Idle t 0) as [|x l] eqn:E.
    - split; [exists [], 0; reflexivity|].
      intros Hne. simpl. unfold len. destruct t; [contradiction|simpl; lia].
    - rewrite <- E in *.
      assert (Hne : sentence_matches Idle t 0 <> []) by (rewrite E; discriminate).
      destruct (separated_last _ _ _ H Hne) as [Hs Hle].
      destruct (snd (last (sentence_matches Idle t 0) (0, 0)) <? len t) eqn:El.
      + apply Z.ltb_lt in El. split; [eauto|].
        intros _. now apply separated_snoc.
      + apply Z.ltb_ge in El.
        assert (Hlast : snd (last (sentence_matches Idle t 0) (0, 0)) = len t) by lia.
        split; [|intros _; exact H].
        destruct (exists_last Hne) as (l' & [s e] & Hl).
        rewrite Hl in Hlast |- *. rewrite last_last in Hlast. simpl in Hlast.
        subst e. eauto. }
  destruct Hcases as [H1 H2]. split; [exact H1|].
  destruct t as [|c t']; [reflexivity|]. apply H2. discriminate.
Qed.

(** ** Post-processing *)

Lemma same_key_iff (a b : Annotation) : same_key a b = true <-> key a = key b.
Proof.
  unfold same_key, key. rewrite !andb_true_iff, !Z.eqb_eq, String.eqb_eq.
  split; [intros [[-> ->] ->]; reflexivity|intros [= -> -> ->]; auto].
Qed.

Lemma same_key_seen (a : Annotation) (unique : list Annotation) :
  existsb (same_key a) unique = true <-> In (key a) (map key unique).
Proof.
  rewrite existsb_exists, in_map_iff. split.
  - intros (b & Hb & Hk). apply same_key_iff in Hk. eauto.
  - intros (b & Hk & Hb). exists b. split; [assumption|]. now apply same_key_iff.
Qed.

Definition dedupe_step (unique : list Annotation) (a : Annotation) : list Annotation :=
  if existsb (same_key a) unique then unique else unique ++ [a].

Lemma dedupe_fold (l : list Annotation) :
  forall acc,
    NoDup (map key acc) ->
    NoDup (map key (fold_left dedupe_step l acc))
    /\ incl (fold_left dedupe_step l acc) (acc ++ l)
    /\ incl (map key (acc ++ l)) (map key (fold_left dedupe_step l acc)).
Proof.
  induction l as [|a l IH]; intros acc Hn; simpl.
  - rewrite app_nil_r. repeat split; [assumption|apply incl_refl|apply incl_refl].
  - unfold dedupe_step at 2 4 6.
    destruct (existsb (same_key a) acc) eqn:E.
    + destruct (IH acc Hn) as (H1 & H2 & H3). split; [assumption|]. split.
      * intros x Hx. apply H2 in Hx. apply in_or_app.
        apply in_app_or in Hx. destruct Hx; [now left|right; now right].
      * intros k Hk. rewrite map_app in Hk. apply in_app_or in Hk.
        apply H3. rewrite map_app. apply in_or_app.
        destruct Hk as [Hk|[<-|Hk]]; [now left| |now right].
        left. now apply same_key_seen.
    + assert (Hn' : NoDup (map key (acc ++ [a]))).
      { rewrite map_app. apply NoDup_app; [assumption|repeat constructor; intros []|].
        intros x Hx [<-|[]]. apply same_key_seen in Hx. congruence. }
      destruct (IH (acc ++ [a]) Hn') as (H1 & H2 & H3).
      rewrite <- app_assoc in H2, H3. simpl in H2, H3. auto.
Qed.

Lemma dedupe_fixpoint (l : list Annotation) :
  forall acc, NoDup (map key (acc ++ l)) -> fold_left dedupe_step l acc = acc ++ l.
Proof.
  induction l as [|a l IH]; intros acc Hn; simpl; [now rewrite app_nil_r|].
  unfold dedupe_step at 2.
  destruct (existsb (same_key a) acc) eqn:E.
  - exfalso. apply same_key_seen in E.
    rewrite map_app in Hn. simpl in Hn. apply NoDup_remove_2 in Hn.
    apply Hn. apply in_or_app. now left.
  - rewrite IH; rewrite <- app_assoc; [reflexivity|exact Hn].
Qed.

Lemma remove_duplicates_incl (annotations : list Annotation) :
  incl (remove_duplicate_annotations annotations) annotations.
Proof. exact (proj1 (proj2 (dedupe_fold annotations [] (NoDup_nil _)))). Qed.

(** X17.  [remove_duplicate_annotations] returns annotations of its
    input with pairwise different keys [(start, end, marker)], loses no
    key of the input, and is idempotent. *)
Theorem remove_duplicate_annotations_spec (annotations : list Annotation) :
  NoDup (map key (remove_duplicate_annotations annotations))
  /\ incl (remove_duplicate_annotations annotations) annotations
  /\ incl (map key annotations) (map key (remove_duplicate_annotations annotations))
  /\ remove_duplicate_annotations (remove_duplicate_annotations annotations)
     = remove_duplicate_annotations annotations.
Proof.
  change remove_duplicate_annotations with (fun l => fold_left dedupe_step l []).
  cbv beta.
  destruct (dedupe_fold annotations [] (NoDup_nil _)) as (H1 & H2 & H3).
  repeat split; try assumption.
  now apply (dedupe_fixpoint _ []).
Qed.

(** The test of [resolve_overlapping_annotations] is symmetric. *)
Lemma overlapping_sym (a b : Annotation) : overlapping a b = overlapping b a.
Proof. unfold overlapping. now rewrite Z.max_comm, Z.min_comm. Qed.

Definition apart (a b : Annotation) : Prop := overlapping a b = false.

Definition keep_step (acc : list Annotation) (a : Annotation) : list Annotation :=
  if existsb (overlapping a) acc then acc else acc ++ [a].

Lemma apart_snoc (acc : list Annotation) (a : Annotation) :
  ForallOrdPairs apart acc -> Forall (fun k => apart k a) acc ->
  ForallOrdPairs apart (acc ++ [a]).
Proof.
  induction acc as [|e rest IH]; simpl; intros Hp Ha.
  - constructor; constructor.
  - inversion Hp; subst. inversion Ha; subst.
    constructor; [|now apply IH].
    apply Forall_app. split; [assumption|]. now constructor.
Qed.

Lemma keep_fold_apart (l : list Annotation) :
  forall acc, ForallOrdPairs apart acc ->
              ForallOrdPairs apart (fold_left keep_step l acc).
Proof.
  induction l as [|a l IH]; intros acc Hp; simpl; [assumption|].
  apply IH. unfold keep_step.
  destruct (existsb (overlapping a) acc) eqn:E; [assumption|].
  apply apart_snoc; [assumption|].
  rewrite Forall_forall. intros k Hk. unfold apart. rewrite overlapping_sym.
  destruct (overlapping a k) eqn:Eo; [|reflexivity].
  assert (existsb (overlapping a) acc = true)
    by (apply existsb_exists; eauto). congruence.
Qed.

Lemma keep_fold_prefix (l : list Annotation) :
  forall acc, incl acc (fold_left keep_step l acc).
Proof.
  induction l as [|a l IH]; intros acc; simpl; [apply incl_refl|].
  intros x Hx. apply IH. unfold keep_step.
  destruct (existsb (overlapping a) acc); [assumption|]. apply in_or_app. now left.
Qed.

(** Sorting keeps a symmetric relation that holds between all pairs. *)
Lemma sorted_pairs {A : Type} (le : A -> A -> bool) (R : A -> A -> Prop) (l : list A) :
  (forall x y, R x y -> R y x) ->
  ForallOrdPairs R l -> ForallOrdPairs R (sorted le l).
Proof.
  intros Hsym.
  assert (Hins : forall x l, Forall (R x) l -> ForallOrdPairs R l ->
                             ForallOrdPairs R (insert_sorted le x l)).
  { clear l. intros x l. induction l as [|y l IH]; simpl; intros Hx Hp.
    - constructor; constructor.
    - inversion Hx; subst. inversion Hp; subst.
      destruct (le x y); [now constructor|].
      constructor; [|now apply IH].
      rewrite Forall_forall in *. intros z Hz.
      apply (Permutation_in _ (Permutation_sym (insert_sorted_perm le x l))) in Hz.
      destruct Hz as [<-|Hz]; auto. }
  induction l as [|x l IH]; simpl; intros Hp; [constructor|].
  inversion Hp; subst. apply Hins; [|now apply IH].
  rewrite Forall_forall in *. intros z Hz. apply sorted_In in Hz. auto.
Qed.

Lemma resolve_overlapping_sorted_apart (annotations : list Annotation) :
  StronglySorted (fun a b => start a <= start b)
                 (resolve_overlapping_annotations annotations)
  /\ ForallOrdPairs apart (resolve_overlapping_annotations annotations).
Proof.
  unfold resolve_overlapping_annotations. cbv zeta. split.
  - apply sorted_strongly.
    + intros x y H. now apply Z.leb_le.
    + intros x y H. apply Z.leb_gt in H. lia.
    + intros; lia.
  - apply sorted_pairs.
    + intros x y. unfold apart. now rewrite overlapping_sym.
    + apply (keep_fold_apart _ []). constructor.
Qed.

(** X18.  The annotations that [resolve_overlapping_annotations]
    returns are sorted by start offset, and no two of them overlap under
    the function's own test [max(starts) < min(ends)]. *)
Theorem resolve_overlapping_annotations_apart (annotations : list Annotation) :
  StronglySorted (fun a b => start a <= start b)
                 (resolve_overlapping_annotations annotations)
  /\ ForallOrdPairs apart (resolve_overlapping_annotations annotations).
Proof. apply resolve_overlapping_sorted_apart. Qed.

(** X19.  [resolve_overlapping_annotations] never loses the best hit:
    when the input is not empty, the output holds an annotation whose
    score no input annotation exceeds. *)
Theorem resolve_overlapping_annotations_keeps_best (annotations : list Annotation) :
  match annotations with
  | [] => resolve_overlapping_annotations annotations = []
  | _ :: _ =>
      exists a, In a (resolve_overlapping_annotations annotations)
                /\ Forall (fun b => (score b <= score a)%Q) annotations
  end.
Proof.
  destruct annotations as [|x0 l0] eqn:El; [reflexivity|]. rewrite <- El.
  assert (Hne : annotations <> []) by (rewrite El; discriminate). clear El x0 l0.
  unfold resolve_overlapping_annotations. cbv zeta.
  assert (Hs : StronglySorted (fun a b => (score b <= score a)%Q)
                              (sorted priority_ge annotations)).
  { apply sorted_strongly.
    - intros x y H. unfold priority_ge in H. apply orb_true_iff in H.
      destruct H as [H|H].
      + unfold Qgtb in H. apply negb_true_iff in H.
        apply Qlt_le_weak, Qnot_le_lt. intros Hle. apply Qle_bool_iff in Hle. congruence.
      + apply andb_true_iff in H. destruct H as [H _]. unfold Qeqb in H.
        apply Qeq_bool_iff in H. rewrite H. apply Qle_refl.
    - intros x y H. unfold priority_ge in H. apply orb_false_iff in H.
      destruct H as [H _]. unfold Qgtb in H. apply negb_false_iff in H.
      now apply Qle_bool_iff.
    - intros x y z Hxy Hyz. eapply Qle_trans; eassumption. }
  destruct (sorted priority_ge annotations) as [|a rest] eqn:Es.
  - exfalso. apply Hne. apply length_zero_iff_nil.
    rewrite <- (sorted_length priority_ge), Es. reflexivity.
  - exists a. split.
    + apply sorted_In. simpl. apply keep_fold_prefix. now left.
    + inversion Hs as [|? ? _ Hall]; subst.
      rewrite Forall_forall in *. intros b Hb.
      apply (sorted_In priority_ge) in Hb. rewrite Es in Hb.
      destruct Hb as [<-|Hb]; [apply Qle_refl|now apply Hall].
Qed.

(** ** Loading the markers *)

Definition has_id (k : string) (m : Marker) : bool := String.eqb (id m) k.

Definition load_step (st : list Marker * list string) (entry : Marker)
    : list Marker * list string :=
  let '(markers, seen) := st in
  if negb (String.eqb (id entry) "") && negb (existsb (String.eqb (id entry)) seen)
  then (markers ++ [entry], seen ++ [id entry])
  else (markers, seen).

Lemma fold_left_concat {A B : Type} (f : A -> B -> A) (ls : list (list B)) :
  forall a, fold_left (fun a l => fold_left f l a) ls a = fold_left f (List.concat ls) a.
Proof.
  induction ls as [|l ls IH]; intros a; simpl; [reflexivity|].
  now rewrite fold_left_app, IH.
Qed.

Lemma fold_left_pointwise {A B : Type} (f g : A -> B -> A) (l : list B) :
  (forall a b, f a b = g a b) -> forall a, fold_left f l a = fold_left g l a.
Proof.
  intros H. induction l as [|b l IH]; intros a; simpl; [reflexivity|].
  now rewrite H, IH.
Qed.

Lemma load_markers_concat (files : list (list Marker)) :
  _load_markers_canonical files = fst (fold_left load_step (List.concat files) ([], [])).
Proof.
  unfold _load_markers_canonical. f_equal.
  rewrite <- (fold_left_concat load_step).
  apply fold_left_pointwise. intros st iterable.
  apply fold_left_pointwise. now intros [markers seen] entry.
Qed.

Lemma find_app {A : Type} (f : A -> bool) (l l' : list A) :
  find f (l ++ l') = match find f l with Some x => Some x | None => find f l' end.
Proof.
  induction l as [|x l IH]; simpl; [reflexivity|]. now destruct (f x).
Qed.

Lemma seen_iff (k : string) (seen : list string) :
  existsb (String.eqb k) seen = true <-> In k seen.
Proof.
  rewrite existsb_exists. split.
  - intros (x & Hx & E). apply String.eqb_eq in E. now subst.
  - intros H. exists k. split; [assumption|apply String.eqb_refl].
Qed.

Lemma find_has_id_Some (k : string) (ms : list Marker) :
  In k (map id ms) -> find (has_id k) ms <> None.
Proof.
  induction ms as [|m ms IH]; simpl; [contradiction|].
  unfold has_id at 1. intros [->|H]; [now rewrite String.eqb_refl|].
  destruct (String.eqb (id m) k); [discriminate|now apply IH].
Qed.

(** The state of the merge after the entries [done] have been read. *)
Record load_ok (done : list Marker) (st : list Marker * list string) : Prop := mkLoadOk {
  load_seen : snd st = map id (fst st);
  load_nodup : NoDup (snd st);
  load_ids : ~ In "" (snd st);
  load_first : forall k, k <> "" -> find (has_id k) (fst st) = find (has_id k) done
}.

Lemma load_step_ok (done : list Marker) (st : list Marker * list string) (e : Marker) :
  load_ok done st -> load_ok (done ++ [e]) (load_step st e).
Proof.
  destruct st as [ms seen]. intros [Hseen Hn Hid Hfirst]. simpl in *. subst seen.
  unfold load_step.
  destruct (String.eqb (id e) "") eqn:Ee; simpl.
  - apply String.eqb_eq in Ee. constructor; simpl; auto.
    intros k Hk. rewrite find_app, <- Hfirst by assumption. simpl.
    change (has_id k e) with (String.eqb (id e) k). rewrite Ee.
    destruct (String.eqb "" k) eqn:E; [apply String.eqb_eq in E; congruence|].
    now destruct (find (has_id k) ms).
  - apply String.eqb_neq in Ee.
    destruct (existsb (String.eqb (id e)) (map id ms)) eqn:Es; simpl.
    + apply seen_iff in Es. constructor; simpl; auto.
      intros k Hk. rewrite find_app, <- Hfirst by assumption. simpl.
      change (has_id k e) with (String.eqb (id e) k).
      destruct (String.eqb (id e) k) eqn:E; [|now destruct (find (has_id k) ms)].
      apply String.eqb_eq in E. subst k.
      apply find_has_id_Some in Es. now destruct (find (has_id (id e)) ms).
    + assert (Hnew : ~ In (id e) (map id ms)).
      { intros H. apply seen_iff in H. congruence. }
      constructor; simpl.
      * now rewrite map_app.
      * apply NoDup_app; [assumption|repeat constructor; intros []|].
        intros x Hx [<-|[]]. contradiction.
      * intros H. apply in_app_or in H. destruct H as [H|[H|[]]]; auto.
      * intros k Hk. rewrite !find_app, Hfirst by assumption. reflexivity.
Qed.

Lemma load_fold_ok (l : list Marker) :
  forall done st, load_ok done st -> load_ok (done ++ l) (fold_left load_step l st).
Proof.
  induction l as [|e l IH]; intros done st H; simpl.
  - now rewrite app_nil_r.
  - replace (done ++ e :: l) with ((done ++ [e]) ++ l) by now rewrite <- app_assoc.
    apply IH. now apply load_step_ok.
Qed.

Definition index_step (index : dict Marker) (entry : Marker) : dict Marker :=
  if String.eqb (id entry) "" then index else dict_set index (id entry) entry.

Lemma dict_set_fresh {V} (d : dict V) (k : string) (v : V) :
  ~ In k (map fst d) -> dict_set d k v = d ++ [(k, v)].
Proof.
  induction d as [|[k' v'] d IH]; simpl; intros H; [reflexivity|].
  destruct (String.eqb k k') eqn:E.
  - apply String.eqb_eq in E. subst. exfalso. apply H. now left.
  - rewrite IH; [reflexivity|]. intros Hin. apply H. now right.
Qed.

Lemma index_fold_fresh (ms : list Marker) :
  forall d,
    NoDup (map fst d ++ map id ms) -> ~ In "" (map id ms) ->
    fold_left index_step ms d = d ++ map (fun m => (id m, m)) ms.
Proof.
  induction ms as [|m ms IH]; intros d Hn Hid; simpl; [now rewrite app_nil_r|].
  unfold index_step at 2.
  destruct (String.eqb (id m) "") eqn:E.
  - apply String.eqb_eq in E. exfalso. apply Hid. now left.
  - simpl in Hn. rewrite dict_set_fresh.
    + rewrite IH.
      * now rewrite <- app_assoc.
      * rewrite map_app. simpl. rewrite <- app_assoc. exact Hn.
      * intros H. apply Hid. now right.
    + apply NoDup_remove_2 in Hn. intros H. apply Hn. apply in_or_app. now left.
Qed.

Lemma dict_get_keyed (ms : list Marker) (k : string) :
  dict_get (map (fun m => (id m, m)) ms) k = find (has_id k) ms.
Proof.
  induction ms as [|m ms IH]; simpl; [reflexivity|]. unfold has_id at 1.
  rewrite String.eqb_sym. destruct (String.eqb (id m) k); [reflexivity|exact IH].
Qed.

(** X20.  The marker index built from the merged marker files holds one
    entry per marker id, in the order of first appearance; under an id
    it holds the first marker with that id in the files, read in the
    order of the path list; markers without an id are left out. *)
Theorem marker_index_first_wins (files : list (list Marker)) :
  let markers := _load_markers_canonical files in
  let index := _build_marker_index markers in
  index = map (fun m => (id m, m)) markers
  /\ NoDup (map fst index)
  /\ forall k, dict_get index k
               = if String.eqb k "" then None
                 else find (has_id k) (List.concat files).
Proof.
  cbv zeta. rewrite load_markers_concat.
  assert (H0 : load_ok [] ([] : list Marker, [] : list string)).
  { constructor; simpl; auto. constructor. }
  pose proof (load_fold_ok (List.concat files) [] _ H0) as H. simpl app in H.
  destruct (fold_left load_step (List.concat files) ([], [])) as [ms seen].
  destruct H as [Hseen Hn Hid Hfirst]. simpl in *. subst seen.
  assert (Hidx : _build_marker_index ms = map (fun m => (id m, m)) ms).
  { change (_build_marker_index ms) with (fold_left index_step ms []).
    now rewrite index_fold_fresh. }
  rewrite Hidx. split; [reflexivity|]. split.
  - now rewrite map_map.
  - intros k. rewrite dict_get_keyed.
    destruct (String.eqb k "") eqn:E; [|apply Hfirst; now apply String.eqb_neq].
    apply String.eqb_eq in E. subst k.
    destruct (find (has_id "") ms) as [m|] eqn:Ef; [|reflexivity].
    apply find_some in Ef. destruct Ef as [Hin Hm]. unfold has_id in Hm.
    apply String.eqb_eq in Hm. exfalso. apply Hid. rewrite <- Hm. now apply in_map.
Qed.

(** A dict filled by assignments in list order answers with the last
    entry of each key. *)
Lemma fold_dict_set_last {T : Type} (key_of : T -> string) (l : list T) (k : string) :
  forall d,
    dict_get (fold_left (fun d e => if String.eqb (key_of e) "" then d
                                    else dict_set d (key_of e) e) l d) k
    = if String.eqb k "" then dict_get d k
      else match find (fun e => String.eqb (key_of e) k) (rev l) with
           | Some e => Some e
           | None => dict_get d k
           end.
Proof.
  induction l as [|e l IH]; intros d; simpl.
  - now destruct (String.eqb k "").
  - rewrite IH. destruct (String.eqb k "") eqn:Ek.
    + destruct (String.eqb (key_of e) "") eqn:Ee; [reflexivity|].
      apply String.eqb_eq in Ek. subst k.
      apply SemCoreProperties.dict_get_set_other. intros H.
      rewrite <- H, String.eqb_refl in Ee. discriminate.
    + rewrite find_app. destruct (find _ (rev l)); [reflexivity|]. simpl.
      destruct (String.eqb (key_of e) k) eqn:E.
      * apply String.eqb_eq in E. subst k. rewrite Ek.
        apply SemCorePipeline.dict_get_set_same.
      * destruct (String.eqb (key_of e) ""); [reflexivity|].
        apply SemCoreProperties.dict_get_set_other. intros H.
        rewrite H, String.eqb_refl in E. discriminate.
Qed.

(** X21.  In [_build_marker_index] and in [_load_promotion_rules] a
    later entry overrides an earlier one with the same id: a lookup
    answers with the last entry of that id in the list, and entries
    without an id are never found. *)
Theorem later_entry_overrides (markers : list Marker)
    (promotions : list promotion_entry) (k : string) :
  dict_get (_build_marker_index markers) k
  = (if String.eqb k "" then None else find (has_id k) (rev markers))
  /\ dict_get (_load_promotion_rules promotions) k
     = (if String.eqb k "" then None
        else find (fun e => String.eqb (promo_marker_id e) k) (rev promotions)).
Proof.
  unfold _build_marker_index, _load_promotion_rules. split.
  - rewrite (fold_dict_set_last id markers k []). simpl.
    destruct (String.eqb k ""); [reflexivity|].
    now destruct (find _ (rev markers)).
  - rewrite (fold_dict_set_last promo_marker_id promotions k []). simpl.
    destruct (String.eqb k ""); [reflexivity|].
    now destruct (find _ (rev promotions)).
Qed.

(** ** Composed markers *)


















(** [kind in {"composed", "COMPOSED"}] *)
Definition is_composed (marker_data : Marker) : bool :=
  match kind marker_data with
  | Some k => String.eqb k "composed" || String.eqb k "COMPOSED"
  | None => false
  end.

(** The [min_score] in force for a marker: its own, else its
    definition's, else the default of the weights file; a zero counts as
    absent. *)
Definition effective_min_score (self : LD35Model) (item : string * Marker) : outcome Q :=
  let def_min_score :=
    match dict_get (marker_definitions self) (fst item) with
    | Some d => min_score d
    | None => None
    end in
  match min_score_default self with
  | Raised => Raised
  | Ok default_score =>
      py_float match py_or nonzero (py_or nonzero (min_score (snd item)) def_min_score)
                           (Some default_score) with
               | Some q => q
               | None => default_score
               end
  end.

(** A sublist in the order of the list. *)
Inductive subsequence {A : Type} : list A -> list A -> Prop :=
| sub_nil : subsequence [] []
| sub_skip (x : A) (l l' : list A) : subsequence l l' -> subsequence l (x :: l')
| sub_take (x : A) (l l' : list A) : subsequence l l' -> subsequence (x :: l) (x :: l').

Section Composer.
Context {RE : RegexEngine}.
Variable builtin_eval : string -> dict value -> option value.









Lemma composed_candidate_gate (self : LD35Model) (t : text)
    (sentences tokens : list (Z * Z)) (default_score : Q)
    (marker_matches : dict (list (Z * Z)))
    (item : string * Marker) (c : candidate) :
  min_score_default self = Ok default_score ->
  composed_candidate builtin_eval self t sentences tokens default_score
    marker_matches item = Ok (Some c) ->
  is_composed (snd item) = true
  /\ exists q, effective_min_score self item = Ok q /\ (q <= cand_score c)%Q.
Proof.
  destruct item as [marker_id marker_data]. intros Hd.
  unfold composed_candidate, is_composed, effective_min_score.
  rewrite Hd. cbv zeta. simpl fst. simpl snd.
  destruct (match kind marker_data with
            | Some k => String.eqb k "composed" || String.eqb k "COMPOSED"
            | None => false
            end); [|discriminate]. simpl negb. cbv iota.
  destruct (child_info_of _ marker_matches) as [child_info|]; [|discriminate].
  destruct child_info as [|ci cis] eqn:Eci; [discriminate|].
  rewrite <- Eci. clear Eci ci cis.
  destruct (_ <? min_children_default self); [discriminate|].
  destruct (py_float _) as [q|]; [|discriminate].
  destruct (Qltb _ _) eqn:Eq; [discriminate|].
  destruct (negb (_evaluate_expression _ _ _)); [discriminate|].
  destruct (_apply_span_policy _ _ _ _ _) as [[span|]|]; try discriminate.
  intros H. injection H as <-. simpl. split; [reflexivity|].
  exists q. split; [reflexivity|].
  unfold Qltb in Eq. apply negb_false_iff in Eq. apply Qle_bool_iff in Eq.
  exact Eq.
Qed.

(** A composed hit of marker [item], as the loop lets it through. *)
Definition let_through (self : LD35Model) (items : list (string * Marker))
    (a : Annotation) : Prop :=
  exists item q, In item items /\ marker a = fst item
                 /\ is_composed (snd item) = true
                 /\ effective_min_score self item = Ok q
                 /\ (q <= score a)%Q.

Lemma composed_loop_subsequence (self : LD35Model) (t : text)
    (sentences tokens : list (Z * Z)) (default_score : Q)
    (items : list (string * Marker)) :
  min_score_default self = Ok default_score ->
  forall anns marker_matches out mm',
    composed_loop builtin_eval self t sentences tokens default_score items anns
      marker_matches = Ok (out, mm') ->
    exists extra, out = anns ++ extra
                  /\ subsequence (map marker extra) (map fst items)
                  /\ Forall (let_through self items) extra.
Proof.
  intros Hd.
  induction items as [|item items IH]; intros anns mm out mm' Hrun; simpl in Hrun.
  - injection Hrun as <- <-. exists []. rewrite app_nil_r.
    repeat split; constructor.
  - assert (Hweak : forall extra, Forall (let_through self items) extra ->
                                  Forall (let_through self (item :: items)) extra).
    { intros extra. apply Forall_impl. intros a (it & q & Hin & H).
      exists it, q. split; [now right|exact H]. }
    unfold detect_composed_marker in Hrun.
    destruct (composed_candidate builtin_eval self t sentences tokens default_score
                mm item) as [[c|]|] eqn:Ec; try discriminate.
    + destruct (apply_promotion builtin_eval self c) as [[a|]|] eqn:Ep;
        [| |discriminate].
      * destruct (IH _ _ _ _ Hrun) as (extra & -> & Hsub & Hall).
        exists (a :: extra). rewrite <- app_assoc. split; [reflexivity|].
        apply LD35Composer.apply_promotion_Some in Ep.
        destruct Ep as (Hm & _ & _ & Hsc & _).
        destruct (LD35Composer.composed_candidate_spec _ _ _ _ _ _ _ _ _ Ec) as (Hid & _).
        destruct (composed_candidate_gate _ _ _ _ _ _ _ _ Hd Ec) as (Hk & q & Hq & Hmin).
        split; [|constructor; [|now apply Hweak]].
        -- simpl. rewrite Hm, Hid. now constructor.
        -- exists item, q. rewrite Hm, Hid, Hsc. repeat split; auto. now left.
      * destruct (IH _ _ _ _ Hrun) as (extra & -> & Hsub & Hall).
        exists extra. repeat split; [now constructor|now apply Hweak].
    + destruct (IH _ _ _ _ Hrun) as (extra & -> & Hsub & Hall).
      exists extra. repeat split; [now constructor|now apply Hweak].
Qed.

(** X23.  [_detect_composed_markers] emits at most one hit per marker of
    the index, in index order; every hit belongs to a marker of kind
    [composed] and its score is not below the marker's [min_score] (its
    own, its definition's, or the default of the weights file). *)
Theorem detect_composed_markers_one_per_marker (self : LD35Model) (t : text)
    (marker_matches : dict (list (Z * Z))) (out : list Annotation) :
  _detect_composed_markers builtin_eval self t marker_matches = Ok out ->
  subsequence (map marker out) (map fst (markers_index self))
  /\ Forall (let_through self (markers_index self)) out.
Proof.
  unfold _detect_composed_markers. intros Hrun.
  destruct (min_score_default self) as [d|] eqn:Hd; [|discriminate].
  destruct (composed_loop builtin_eval self t (_get_sentences t) (_get_tokens t) d
              (markers_index self) [] marker_matches) as [[anns mm']|] eqn:E;
    [|discriminate].
  injection Hrun as <-.
  apply (composed_loop_subsequence self t _ _ d _ Hd) in E.
  destruct E as (extra & -> & Hsub & Hall). simpl. auto.
Qed.

End Composer.


Lemma detect_composed_markers_one_per_marker_witness :
  let self := Scenarios.ld35_model (Scenarios.markers_ab Scenarios.sentence_union_1)
                                   None [] in
  let mm := snd (_pattern_based_detection (RE := Fixture.fixture_engine)
                   self Scenarios.a_and_b) in
  match _detect_composed_markers (RE := Fixture.fixture_engine) Fixture.python_eval
          self Scenarios.a_and_b mm with
  | Ok out =>
      map marker out = ["SEM_AB"]
      /\ subsequence (map marker out) (map fst (markers_index self))
      /\ Forall (let_through self (markers_index self)) out
  | Raised => False
  end.
Proof.
  intros self mm.
  destruct (_detect_composed_markers (RE := Fixture.fixture_engine)
              Fixture.python_eval self Scenarios.a_and_b mm) as [out|] eqn:E.
  - split.
    + vm_compute in E. injection E as <-. reflexivity.
    + exact (detect_composed_markers_one_per_marker (RE := Fixture.fixture_engine)
               Fixture.python_eval self Scenarios.a_and_b mm out E).
  - vm_compute in E. discriminate E.
Defined.

End LD35Properties.

(* ================================================================== *)
(** * Properties of utils/chunking.py and of the chunked pipeline       *)
(* ================================================================== *)

Module ChunkingProperties.
Import LD35Engine Chunking LD35Facts LD35Properties.

(** ** [chunk_text] *)

Lemma clip_id (n i : Z) : 0 <= i <= n -> clip n i = i.
Proof.
  intros H. unfold clip. destruct (i <? 0) eqn:E; [apply Z.ltb_lt in E; lia|lia].
Qed.

Lemma py_slice_slice (t : text) (s e : Z) :
  0 <= s -> s <= e -> e <= len t -> py_slice t s e = slice t s e.
Proof. intros. unfold py_slice. now rewrite !clip_id by lia. Qed.

Lemma rfind_down_range (t sub : text) (lo : Z) (n : nat) :
  rfind_down t sub lo n = -1
  \/ lo <= rfind_down t sub lo n < lo + Z.of_nat n.
Proof.
  induction n as [|n IH]; simpl; [now left|].
  destruct (startswith_text sub (skipn (Z.to_nat (lo + Z.of_nat n)) t)).
  - right. lia.
  - destruct IH as [IH|IH]; [now left|right; lia].
Qed.

(** A boundary found by [rfind] lies inside the searched window. *)
Lemma str_rfind_range (t sub : text) (lo hi : Z) :
  0 <= lo -> 0 <= hi <= len t ->
  str_rfind t sub lo hi = -1
  \/ (Z.min lo (len t) <= str_rfind t sub lo hi
      /\ str_rfind t sub lo hi + len sub <= hi).
Proof.
  intros Hlo Hhi. unfold str_rfind. cbv zeta.
  assert (Elo : clip (len t) lo = Z.min lo (len t)).
  { unfold clip. destruct (lo <? 0) eqn:E; [apply Z.ltb_lt in E; lia|reflexivity]. }
  rewrite Elo, (clip_id (len t) hi) by lia.
  destruct (rfind_down_range t sub (Z.min lo (len t))
              (Z.to_nat (hi - len sub - Z.min lo (len t) + 1))) as [H|H];
    [now left|right; lia].
Qed.

Lemma break_point_range (t : text) (boundaries : list text) (search_start end_ : Z) :
  0 <= search_start -> 0 <= end_ <= len t ->
  Z.min search_start (len t) <= end_ ->
  Z.min search_start (len t) <= break_point t boundaries search_start end_ end_
  /\ break_point t boundaries search_start end_ end_ <= end_.
Proof.
  intros Hs He Hse.
  induction boundaries as [|b rest IH]; simpl; [lia|].
  destruct (str_rfind_range t b search_start end_ Hs He) as [H|H].
  - rewrite H. simpl. exact IH.
  - destruct (str_rfind t b search_start end_ =? -1) eqn:E; simpl; [exact IH|].
    unfold len in *. lia.
Qed.

(** Where a chunk ends: after its start, at most [chunk_size] later and
    inside the text; at the end of the text when less than [chunk_size]
    characters are left. *)
Lemma chunk_end_of_range (t : text) (chunk_size overlap start : Z) :
  0 < chunk_size -> 0 <= start -> start < len t ->
  start < chunk_end_of t chunk_size overlap start
  /\ chunk_end_of t chunk_size overlap start <= Z.min (start + chunk_size) (len t)
  /\ (len t <= start + chunk_size -> chunk_end_of t chunk_size overlap start = len t).
Proof.
  intros Hcs Hs Hlt. unfold chunk_end_of. cbv zeta.
  destruct (start + chunk_size >=? len t) eqn:E.
  - apply Z.geb_le in E. lia.
  - rewrite Z.geb_leb in E. apply Z.leb_gt in E.
    destruct (start + chunk_size - overlap >? start) eqn:Eo.
    + apply Z.gtb_lt in Eo.
      destruct (Z_le_gt_dec (Z.min (start + chunk_size - overlap) (len t))
                            (start + chunk_size)) as [Hle|Hgt].
      * destruct (break_point_range t BOUNDARIES (start + chunk_size - overlap)
                    (start + chunk_size)) as [H1 H2]; try lia.
      * (* a negative overlap puts the search window after [end] *)
        assert (Hb : break_point t BOUNDARIES (start + chunk_size - overlap)
                       (start + chunk_size) (start + chunk_size)
                     = start + chunk_size).
        { generalize BOUNDARIES. intros bs. induction bs as [|b bs IH]; simpl;
            [reflexivity|].
          destruct (str_rfind_range t b (start + chunk_size - overlap)
                      (start + chunk_size)) as [H|H]; try lia.
          - rewrite H. simpl. exact IH.
          - unfold len in *. lia. }
        rewrite Hb. lia.
    + lia.
Qed.

(** The chunks of a text from offset [start] on: the k-th of them begins
    at [start + k * chunk_size], is not empty, ends at most [chunk_size]
    characters later, and holds the characters of its span. *)
Fixpoint chunks_from (t : text) (chunk_size start : Z) (chunks : list chunk) : Prop :=
  match chunks with
  | [] => True
  | (ct, st, en) :: rest =>
      st = start /\ st < en /\ en <= Z.min (st + chunk_size) (len t)
      /\ ct = slice t st en
      /\ chunks_from t chunk_size (start + chunk_size) rest
  end.

Definition ends_at (hi : Z) (chunks : list chunk) : Prop :=
  exists l ct st, chunks = l ++ [(ct, st, hi)].

Lemma chunk_loop_spec (t : text) (chunk_size overlap : Z) :
  0 < chunk_size ->
  forall (n : nat) (start : Z),
    0 <= start -> start < len t -> len t - start <= Z.of_nat n ->
    exists new,
      chunks_from t chunk_size start new /\ ends_at (len t) new
      /\ forall fuel chunks, (n <= fuel)%nat ->
           chunk_loop fuel t chunk_size overlap start chunks = Some (chunks ++ new).
Proof.
  intros Hcs. induction n as [|n IH]; intros start Hs Hlt Hn; [lia|].
  destruct (chunk_end_of_range t chunk_size overlap start Hcs Hs Hlt)
    as (He1 & He2 & He3).
  set (end_ := chunk_end_of t chunk_size overlap start) in *.
  assert (Hslice : py_slice t start end_ = slice t start end_)
    by (apply py_slice_slice; lia).
  destruct (start + chunk_size >=? len t) eqn:E.
  - assert (E' := E). apply Z.geb_le in E'.
    exists [(slice t start end_, start, end_)]. split; [|split].
    + simpl. repeat split; lia.
    + exists [], (slice t start end_), start. rewrite He3 by lia. reflexivity.
    + intros fuel chunks Hf. destruct fuel as [|fuel]; [lia|].
      cbn [chunk_loop]. fold end_.
      assert (E1 : (start <? len t) = true) by (apply Z.ltb_lt; lia).
      rewrite E1. cbv zeta. rewrite E, Hslice. reflexivity.
  - assert (E' := E). rewrite Z.geb_leb in E'. apply Z.leb_gt in E'.
    destruct (IH (start + chunk_size)) as (new & Hnew & Hend & Hrun); try lia.
    exists ((slice t start end_, start, end_) :: new). split; [|split].
    + simpl. repeat split; try lia. exact Hnew.
    + destruct Hend as (l & ct & st & ->).
      exists ((slice t start end_, start, end_) :: l), ct, st. reflexivity.
    + intros fuel chunks Hf. destruct fuel as [|fuel]; [lia|].
      cbn [chunk_loop]. fold end_.
      assert (E1 : (start <? len t) = true) by (apply Z.ltb_lt; lia).
      rewrite E1. cbv zeta. rewrite E, Hslice, Hrun by lia.
      now rewrite <- app_assoc.
Qed.

Lemma slice_all (t : text) : slice t 0 (len t) = t.
Proof.
  unfold slice, len. simpl. rewrite Z.sub_0_r, Nat2Z.id. apply firstn_all.
Qed.

Lemma chunk_text_total (t : text) (chunk_size overlap : Z) :
  0 < chunk_size ->
  exists chunks,
    forall fuel, (List.length t <= fuel)%nat ->
                 chunk_text fuel t chunk_size overlap = Some chunks.
Proof.
  intros Hcs. unfold chunk_text. cbv zeta.
  destruct (len t <=? chunk_size) eqn:E; [eauto|].
  apply Z.leb_gt in E.
  destruct (chunk_loop_spec t chunk_size overlap Hcs (List.length t) 0)
    as (new & _ & _ & Hrun); [lia|lia|unfold len; lia|].
  exists new. intros fuel Hf. now rewrite (Hrun fuel [] Hf).
Qed.

(** X24.  With a positive [chunk_size], [chunk_text] returns, and its
    chunks are laid out on a grid: the k-th chunk begins at
    [k * chunk_size], ends at most [chunk_size] characters later, holds
    exactly the characters [text[start:end]], and the last chunk ends
    at [len(text)].  So chunks never overlap, whatever [overlap] is; a
    chunk of a non-empty text is never empty. *)
Theorem chunk_text_grid (t : text) (chunk_size overlap : Z) :
  0 < chunk_size ->
  exists chunks,
    (forall fuel, (List.length t <= fuel)%nat ->
                  chunk_text fuel t chunk_size overlap = Some chunks)
    /\ ends_at (len t) chunks
    /\ match t with
       | [] => chunks = [([], 0, 0)]
       | _ :: _ => chunks_from t chunk_size 0 chunks
       end.
Proof.
  intros Hcs. unfold chunk_text. cbv zeta.
  destruct (len t <=? chunk_size) eqn:E.
  - apply Z.leb_le in E. exists [(t, 0, len t)]. split; [reflexivity|]. split.
    + now exists [], t, 0.
    + destruct t as [|c t']; [reflexivity|].
      assert (0 < len (c :: t'))
        by (unfold len; change (List.length (c :: t')) with (S (List.length t')); lia).
      cbn [chunks_from]. rewrite slice_all. repeat split; lia.
  - apply Z.leb_gt in E.
    destruct (chunk_loop_spec t chunk_size overlap Hcs (List.length t) 0)
      as (new & Hnew & Hend & Hrun); [lia|lia|unfold len; lia|].
    exists new. split; [|split].
    + intros fuel Hf. now rewrite (Hrun fuel [] Hf).
    + exact Hend.
    + destruct t as [|c t']; [|exact Hnew]. unfold len in E. simpl in E. lia.
Qed.

(** "One. Two. Three." in chunks of 6 with an overlap of 3: the first
    chunk is cut after ". " at offset 5, the second begins at 6, and the
    "T" at offset 5 is in no chunk. *)
Lemma chunk_text_grid_witness :
  let t := of_string "One. Two. Three." in
  chunk_text 16 t 6 3
  = Some [(of_string "One. ", 0, 5); (of_string "wo. Th", 6, 12);
          (of_string "ree.", 12, 16)]
  /\ exists chunks,
       (forall fuel, (List.length t <= fuel)%nat -> chunk_text fuel t 6 3 = Some chunks)
       /\ ends_at (len t) chunks
       /\ chunks_from t 6 0 chunks.
Proof.
  intros t. split; [reflexivity|].
  exact (chunk_text_grid t 6 3 eq_refl).
Defined.

Lemma chunk_loop_diverges (t : text) (chunk_size overlap : Z) :
  chunk_size <= 0 -> 0 < len t ->
  forall fuel start chunks,
    start <= 0 -> chunk_loop fuel t chunk_size overlap start chunks = None.
Proof.
  intros Hcs Hlen. induction fuel as [|fuel IH]; intros start chunks Hs;
    [reflexivity|].
  cbn [chunk_loop].
  assert (E1 : (start <? len t) = true) by (apply Z.ltb_lt; lia).
  assert (E2 : (start + chunk_size >=? len t) = false)
    by (rewrite Z.geb_leb; apply Z.leb_gt; lia).
  rewrite E1. cbv zeta. rewrite E2. apply IH. lia.
Qed.

(** X25.  With a [chunk_size] of zero or less, [chunk_text] does not
    return on a non-empty text: its loop never moves [start] forward,
    so no number of iterations reaches the exit. *)
Theorem chunk_text_diverges (t : text) (chunk_size overlap : Z) (fuel : nat) :
  chunk_size <= 0 -> t <> [] ->
  chunk_text fuel t chunk_size overlap = None.
Proof.
  intros Hcs Hne.
  assert (Hlen : 0 < len t).
  { unfold len. destruct t as [|c t']; [contradiction|].
    change (List.length (c :: t')) with (S (List.length t')). lia. }
  unfold chunk_text. cbv zeta.
  assert (E : (len t <=? chunk_size) = false) by (apply Z.leb_gt; lia).
  rewrite E. apply chunk_loop_diverges; lia.
Qed.

Lemma chunk_text_diverges_witness :
  chunk_text 1000 (of_string "abc") 0 200 = None.
Proof.
  apply chunk_text_diverges; [apply Z.le_refl|discriminate].
Defined.

(** ** Offsets *)

Lemma slice_slice (t : text) (st en s e : Z) :
  0 <= st -> 0 <= s -> s <= e -> e <= en - st ->
  slice (slice t st en) s e = slice t (s + st) (e + st).
Proof.
  intros Hst Hs Hse He. unfold slice.
  rewrite skipn_firstn_comm, firstn_firstn, skipn_skipn.
  replace (Z.to_nat s + Z.to_nat st)%nat with (Z.to_nat (s + st)) by lia.
  f_equal; lia.
Qed.

(** What an annotation of a chunk and its global counterpart share. *)
Definition same_hit (t ct : text) (a a' : Annotation) : Prop :=
  slice t (start a') (end_ a') = slice ct (start a) (end_ a)
  /\ end_ a' - start a' = end_ a - start a
  /\ marker a' = marker a /\ family a' = family a
  /\ label a' = label a /\ score a' = score a.

(** X26.  Offsets survive the round trip through a chunk: for a chunk
    [(chunk, start, end)] cut out of the text at [0 <= start <= end],
    [adjust_annotation_offsets] with the chunk's start maps every
    annotation that lies inside the chunk to a span of the full text
    holding the same characters, with marker, family, label and score
    unchanged. *)
Theorem adjust_offsets_same_text (t : text) (st en : Z) (anns : list Annotation) :
  0 <= st -> st <= en ->
  Forall (fun a => 0 <= start a /\ start a <= end_ a /\ end_ a <= en - st) anns ->
  Forall2 (same_hit t (slice t st en)) anns (adjust_annotation_offsets anns st).
Proof.
  intros Hst Hen Hall. unfold adjust_annotation_offsets.
  induction Hall as [|a l Ha _ IH]; simpl; constructor; [|exact IH].
  unfold same_hit, shift. simpl.
  rewrite slice_slice by lia. repeat split. lia.
Qed.

Lemma adjust_offsets_same_text_witness :
  let t := of_string "One. Two. Three." in
  let a := {| start := 1; end_ := 4; marker := "ATO_TWO"; family := "ATO";
              label := "two"; score := 7 # 10 |} in
  slice t 4 10 = of_string " Two. "
  /\ Forall2 (same_hit t (slice t 4 10)) [a] (adjust_annotation_offsets [a] 4).
Proof.
  intros t a. split; [reflexivity|].
  apply (adjust_offsets_same_text t 4 10 [a]); [lia|lia|].
  repeat constructor; simpl; lia.
Defined.

(** ** Merging *)

(** The order of the key [(start, end)]. *)
Definition span_order (a b : Annotation) : Prop :=
  start a < start b \/ (start a = start b /\ end_ a <= end_ b).

Lemma sorted_drop {A : Type} (R : A -> A -> Prop) (acc : list A) (a : A) (l : list A) :
  StronglySorted R (acc ++ a :: l) -> StronglySorted R (acc ++ l).
Proof.
  induction acc as [|x acc IH]; simpl; intros H.
  - now inversion H.
  - inversion H as [|? ? Hs Hall]; subst. constructor; [now apply IH|].
    rewrite Forall_forall in *. intros y Hy. apply Hall.
    apply in_app_or in Hy. apply in_or_app.
    destruct Hy; [now left|right; now right].
Qed.

Lemma dedupe_sorted (R : Annotation -> Annotation -> Prop) (l : list Annotation) :
  forall acc, StronglySorted R (acc ++ l) ->
              StronglySorted R (fold_left dedupe_step l acc).
Proof.
  induction l as [|a l IH]; intros acc H; simpl.
  - now rewrite app_nil_r in H.
  - apply IH. unfold dedupe_step.
    destruct (existsb (same_key a) acc).
    + now apply sorted_drop in H.
    + now rewrite <- app_assoc.
Qed.

(** An annotation of the merged list comes from a chunk: it is an
    annotation of that chunk moved by the chunk's offset. *)
Definition from_chunk (all_chunk_annotations : list (list Annotation * Z))
    (a : Annotation) : Prop :=
  exists chunk_annotations offset b,
    In (chunk_annotations, offset) all_chunk_annotations
    /\ In b chunk_annotations /\ a = shift offset b.

Lemma merged_from_chunks (all_chunk_annotations : list (list Annotation * Z)) :
  Forall (from_chunk all_chunk_annotations)
         (merge_chunk_annotations all_chunk_annotations).
Proof.
  unfold merge_chunk_annotations, remove_cross_chunk_duplicates. cbv zeta.
  set (moved := flat_map (fun '(chunk_annotations, offset) =>
                            adjust_annotation_offsets chunk_annotations offset)
                         all_chunk_annotations).
  change (fold_left _ (sorted span_le moved) [])
    with (fold_left dedupe_step (sorted span_le moved) []).
  destruct (dedupe_fold (sorted span_le moved) [] (NoDup_nil _)) as (_ & H2 & _).
  simpl app in H2.
  rewrite Forall_forall. intros a Ha. apply H2 in Ha. apply sorted_In in Ha.
  unfold moved in Ha. apply in_flat_map in Ha.
  destruct Ha as ([anns offset] & Hin & Ha).
  unfold adjust_annotation_offsets in Ha. apply in_map_iff in Ha.
  destruct Ha as (b & <- & Hb). exists anns, offset, b. auto.
Qed.

(** X27.  [merge_chunk_annotations] returns the chunks' annotations,
    each moved by its chunk's offset, sorted by [(start, end)], with one
    annotation per key [(start, end, marker)], and it loses no key. *)
Theorem merge_chunk_annotations_spec
    (all_chunk_annotations : list (list Annotation * Z)) :
  let merged := merge_chunk_annotations all_chunk_annotations in
  StronglySorted span_order merged
  /\ NoDup (map key merged)
  /\ Forall (from_chunk all_chunk_annotations) merged
  /\ Forall (fun '(chunk_annotations, offset) =>
               Forall (fun b => In (key (shift offset b)) (map key merged))
                      chunk_annotations)
            all_chunk_annotations.
Proof.
  cbv zeta. pose proof (merged_from_chunks all_chunk_annotations) as Hfrom.
  unfold merge_chunk_annotations, remove_cross_chunk_duplicates in *. cbv zeta in *.
  set (moved := flat_map (fun '(chunk_annotations, offset) =>
                            adjust_annotation_offsets chunk_annotations offset)
                         all_chunk_annotations) in *.
  change (fold_left _ (sorted span_le moved) [])
    with (fold_left dedupe_step (sorted span_le moved) []) in *.
  destruct (dedupe_fold (sorted span_le moved) [] (NoDup_nil _)) as (H1 & H2 & H3).
  simpl app in H2, H3.
  split; [|split; [exact H1|split; [exact Hfrom|]]].
  - apply (dedupe_sorted span_order _ []). simpl.
    apply sorted_strongly; unfold span_le, pair_le, span_order; simpl.
    + intros x y. rewrite orb_true_iff, andb_true_iff. lia.
    + intros x y. rewrite orb_false_iff, andb_false_iff. lia.
    + intros; lia.
  - rewrite Forall_forall. intros [anns offset] Hin.
    rewrite Forall_forall. intros b Hb. apply H3. apply in_map.
    apply sorted_In. unfold moved. apply in_flat_map.
    exists (anns, offset). split; [assumption|].
    unfold adjust_annotation_offsets. now apply in_map.
Qed.

(** ** The chunked pipeline *)

Section Pipeline.
Context {RE : RegexEngine}.
Variable builtin_eval : string -> dict value -> option value.
Variable normalize_text : text -> text.

Lemma gather_chunks_spec (self : LD35Model) (chunks : list chunk) :
  forall acc all,
    LD35Service.gather_chunks builtin_eval self chunks acc = Ok all ->
    exists new,
      all = acc ++ new
      /\ Forall (fun '(anns, offset) =>
                   exists ct en, In (ct, offset, en) chunks
                                 /\ run_inference builtin_eval self ct = Ok anns)
                new.
Proof.
  induction chunks as [|[[ct st] en] rest IH]; intros acc all H; simpl in H.
  - injection H as <-. exists []. rewrite app_nil_r. split; [reflexivity|constructor].
  - destruct (run_inference builtin_eval self ct) as [anns|] eqn:Er; [|discriminate].
    apply IH in H. destruct H as (new & -> & Hnew).
    exists ((anns, st) :: new). rewrite <- app_assoc. split; [reflexivity|].
    constructor.
    + exists ct, en. split; [now left|assumption].
    + eapply Forall_impl; [|exact Hnew]. intros [a o] (ct' & en' & Hin & Hr).
      exists ct', en'. split; [now right|assumption].
Qed.

(** An annotation of the final list, traced back to a chunk of the
    normalised text and to an annotation of [run_inference] on it. *)
Definition traced (self : LD35Model) (chunks : list chunk) (a : Annotation) : Prop :=
  exists ct st en anns b,
    In (ct, st, en) chunks
    /\ run_inference builtin_eval self ct = Ok anns
    /\ In b anns /\ a = shift st b.

(** X28.  With a positive [chunk_size] (or none given, which means
    12000), [process_ld35_annotations] returns unless [run_inference]
    raises on a chunk; the list it returns is sorted by start offset,
    no two of its annotations overlap, and each of them is an annotation
    that [run_inference] found in one chunk of the normalised text,
    moved by that chunk's start offset. *)
Theorem process_ld35_annotations_spec (self : LD35Model) (t : text)
    (chunk_size overlap : option Z) :
  match chunk_size with Some n => 0 < n | None => True end ->
  exists chunks,
    chunk_text (S (List.length (normalize_text t))) (normalize_text t)
               (match chunk_size with Some n => n | None => 12000 end)
               (match overlap with Some n => n | None => 200 end)
    = Some chunks
    /\ match LD35Service.process_ld35_annotations builtin_eval normalize_text
               self t chunk_size overlap with
       | None => False
       | Some Raised =>
           exists ct st en, In (ct, st, en) chunks
                            /\ run_inference builtin_eval self ct = Raised
       | Some (Ok out) =>
           StronglySorted (fun a b => start a <= start b) out
           /\ ForallOrdPairs apart out
           /\ Forall (traced self chunks) out
       end.
Proof.
  intros Hcs. unfold LD35Service.process_ld35_annotations. cbv zeta.
  set (cs := match chunk_size with Some n => n | None => 12000 end).
  set (ov := match overlap with Some n => n | None => 200 end).
  assert (Hpos : 0 < cs) by (unfold cs; destruct chunk_size; [assumption|reflexivity]).
  destruct (chunk_text_total (normalize_text t) cs ov Hpos) as (chunks & Hrun).
  exists chunks. rewrite (Hrun (S (List.length (normalize_text t)))) by lia.
  split; [reflexivity|].
  destruct (LD35Service.gather_chunks builtin_eval self chunks []) as [all|] eqn:Eg.
  - apply gather_chunks_spec in Eg. destruct Eg as (new & -> & Hnew). simpl app.
    unfold post_process_annotations.
    destruct (resolve_overlapping_sorted_apart
                (remove_duplicate_annotations (merge_chunk_annotations new)))
      as [Hs Hp].
    split; [exact Hs|]. split; [exact Hp|].
    rewrite Forall_forall. intros a Ha.
    apply LD35Facts.resolve_overlapping_annotations_subset in Ha.
    apply remove_duplicates_incl in Ha.
    pose proof (merged_from_chunks new) as Hfrom.
    rewrite Forall_forall in Hfrom. destruct (Hfrom a Ha) as (anns & st & b & Hin & Hb & ->).
    rewrite Forall_forall in Hnew. specialize (Hnew _ Hin). cbv beta iota in Hnew.
    destruct Hnew as (ct & en & Hc & Hr). exists ct, st, en, anns, b. auto.
  - clear Hrun. revert Eg. generalize (@nil (list Annotation * Z)).
    induction chunks as [|[[ct st] en] rest IH]; intros acc Eg; simpl in Eg;
      [discriminate|].
    destruct (run_inference builtin_eval self ct) as [anns|] eqn:Er.
    + destruct (IH _ Eg) as (ct' & st' & en' & Hin & Hr).
      exists ct', st', en'. split; [now right|assumption].
    + exists ct, st, en. split; [now left|assumption].
Qed.

End Pipeline.

Lemma process_ld35_annotations_spec_witness :
  let self := Scenarios.ld35_model (Scenarios.markers_ab Scenarios.sentence_union_1)
                                   None [] in
  option_map Scenarios.emitted_markers
    (LD35Service.process_ld35_annotations (RE := Fixture.fixture_engine)
       Fixture.python_eval (fun t => t) self Scenarios.a_and_b (Some 9) None)
  = Some (Some ["SEM_AB"])
  /\ exists chunks,
       chunk_text (S (List.length Scenarios.a_and_b)) Scenarios.a_and_b 9 200
       = Some chunks
       /\ match LD35Service.process_ld35_annotations (RE := Fixture.fixture_engine)
                  Fixture.python_eval (fun t => t) self Scenarios.a_and_b
                  (Some 9) None with
          | None => False
          | Some Raised =>
              exists ct st en,
                In (ct, st, en) chunks
                /\ run_inference (RE := Fixture.fixture_engine) Fixture.python_eval
                                 self ct = Raised
          | Some (Ok out) =>
              StronglySorted (fun a b => start a <= start b) out
              /\ ForallOrdPairs apart out
              /\ Forall (traced (RE := Fixture.fixture_engine) Fixture.python_eval
                                self chunks) out
          end.
Proof.
  intros self. split; [vm_compute; reflexivity|].
  exact (process_ld35_annotations_spec (RE := Fixture.fixture_engine)
           Fixture.python_eval (fun t => t) self Scenarios.a_and_b
           (Some 9) None eq_refl).
Defined.

End ChunkingProperties.

(* ================================================================== *)
(** * Properties of utils/html_renderer.py                              *)
(* ================================================================== *)

Module RendererProperties.
Import LD35Engine HtmlRenderer.

(** ** The position groups *)

Lemma groups_get_append (g : groups) (k k' : Z) (a : Annotation) :
  groups_get (groups_append g k a) k'
  = if k' =? k then groups_get g k' ++ [a] else groups_get g k'.
Proof.
  induction g as [|[k0 l0] g IH]; simpl.
  - now destruct (k' =? k).
  - destruct (k =? k0) eqn:E0; simpl.
    + apply Z.eqb_eq in E0. subst k0.
      destruct (k' =? k); reflexivity.
    + destruct (k' =? k0) eqn:E1; [|exact IH].
      apply Z.eqb_eq in E1. subst k0.
      destruct (k' =? k) eqn:E2; [|reflexivity].
      apply Z.eqb_eq in E2. subst. rewrite Z.eqb_refl in E0. discriminate.
Qed.

Lemma groups_append_keys (g : groups) (k : Z) (a : Annotation) :
  NoDup (map fst g) -> NoDup (map fst (groups_append g k a)).
Proof.
  assert (Hin : forall g x, In x (map fst (groups_append g k a)) ->
                            In x (map fst g) \/ x = k).
  { clear g. induction g as [|[k0 l0] g IH]; simpl; intros x H.
    - destruct H as [<-|[]]. now right.
    - destruct (k =? k0); simpl in H; [now left|].
      destruct H as [H|H]; [now left; left|].
      destruct (IH x H); [left; now right|now right]. }
  induction g as [|[k0 l0] g IH]; simpl; intros Hn.
  - repeat constructor. intros [].
  - inversion Hn as [|? ? Hk0 Hn']; subst.
    destruct (k =? k0) eqn:E; simpl; [now constructor|].
    constructor; [|now apply IH].
    intros H. apply Hin in H. destruct H as [H| ->]; [contradiction|].
    rewrite Z.eqb_refl in E. discriminate.
Qed.

Lemma groups_get_entry (g : groups) (k : Z) (a : Annotation) :
  In a (groups_get g k) -> exists l, In (k, l) g /\ In a l.
Proof.
  induction g as [|[k0 l0] g IH]; simpl; [contradiction|].
  destruct (k =? k0) eqn:E.
  - apply Z.eqb_eq in E. subst k0. intros H. exists l0. split; [now left|assumption].
  - intros H. destruct (IH H) as (l & Hin & Ha). exists l. split; [now right|assumption].
Qed.

Lemma groups_entry_get (g : groups) (k : Z) (l : list Annotation) :
  NoDup (map fst g) -> In (k, l) g -> groups_get g k = l.
Proof.
  induction g as [|[k0 l0] g IH]; simpl; intros Hn Hin; [contradiction|].
  inversion Hn as [|? ? Hk0 Hn']; subst.
  destruct Hin as [[= -> ->]|Hin]; [now rewrite Z.eqb_refl|].
  destruct (k =? k0) eqn:E; [|now apply IH].
  apply Z.eqb_eq in E. subst k0. exfalso. apply Hk0.
  change k with (fst (k, l)). now apply in_map.
Qed.

(** What the groups built from a list of annotations hold: under an
    offset, the annotations that start or end there. *)
Record groups_ok (annotations : list Annotation) (g : groups) : Prop := mkGroupsOk {
  groups_keys : NoDup (map fst g);
  groups_sound : forall k a, In a (groups_get g k) ->
                             In a annotations /\ (start a = k \/ end_ a = k);
  groups_complete : forall a, In a annotations ->
                              In a (groups_get g (start a))
                              /\ In a (groups_get g (end_ a))
}.

Lemma group_annotations_ok (annotations : list Annotation) :
  groups_ok annotations (group_annotations_by_position annotations).
Proof.
  unfold group_annotations_by_position.
  assert (H : forall l done g, groups_ok done g ->
    groups_ok (done ++ l)
      (fold_left (fun position_groups ann =>
                    groups_append (groups_append position_groups (start ann) ann)
                                  (end_ ann) ann) l g)).
  { induction l as [|x l IH]; intros done g Hg; simpl.
    - now rewrite app_nil_r.
    - replace (done ++ x :: l) with ((done ++ [x]) ++ l) by now rewrite <- app_assoc.
      apply IH. destruct Hg as [Hk Hs Hc]. constructor.
      + now apply groups_append_keys, groups_append_keys.
      + intros k a. rewrite !groups_get_append. intros Ha.
        assert (Hcases : In a (groups_get g k)
                         \/ (a = x /\ (k = start x \/ k = end_ x))).
        { destruct (k =? end_ x) eqn:E1; destruct (k =? start x) eqn:E2;
            rewrite ?Z.eqb_eq in *;
            repeat (apply in_app_or in Ha; destruct Ha as [Ha|[<-|[]]]); auto. }
        destruct Hcases as [Hg|[-> Hkx]].
        * destruct (Hs k a Hg). split; [apply in_or_app; now left|assumption].
        * split; [apply in_or_app; right; now left|]. destruct Hkx; auto.
      + intros a Ha. rewrite !groups_get_append.
        apply in_app_or in Ha. destruct Ha as [Ha|[<-|[]]].
        * destruct (Hc a Ha) as [H1 H2].
          split; repeat (match goal with
                         | |- In _ (if ?c then _ else _) => destruct c
                         | |- In _ (_ ++ _) => apply in_or_app; left
                         end); assumption.
        * rewrite !Z.eqb_refl. split.
          -- destruct (start x =? end_ x); apply in_or_app.
             ++ left. apply in_or_app. right. now left.
             ++ right. now left.
          -- apply in_or_app. right. now left. }
  apply (H annotations [] []). constructor; simpl; [constructor|contradiction|contradiction].
Qed.

(** ** The boundaries *)

Lemma set_add_In (s : list Z) (x y : Z) : In y (set_add s x) <-> In y s \/ y = x.
Proof.
  unfold set_add. destruct (existsb (Z.eqb x) s) eqn:E.
  - split; [now left|]. intros [H| ->]; [assumption|].
    apply existsb_exists in E. destruct E as (z & Hz & Ez).
    apply Z.eqb_eq in Ez. now subst.
  - rewrite in_app_iff. simpl. intuition.
Qed.

Lemma set_add_NoDup (s : list Z) (x : Z) : NoDup s -> NoDup (set_add s x).
Proof.
  intros Hn. unfold set_add. destruct (existsb (Z.eqb x) s) eqn:E; [assumption|].
  apply NoDup_app; [assumption|repeat constructor; intros []|].
  intros y Hy [<-|[]].
  assert (existsb (Z.eqb x) s = true); [|congruence].
  apply existsb_exists. exists x. split; [assumption|apply Z.eqb_refl].
Qed.

Definition add_ends (b : list Z) (ann : Annotation) : list Z :=
  set_add (set_add b (start ann)) (end_ ann).

Lemma add_ends_fold (anns : list Annotation) :
  forall b, NoDup b ->
    NoDup (fold_left add_ends anns b)
    /\ forall x, In x (fold_left add_ends anns b)
                 <-> In x b \/ exists a, In a anns /\ (x = start a \/ x = end_ a).
Proof.
  induction anns as [|a anns IH]; intros b Hb; simpl.
  - split; [assumption|]. intros x. split; [now left|]. intros [H|(a & [] & _)]. exact H.
  - destruct (IH (add_ends b a)) as [Hn Hin].
    { unfold add_ends. now apply set_add_NoDup, set_add_NoDup. }
    split; [exact Hn|]. intros x. rewrite Hin. unfold add_ends.
    rewrite !set_add_In. split.
    + intros [[[H|H]|H]|(a' & Ha' & H)]; eauto 6.
    + intros [H|(a' & [<-|Ha'] & [H|H])]; eauto 6.
Qed.

Lemma boundaries_fold (g : groups) :
  forall b, NoDup b ->
    NoDup (fold_left (fun b '(_, anns) => fold_left add_ends anns b) g b)
    /\ forall x, In x (fold_left (fun b '(_, anns) => fold_left add_ends anns b) g b)
                 <-> In x b
                     \/ exists k l a, In (k, l) g /\ In a l
                                      /\ (x = start a \/ x = end_ a).
Proof.
  induction g as [|[k l] g IH]; intros b Hb; simpl.
  - split; [assumption|]. intros x. split; [now left|].
    intros [H|(? & ? & ? & [] & _)]. exact H.
  - destruct (add_ends_fold l b Hb) as [Hn Hin].
    destruct (IH _ Hn) as [Hn' Hin']. split; [exact Hn'|].
    intros x. rewrite Hin', Hin. split.
    + intros [[H|(a & Ha & H)]|(k' & l' & a & Hg & Ha & H)].
      * now left.
      * right. exists k, l, a. auto.
      * right. exists k', l', a. auto.
    + intros [Hx|(k' & l' & a & [Heq|Hg] & Ha & Hx)].
      * now left; left.
      * injection Heq as <- <-. left. right. eauto.
      * right. eauto 6.
Qed.

(** The sorted boundaries of a text and its annotations. *)
Definition boundaries_of (t : text) (g : groups) : list Z :=
  sorted Z.leb
    (fold_left (fun b '(_, anns) => fold_left add_ends anns b) g
               (set_add (set_add [] 0) (len t))).

Lemma sorted_lt (l : list Z) :
  StronglySorted Z.le l -> NoDup l -> StronglySorted Z.lt l.
Proof.
  induction 1 as [|x l Hs IH Hall]; intros Hn; [constructor|].
  inversion Hn as [|? ? Hx Hn']; subst. constructor; [now apply IH|].
  rewrite Forall_forall in *. intros y Hy. specialize (Hall y Hy).
  assert (x <> y) by (intros ->; contradiction). lia.
Qed.

Lemma boundaries_spec (t : text) (annotations : list Annotation) :
  let b := boundaries_of t (group_annotations_by_position annotations) in
  StronglySorted Z.lt b
  /\ forall x, In x b
               <-> x = 0 \/ x = len t
                   \/ exists a, In a annotations /\ (x = start a \/ x = end_ a).
Proof.
  cbv zeta. unfold boundaries_of.
  destruct (group_annotations_ok annotations) as [Hk Hs Hc].
  set (g := group_annotations_by_position annotations) in *.
  destruct (boundaries_fold g (set_add (set_add [] 0) (len t))) as [Hn Hin].
  { apply set_add_NoDup, set_add_NoDup. constructor. }
  split.
  - apply sorted_lt.
    + apply sorted_strongly.
      * intros x y H. now apply Z.leb_le.
      * intros x y H. apply Z.leb_gt in H. lia.
      * intros; lia.
    + eapply Permutation_NoDup; [apply sorted_perm|exact Hn].
  - intros x. rewrite sorted_In, Hin, !set_add_In. split.
    + intros [[[[]|H]|H]|(k & l & a & Hg & Ha & H)]; auto.
      right. right. exists a. split; [|exact H].
      rewrite <- (groups_entry_get g k l Hk Hg) in Ha. now apply Hs in Ha.
    + intros [H|[H|(a & Ha & H)]]; auto.
      right. destruct (Hc a Ha) as [H1 _]. apply groups_get_entry in H1.
      destruct H1 as (l & Hg & Hl). exists (start a), l, a. auto.
Qed.

(** ** The segments *)

(** Consecutive spans that tile [[lo, hi]]: each is non-empty and
    starts where the previous one ends. *)
Fixpoint tiles (lo : Z) (spans : list (Z * Z)) (hi : Z) : Prop :=
  match spans with
  | [] => lo = hi
  | (s, e) :: rest => s = lo /\ s < e /\ tiles e rest hi
  end.

Lemma last_cons {A : Type} (l : list A) :
  forall x y : A, last (y :: l) x = last l y.
Proof.
  induction l as [|z l IH]; intros x y; [reflexivity|].
  change (last (y :: z :: l) x) with (last (z :: l) x).
  now rewrite (IH x z), (IH y z).
Qed.

Lemma consecutive_tiles (b : list Z) (x : Z) :
  StronglySorted Z.lt (x :: b) -> tiles x (consecutive (x :: b)) (last b x).
Proof.
  revert x. induction b as [|y b IH]; intros x Hs; [reflexivity|].
  inversion Hs as [|? ? Hs' Hall]; subst. inversion Hall; subst.
  change (consecutive (x :: y :: b)) with ((x, y) :: consecutive (y :: b)).
  cbn [tiles]. repeat split; [assumption|].
  rewrite last_cons. now apply IH.
Qed.

(** In a strictly increasing list, the right end of a pair of
    neighbours is the least element above the left end. *)
Lemma consecutive_next (b : list Z) :
  StronglySorted Z.lt b ->
  Forall (fun '(x, y) => x < y /\ In x b /\ In y b
                         /\ forall z, In z b -> x < z -> y <= z)
         (consecutive b).
Proof.
  induction 1 as [|x b Hs IH Hall]; [constructor|].
  destruct b as [|y b']; [constructor|].
  change (consecutive (x :: y :: b')) with ((x, y) :: consecutive (y :: b')).
  rewrite Forall_forall in Hall. constructor.
  - split; [apply Hall; now left|]. split; [now left|]. split; [right; now left|].
    intros z [<-|[<-|Hz]] Hxz; [lia|lia|].
    inversion Hs as [|? ? _ Hy]; subst. rewrite Forall_forall in Hy.
    specialize (Hy z Hz). lia.
  - eapply Forall_impl; [|exact IH]. intros [u v] (Huv & Hu & Hv & Hnext).
    split; [assumption|]. split; [now right|]. split; [now right|].
    intros z [<-|Hz] Huz; [|now apply Hnext].
    specialize (Hall u Hu). lia.
Qed.

Lemma segments_spans (t : text) (g : groups) :
  map fst (create_segments t g) = consecutive (boundaries_of t g).
Proof.
  unfold create_segments, boundaries_of. cbv zeta.
  rewrite map_map.
  change (fun b ann => set_add (set_add b (start ann)) (end_ ann)) with add_ends.
  induction (consecutive _) as [|[s e] l IH]; simpl; [reflexivity|]. now rewrite IH.
Qed.

(** X29.  For annotations whose two offsets lie in the text, the
    segments of [create_segments] tile the text: they are non-empty,
    the first starts at 0, each starts where the previous one ends, and
    the last ends at [len(text)]. *)
Theorem create_segments_tile (t : text) (annotations : list Annotation) :
  Forall (fun a => 0 <= start a <= len t /\ 0 <= end_ a <= len t) annotations ->
  tiles 0 (map fst (segments_of t annotations)) (len t).
Proof.
  intros Hin. unfold segments_of. rewrite segments_spans.
  destruct (boundaries_spec t annotations) as [Hs Hb].
  set (b := boundaries_of t (group_annotations_by_position annotations)) in *.
  assert (Hrange : forall x, In x b -> 0 <= x <= len t).
  { intros x Hx. apply Hb in Hx. rewrite Forall_forall in Hin.
    assert (0 <= len t) by (unfold len; lia).
    destruct Hx as [->|[->|(a & Ha & [-> | ->])]]; try lia; apply Hin in Ha; lia. }
  destruct b as [|x b'] eqn:Eb.
  - exfalso. assert (H : In 0 (@nil Z)) by (apply Hb; now left). exact H.
  - assert (Hx : x = 0).
    { assert (H0 : In 0 (x :: b')) by (apply Hb; now left).
      specialize (Hrange x (or_introl eq_refl)).
      destruct H0 as [->|H0]; [reflexivity|].
      inversion Hs as [|? ? _ Hall]; subst. rewrite Forall_forall in Hall.
      specialize (Hall 0 H0). lia. }
    assert (Hlast : last b' x = len t).
    { assert (Hl : In (len t) (x :: b')) by (apply Hb; right; now left).
      assert (Hmax : forall y, In y (x :: b') -> y <= last b' x).
      { clear -Hs. revert x Hs. induction b' as [|z b IH]; intros x Hs y Hy.
        - destruct Hy as [<-|[]]. simpl. lia.
        - inversion Hs as [|? ? Hs' Hall]; subst. rewrite last_cons.
          destruct Hy as [<-|Hy]; [|now apply IH].
          inversion Hall; subst. specialize (IH z Hs' z (or_introl eq_refl)). lia. }
      assert (Hin_last : In (last b' x) (x :: b')).
      { clear. revert x. induction b' as [|z b IH]; intros x; [now left|].
        right. rewrite last_cons. apply IH. }
      specialize (Hmax _ Hl). specialize (Hrange _ Hin_last). lia. }
    rewrite <- Hlast, <- Hx at 1. now apply consecutive_tiles.
Qed.

(** "say Hello world" with a hit on "Hello" inside a hit on the whole
    text: three segments, and the outer hit is active in the first
    only. *)
Lemma create_segments_tile_witness :
  let t := Scenarios.say_hello in
  let inner := {| start := 4; end_ := 9; marker := "ATO_HELLO"; family := "ATO";
                  label := "hello"; score := 7 # 10 |} in
  let outer := {| start := 0; end_ := 15; marker := "SEM_GREETING"; family := "SEM";
                  label := "greeting"; score := 9 # 10 |} in
  segments_of t [inner; outer] = [(0, 4, [outer]); (4, 9, [inner]); (9, 15, [])]
  /\ tiles 0 (map fst (segments_of t [inner; outer])) (len t).
Proof.
  intros t inner outer. split; [reflexivity|].
  apply (create_segments_tile t [inner; outer]).
  repeat constructor; simpl; vm_compute; congruence.
Defined.

(** X30.  In a segment of [create_segments] the active annotations are
    the annotations that start at the segment's start and end after it:
    an annotation is active in the first segment of its span only, not
    in the segments that follow inside it. *)
Theorem create_segments_active (t : text) (annotations : list Annotation) :
  Forall (fun '(s, e, active) =>
            s < e
            /\ forall a, In a active <-> In a annotations /\ start a = s /\ s < end_ a)
         (segments_of t annotations).
Proof.
  unfold segments_of, create_segments. cbv zeta.
  change (fun b ann => set_add (set_add b (start ann)) (end_ ann)) with add_ends.
  fold (boundaries_of t (group_annotations_by_position annotations)).
  destruct (boundaries_spec t annotations) as [Hs Hb].
  destruct (group_annotations_ok annotations) as [_ Hsound Hcomplete].
  set (g := group_annotations_by_position annotations) in *.
  pose proof (consecutive_next _ Hs) as Hnext.
  rewrite Forall_forall in *. intros [[s e] active] Hseg.
  apply in_map_iff in Hseg. destruct Hseg as ([s' e'] & [= <- <- <-] & Hpair).
  destruct (Hnext _ Hpair) as (Hlt & _ & _ & Hleast).
  split; [exact Hlt|]. intros a. rewrite filter_In, andb_true_iff. split.
  - intros (Ha & H1 & H2). apply Z.leb_le in H1. apply Z.geb_le in H2.
    destruct (Hsound _ _ Ha) as [Hin Hk]. split; [exact Hin|]. lia.
  - intros (Hin & Hst & Hen). split; [|split].
    + rewrite <- Hst. now apply Hcomplete.
    + apply Z.leb_le. lia.
    + apply Z.geb_le. apply Hleast; [|exact Hen].
      apply Hb. right. right. exists a. auto.
Qed.

End RendererProperties.

(* ================================================================== *)
(** * The claims of the specification                                   *)
(* ================================================================== *)

Module Claims.
Import Fixture Scenarios.

(** ** C1: non-overlap *)

(** C1.  For every text and bundle, no two annotations in the final
    output of [analyze_text] (after overlap resolution) overlap: every
    pair of output positions [i < j] holds annotations [a], [b] with
    [a.end <= b.start \/ b.end <= a.start]; hence any two annotations of
    the output are the same record or do not overlap. *)
Theorem analyze_text_non_overlap {RE : RegexEngine}
    (ast_parse : string -> option expr) {P W : Type}
    (t : text) (resources : SemCore.bundle P W) :
  let out := SemCore.annotations (SemCore.analyze_text ast_parse t resources) in
  SemCoreResolver.pairwise_disjoint out
  /\ (forall a b, In a out -> In b out ->
                  a = b \/ SemCore.end_ a <= SemCore.start b
                  \/ SemCore.end_ b <= SemCore.start a).
Proof.
  intros out.
  assert (H : SemCoreResolver.pairwise_disjoint out)
    by apply SemCoreResolver.resolve_overlaps_disjoint.
  split; [exact H|]. intros a b Ha Hb.
  destruct (ForallOrdPairs_In H a b Ha Hb) as [?|[Hd|Hd]]; [now left|right..];
    unfold SemCoreResolver.disjoint in Hd; tauto.
Qed.

(** ** C2: bounds *)

(** C2, as stated, fails.  [_detect_annotation_in_text] returns a
    zero-width annotation [(0, 0)] for a CARL marker without pattern or
    examples, which post-processing keeps; and in [sem_core] an anchor
    window [[3, -3]] turns the sentence [(0, 8)] of a 17-character text
    into [(12, -4)], which survives overlap resolution. *)
Lemma bounds_fail_on_zero_width_and_inverted_window :
  (exists a,
      LD35Engine._detect_annotation_in_text
        (LD35Engine.mkCarl (Some "SEM_X") None [] None) (of_string "abc") = Some a
      /\ LD35Engine.start a = 0 /\ LD35Engine.end_ a = 0
      /\ LD35Engine.post_process_annotations [a] = [a])
  /\ (exists a,
         In a (SemCore.annotations
                 (SemCore.analyze_text fixture_parse a_and_b
                    (sem_bundle (markers_ab (mkPolicy (Some "anchor_window") None
                                                      (Some (3, -3)) None)) None)))
         /\ SemCore.start a = 12 /\ SemCore.end_ a = -4
         /\ ~ SemCorePipeline.in_bounds a_and_b a).
Proof.
  split.
  - eexists. split; [vm_compute; reflexivity|]. repeat split; reflexivity.
  - eexists. split; [vm_compute; right; right; left; reflexivity|].
    split; [reflexivity|]. split; [reflexivity|].
    unfold SemCorePipeline.in_bounds. simpl. lia.
Qed.

(** C2, amended.  For every text and every bundle whose composed
    markers, when their span policy is neither [sentence_union] nor
    [clause_union], have an anchor window [[l, r]] with [l <= 0 <= r]
    (the default [[-8, 8]] is one), every annotation [a] of the final
    output of [analyze_text] satisfies
    [0 <= a.start < a.end <= len(text)]. *)
Theorem analyze_text_in_bounds {RE : RegexEngine}
    (ast_parse : string -> option expr) {P W : Type}
    (t : text) (resources : SemCore.bundle P W) (a : SemCore.ann) :
  forallb (fun m => SemCoreBounds.window_widens (SemCorePipeline.marker_policy m))
          (SemCore.composed (SemCore.Canon_init (SemCore.markers resources))) = true ->
  In a (SemCore.annotations (SemCore.analyze_text ast_parse t resources)) ->
  0 <= SemCore.start a /\ SemCore.start a < SemCore.end_ a /\ SemCore.end_ a <= len t.
Proof.
  intros Hw Ha. unfold SemCore.analyze_text in Ha. simpl in Ha.
  apply SemCoreResolver.resolve_overlaps_subset in Ha.
  apply in_app_or in Ha. destruct Ha as [Ha|Ha].
  - pose proof (SemCorePipeline.detect_atomics_bounds t
                  (SemCore.compile_atomic_regex (SemCore.Canon_init (SemCore.markers resources))))
      as Hb.
    rewrite Forall_forall in Hb. exact (Hb a Ha).
  - pose proof (SemCorePipeline.compose_bounds ast_parse t
                  (SemCore.Canon_init (SemCore.markers resources))
                  (SemCore.detect_atomics t
                     (SemCore.compile_atomic_regex
                        (SemCore.Canon_init (SemCore.markers resources))))
                  (SemCore.promotion resources) (SemCore.weights resources)) as Hb.
    assert (Hc : Forall (fun m => SemCoreBounds.window_widens
                                    (SemCorePipeline.marker_policy m) = true)
                        (SemCore.composed (SemCore.Canon_init (SemCore.markers resources)))).
    { rewrite Forall_forall. rewrite forallb_forall in Hw. exact Hw. }
    specialize (Hb Hc). rewrite Forall_forall in Hb. exact (Hb a Ha).
Qed.

Lemma analyze_text_in_bounds_witness :
  let a := {| SemCore.marker_id := "SEM_AB"; SemCore.family := "SEM";
              SemCore.start := 0; SemCore.end_ := 8;
              SemCore.score := Qmake 1000 1000 |} in
  0 <= SemCore.start a /\ SemCore.start a < SemCore.end_ a
  /\ SemCore.end_ a <= len a_and_b.
Proof.
  intros a.
  apply (analyze_text_in_bounds fixture_parse a_and_b
           (sem_bundle (markers_ab sentence_union_1) None) a).
  - reflexivity.
  - vm_compute. left. reflexivity.
Defined.

(** ** C3: demotion *)

(** C3 holds of [sem_core]'s detector and fails in the fallback detector
    of [ld35_engine], which never reads [demote_if].  On the scenario-2
    bundle and the text "Hello", whose only match [(0, 5)] fullmatches
    the demote pattern [^Hello$], [sem_core] reports nothing while
    [_pattern_based_detection] (through [run_inference]) emits the hit;
    and for every engine, model and text, deleting all demote patterns
    from the model leaves the result of [_pattern_based_detection]
    unchanged. *)
Theorem pattern_based_detection_ignores_demote :
  (exists demote,
      re_compile "^Hello$" 0 = Some demote
      /\ fullmatch demote (slice hello 0 5) = true)
  /\ SemCore.annotations
       (SemCore.analyze_text fixture_parse hello
          (sem_bundle [ATO_HELLO_demoted] None)) = []
  /\ LD35Engine.run_inference python_eval (ld35_model [ATO_HELLO_demoted] None []) hello
     = Ok [ {| LD35Engine.start := 0; LD35Engine.end_ := 5;
               LD35Engine.marker := "ATO_HELLO"; LD35Engine.family := "ATO";
               LD35Engine.label := "ATO_HELLO"; LD35Engine.score := 7 # 10 |} ]
  /\ (forall (RE : RegexEngine) (self : LD35Engine.LD35Model) (t : text),
         LD35Engine._pattern_based_detection (Independence.forget_demotes self) t
         = LD35Engine._pattern_based_detection self t).
Proof.
  split; [|split; [|split]].
  - eexists. split; [vm_compute; reflexivity|vm_compute; reflexivity].
  - vm_compute. reflexivity.
  - vm_compute. reflexivity.
  - intros. apply Independence.pattern_based_detection_forgets_demotes.
Qed.

(** ** C4: min_children *)




(** What [sem_core] does instead: a window without any child hit is the
    only one [compose] skips on account of its children. *)
Remark compose_window_without_children (ast_parse : string -> option expr)
    (t : text) (sentences : list (Z * Z)) (per_sent : list (list SemCore.ann))
    (m : Marker) (i0 window_size : Z) :
  SemCore.total_children
    (SemCore.window_counts (map child_marker_id (composed_of m))
       (flat_map (fun k => index [] per_sent k)
          (SemCore.range_incl i0
             (Z.min (len sentences - 1) (i0 + window_size - 1))))) = 0 ->
  SemCore.compose_window ast_parse t sentences per_sent m i0 window_size = None.
Proof. intros H. unfold SemCore.compose_window. cbv zeta. now rewrite H. Qed.

(** ** C5: promotion guards *)

(** C5 holds of [sem_core], which never consults the promotion mapping,
    and fails in [ld35_engine], where a false guard and a score under
    the rule's [min_score] are a [continue].

    On "a and b. nothing." with the rule [score > 2] for [SEM_AB]:
    [SEM_AB] is a candidate of score 1 whose guard is false;
    [run_inference] returns the two atomic hits only, and returns
    [SEM_AB] as well once the rule is taken away; [analyze_text] of
    [sem_core] returns the hit [(0, 8)] with its family [SEM] under the
    same rule.

    In general: [analyze_text] returns the same result whatever the
    promotion mapping; and in every run of [_detect_composed_markers]
    that returns, a marker that is a candidate at its turn of the loop
    and has a rule has no hit in the output when the guard is false or
    the score is under the rule's [min_score], and has exactly the
    candidate, with the family the rule names, when both tests pass;
    without a rule it has exactly the candidate as it stands. *)
Theorem failed_guard_drops_composed_hit :
  (let self := ld35_model (markers_ab sentence_union_1) None [strict_rule] in
   (exists c,
       LD35Engine.composed_candidate python_eval self a_and_b
         (LD35Engine._get_sentences a_and_b) (LD35Engine._get_tokens a_and_b) (6 # 10)
         (snd (LD35Engine._pattern_based_detection self a_and_b))
         ("SEM_AB", SEM_AB sentence_union_1) = Ok (Some c)
       /\ LD35Engine.cand_score c = 2 # 2
       /\ dict_get (LD35Engine.promotion_rules self) "SEM_AB" = Some strict_rule
       /\ LD35Composer.guard_passes python_eval strict_rule c = false)
   /\ emitted_markers (LD35Engine.run_inference python_eval self a_and_b)
      = Some ["ATO_A"; "ATO_B"]
   /\ emitted_markers
        (LD35Engine.run_inference python_eval
           (ld35_model (markers_ab sentence_union_1) None []) a_and_b)
      = Some ["ATO_A"; "ATO_B"; "SEM_AB"]
   /\ map (fun a => (SemCore.marker_id a, SemCore.family a,
                     SemCore.start a, SemCore.end_ a))
          (SemCore.annotations
             (SemCore.analyze_text fixture_parse a_and_b
                (SemCore.mkBundle _ _ (markers_ab sentence_union_1)
                                  [strict_rule] (@None weights_cfg))))
      = [("SEM_AB", "SEM", 0, 8)])
  /\ (forall (RE : RegexEngine) (ast_parse : string -> option expr)
             (P P' W : Type) (t : text) (ms : list Marker) (p : P) (p' : P') (w : W),
         SemCore.analyze_text ast_parse t (SemCore.mkBundle P W ms p w)
         = SemCore.analyze_text ast_parse t (SemCore.mkBundle P' W ms p' w))
  /\ (forall (RE : RegexEngine) (builtin_eval : string -> dict value -> option value)
             (self : LD35Engine.LD35Model) (t : text)
             (marker_matches : dict (list (Z * Z))) (out : list LD35Engine.Annotation)
             (items1 items2 : list (string * Marker)) (item : string * Marker)
             (default_score : Q) (mm : dict (list (Z * Z)))
             (c : LD35Engine.candidate),
         NoDup (map fst (LD35Engine.markers_index self)) ->
         LD35Engine._detect_composed_markers builtin_eval self t marker_matches = Ok out ->
         LD35Engine.markers_index self = items1 ++ item :: items2 ->
         LD35Composer.table_after builtin_eval self t marker_matches items1 = Ok mm ->
         LD35Engine.min_score_default self = Ok default_score ->
         LD35Engine.composed_candidate builtin_eval self t
           (LD35Engine._get_sentences t) (LD35Engine._get_tokens t)
           default_score mm item = Ok (Some c) ->
         match dict_get (LD35Engine.promotion_rules self) (fst item) with
         | Some rule =>
             if LD35Composer.guard_passes builtin_eval rule c
             then (LD35Composer.below_rule_score rule c = Ok true
                   /\ ~ In (fst item) (map LD35Engine.marker out))
                  \/ (LD35Composer.below_rule_score rule c = Ok false
                      /\ forall a, In a out /\ LD35Engine.marker a = fst item
                                   <-> a = LD35Composer.promoted rule c)
             else ~ In (fst item) (map LD35Engine.marker out)
         | None =>
             forall a, In a out /\ LD35Engine.marker a = fst item
                       <-> a = LD35Engine.emit c (LD35Engine.cand_family c)
         end).
Proof.
  split; [|split].
  - intros self. split; [|split; [|split]].
    + eexists. split; [vm_compute; reflexivity|].
      split; [reflexivity|]. split; vm_compute; reflexivity.
    + vm_compute. reflexivity.
    + vm_compute. reflexivity.
    + vm_compute. reflexivity.
  - reflexivity.
  - intros RE builtin_eval self t marker_matches out items1 items2 item d mm c
           Hnd Hrun Hsplit Hmm Hd Hc.
    destruct (dict_get (LD35Engine.promotion_rules self) (fst item)) as [rule|] eqn:Er.
    + exact (LD35Composer.promotion_rule_gates builtin_eval self t marker_matches out
               items1 items2 item d mm c rule Hnd Hrun Hsplit Hmm Hd Hc Er).
    + exact (LD35Composer.no_rule_emits builtin_eval self t marker_matches out
               items1 items2 item d mm c Hnd Hrun Hsplit Hmm Hd Hc Er).
Qed.

(** [sem_core] does not consult the promotion mapping: [compose] returns
    the same hits whatever mapping it is handed. *)
Remark compose_ignores_promotion (ast_parse : string -> option expr)
    {P P' W : Type} (t : text) (canon : SemCore.Canon) (atoms : list SemCore.ann)
    (p : P) (p' : P') (w : W) :
  SemCore.compose ast_parse t canon atoms p w
  = SemCore.compose ast_parse t canon atoms p' w.
Proof. reflexivity. Qed.

(** ** C6: scores of atomic hits *)

(** C6, as stated, fails: a declared score is normalised before use.
    [ld35_engine] turns the declared [scoring.weight = 0.1] of
    [ATO_HELLO] into the score 0.3.  And [sem_core]'s [detect_atomics]
    gives the hit of scenario 1, whose marker declares no score, the
    score 1.0 rather than 0.7. *)
Lemma atomic_score_is_not_the_declared_score :
  (exists a,
      LD35Engine.run_inference python_eval (ld35_model [ATO_HELLO_low] None []) say_hello
      = Ok [a]
      /\ scoring ATO_HELLO_low = Some (mkScoring (Some (1 # 10)) None None)
      /\ LD35Engine.score a = 3 # 10)
  /\ ~ (3 # 10 == 1 # 10)%Q
  /\ map SemCore.score
         (SemCore.annotations
            (SemCore.analyze_text fixture_parse say_hello (sem_bundle [ATO_HELLO] None)))
     = [1%Q]
  /\ ~ (1 == 7 # 10)%Q.
Proof.
  split; [|split; [discriminate|split; [vm_compute; reflexivity|discriminate]]].
  eexists. split; [vm_compute; reflexivity|]. split; reflexivity.
Qed.

(** C6, amended.  Every atomic hit [a] that [ld35_engine]'s
    [_pattern_based_detection] emits belongs to a marker of the index
    that has a base score [_get_marker_score], and
    - when the span of [a] is a match of one of the marker's regex
      patterns, the score of [a] is the base score;
    - otherwise the span is a match of one of the marker's literal terms
      and the score of [a] is [max(0.4, base - 0.1)].
    The base score is 0.7 when the marker declares no numeric score (so
    a regex hit of such a marker has score exactly 0.7); otherwise it is
    a function of the largest declared candidate [M]: 0.3 for
    [M <= 0.3], [M] up to 1, [M / 2] up to 2, and 1 beyond. *)
Theorem atomic_hit_scores {RE : RegexEngine}
    (self : LD35Engine.LD35Model) (t : text) (a : LD35Engine.Annotation) :
  In a (fst (LD35Engine._pattern_based_detection self t)) ->
  exists marker_data base,
    let item := (LD35Engine.marker a, marker_data) in
    In item (LD35Engine.markers_index self)
    /\ LD35Engine._get_marker_score marker_data = Ok base
    /\ (In (LD35Facts.span a) (LD35Facts.regex_spans self t item) ->
        LD35Engine.score a = base)
    /\ (~ In (LD35Facts.span a) (LD35Facts.regex_spans self t item) ->
        In (LD35Facts.span a) (LD35Facts.literal_spans self t item)
        /\ LD35Engine.score a = LD35Engine.Qmax (4 # 10) (base - (1 # 10)))
    /\ (LD35Engine.score_candidates_of marker_data = [] ->
        base = 7 # 10
        /\ (In (LD35Facts.span a) (LD35Facts.regex_spans self t item) ->
            LD35Engine.score a = 7 # 10))
    /\ (LD35Engine.score_candidates_of marker_data <> [] ->
        exists M,
          In M (LD35Engine.score_candidates_of marker_data)
          /\ Forall (fun c => (c <= M)%Q) (LD35Engine.score_candidates_of marker_data)
          /\ LD35Facts.normalised M base).
Proof.
  intros Ha. apply LD35Facts.pattern_based_detection_hit_of in Ha.
  destruct Ha as (md & Hin & _ & _ & base & Hb & Hsc). cbn [snd] in Hb.
  exists md, base. cbv zeta. split; [exact Hin|]. split; [exact Hb|].
  split; [|split; [|split]].
  - intros Hre. destruct Hsc as [[_ H]|(Hn & _)]; [exact H|contradiction].
  - intros Hn. destruct Hsc as [[Hre _]|(_ & Hl & H)]; [contradiction|now split].
  - intros Hnone. assert (Hbase : base = 7 # 10).
    { unfold LD35Engine._get_marker_score in Hb. rewrite Hnone in Hb. simpl in Hb.
      now injection Hb as <-. }
    split; [exact Hbase|]. intros Hre.
    destruct Hsc as [[_ H]|(Hn & _)]; [congruence|contradiction].
  - intros Hsome. now apply LD35Facts.get_marker_score_declared.
Qed.

(** Scenario 1: the hit [(4, 9)] of [ATO_HELLO] in "say Hello world" is
    a regex hit of a marker without declared score. *)
Lemma atomic_hit_scores_witness :
  let self := ld35_model [ATO_HELLO] None [] in
  let a := {| LD35Engine.start := 4; LD35Engine.end_ := 9;
              LD35Engine.marker := "ATO_HELLO"; LD35Engine.family := "ATO";
              LD35Engine.label := "ATO_HELLO"; LD35Engine.score := 7 # 10 |} in
  fst (LD35Engine._pattern_based_detection self say_hello) = [a]
  /\ exists marker_data base,
       let item := (LD35Engine.marker a, marker_data) in
       In item (LD35Engine.markers_index self)
       /\ LD35Engine._get_marker_score marker_data = Ok base
       /\ (In (LD35Facts.span a) (LD35Facts.regex_spans self say_hello item) ->
           LD35Engine.score a = base)
       /\ (~ In (LD35Facts.span a) (LD35Facts.regex_spans self say_hello item) ->
           In (LD35Facts.span a) (LD35Facts.literal_spans self say_hello item)
           /\ LD35Engine.score a = LD35Engine.Qmax (4 # 10) (base - (1 # 10)))
       /\ (LD35Engine.score_candidates_of marker_data = [] ->
           base = 7 # 10
           /\ (In (LD35Facts.span a) (LD35Facts.regex_spans self say_hello item) ->
               LD35Engine.score a = 7 # 10))
       /\ (LD35Engine.score_candidates_of marker_data <> [] ->
           exists M,
             In M (LD35Engine.score_candidates_of marker_data)
             /\ Forall (fun c => (c <= M)%Q)
                       (LD35Engine.score_candidates_of marker_data)
             /\ LD35Facts.normalised M base).
Proof.
  intros self a. split; [vm_compute; reflexivity|].
  apply (atomic_hit_scores self say_hello a).
  vm_compute. left. reflexivity.
Defined.

(** What [sem_core] does instead: every hit of [detect_atomics] has the
    score 1.0. *)
Remark detect_atomics_score_one {RE : RegexEngine} (t : text)
    (rx_index : dict SemCore.rx_entry) (a : SemCore.ann) :
  In a (SemCore.detect_atomics t rx_index) -> SemCore.score a = 1%Q.
Proof.
  intros Ha. apply SemCorePipeline.detect_atomics_spec in Ha.
  destruct Ha as (ps & ds & p & _ & _ & Ha).
  now apply SemCorePipeline.pattern_hits_spec in Ha.
Qed.

(** ** C7: sentence spans *)

(** C7, as stated, fails on double newlines: for "a.", an empty line and
    "b", [sentence_boundaries] returns a zero-width span [(2, 2)] and
    resumes at 3, skipping the newline at 2.  The splitter of
    [ld35_engine] also leaves gaps: it drops the newline between "Hi."
    and "Bye.". *)
Lemma sentence_spans_do_not_abut :
  SemCore.sentence_boundaries two_paragraphs = [(0, 2); (2, 2); (3, 5)]
  /\ ~ SemCoreSegmenter.abut 0 (SemCore.sentence_boundaries two_paragraphs)
                             (len two_paragraphs)
  /\ LD35Engine._get_sentences two_lines = [(0, 3); (4, 8)]
  /\ ~ SemCoreSegmenter.abut 0 (LD35Engine._get_sentences two_lines) (len two_lines).
Proof.
  assert (H1 : SemCore.sentence_boundaries two_paragraphs = [(0, 2); (2, 2); (3, 5)])
    by (vm_compute; reflexivity).
  assert (H2 : LD35Engine._get_sentences two_lines = [(0, 3); (4, 8)])
    by (vm_compute; reflexivity).
  rewrite H1, H2. repeat split; simpl; lia.
Qed.

(** C7, amended.  For every text in which no newline is immediately
    followed by a newline or a carriage return, the spans of
    [sentence_boundaries] cover the input: the first starts at 0, each
    is non-empty and starts where the previous one ends, and the last
    ends at [len(text)] (the empty text has no span). *)
Theorem sentence_boundaries_abut (t : text) :
  SemCoreSegmenter.has_hard_break t = false ->
  SemCoreSegmenter.abut 0 (SemCore.sentence_boundaries t) (len t).
Proof. apply SemCoreSegmenter.abut_without_hard_break. Qed.

Lemma sentence_boundaries_abut_witness :
  SemCoreSegmenter.abut 0 (SemCore.sentence_boundaries a_and_b) (len a_and_b).
Proof. apply (sentence_boundaries_abut a_and_b). reflexivity. Defined.

(** ** C8: unknown names *)

(** C8 holds of [sem_core]'s [_eval], where a name missing from the
    environment is the integer 0, and fails in [ld35_engine], whose
    [_evaluate_expression] hands the expression to [eval]: there the
    unbound name of "x < 1" raises [NameError] over an empty
    environment, and the expression is false by error, while
    [eval_activation] evaluates it to true. *)
Theorem evaluate_expression_unknown_name_is_error :
  python_eval "x < 1" [] = None
  /\ LD35Engine._evaluate_expression python_eval (Some "x < 1") [] = false
  /\ SemCore.eval_activation fixture_parse (Some "x < 1") [] = true
  /\ (forall env x, dict_get env x = None ->
                    SemCore._eval (Name x) env = Some (VInt 0)).
Proof.
  split; [|split; [|split]]; try (vm_compute; reflexivity).
  apply SemCoreDetector.eval_unknown_name.
Qed.

(** ** C9: ties in the overlap resolver *)

(** C9, as stated, fails: [marker_id] is never compared.  Of the two
    fully overlapping hits [SEM_A], [SEM_B] with equal family, score and
    length, the one that comes first in the input is kept, so two
    permutations of the same input give different outputs and the
    lexicographically larger id can win. *)
Lemma resolve_overlaps_depends_on_input_order :
  Permutation [hit_B; hit_A] [hit_A; hit_B]
  /\ SemCore.resolve_overlaps [hit_B; hit_A] tt = [hit_B]
  /\ SemCore.resolve_overlaps [hit_A; hit_B] tt = [hit_A]
  /\ SemCore.resolve_overlaps [hit_B; hit_A] tt <> SemCore.resolve_overlaps [hit_A; hit_B] tt
  /\ string_ltb (SemCore.marker_id hit_A) (SemCore.marker_id hit_B) = true.
Proof.
  split; [apply perm_swap|].
  split; [vm_compute; reflexivity|]. split; [vm_compute; reflexivity|].
  split; [vm_compute; discriminate|reflexivity].
Qed.

(** C9, amended.  Of two fully overlapping hits with equal family rank,
    score and length, the overlap resolver keeps the one that comes
    first in its input, whatever the two marker ids are; and it never
    compares marker ids: renaming the ids of the input renames the
    output and changes nothing else. *)
Theorem resolve_overlaps_tie_keeps_first :
  (forall (W : Type) (a b : SemCore.ann) (w : W),
      SemCore.start a = SemCore.start b ->
      SemCore.end_ a = SemCore.end_ b ->
      SemCore.start a < SemCore.end_ a ->
      SemCore.FAMILY_ORDER (SemCore.family a) = SemCore.FAMILY_ORDER (SemCore.family b) ->
      (SemCore.score a == SemCore.score b)%Q ->
      SemCore.resolve_overlaps [a; b] w = [a])
  /\ (forall (W : Type) (f : string -> string) (anns : list SemCore.ann) (w : W),
         SemCore.resolve_overlaps (map (Independence.rename f) anns) w
         = map (Independence.rename f) (SemCore.resolve_overlaps anns w)).
Proof.
  split; [|intros; apply Independence.resolve_overlaps_rename].
  intros W a b w Hs He Hne Hf Hq. unfold SemCore.resolve_overlaps. simpl sorted.
  assert (Hle : SemCore.position_le a b = true).
  { unfold SemCore.position_le, SemCore.position_key, pair_le. simpl.
    rewrite Hs, He, Z.eqb_refl, Z.leb_refl. apply orb_true_r. }
  rewrite Hle. simpl fold_left. unfold SemCore.resolve_step at 2. simpl.
  unfold SemCore.resolve_step. simpl.
  assert (Ho : SemCore.overlaps b a = true).
  { apply SemCoreResolver.overlaps_true. lia. }
  assert (Hwin : SemCore.current_wins b a = false).
  { assert (Hqle : Qle_bool (SemCore.score b) (SemCore.score a) = true).
    { apply Qle_bool_iff. rewrite Hq. apply Qle_refl. }
    unfold SemCore.current_wins. cbv zeta. rewrite Hf.
    apply orb_false_iff. split; [apply orb_false_iff; split|].
    - apply Z.ltb_irrefl.
    - unfold Qgtb. rewrite Hqle. apply andb_false_r.
    - apply andb_false_iff. right. rewrite Z.gtb_ltb. apply Z.ltb_ge. lia. }
  now rewrite Ho, Hwin.
Qed.

Lemma resolve_overlaps_tie_keeps_first_witness :
  SemCore.resolve_overlaps [hit_B; hit_A] tt = [hit_B].
Proof.
  apply (proj1 resolve_overlaps_tie_keeps_first unit hit_B hit_A tt);
    try reflexivity; simpl; lia.
Defined.

(** ** C10: the resolvers only select *)

(** C10.  Both overlap resolvers only select: every annotation of the
    output of [resolve_overlaps], and of [resolve_overlapping_annotations],
    is an element of the input list (the same record, so start, end,
    marker, family and score are untouched), the output is no longer
    than the input, and so the metadata of [analyze_text] satisfy
    [final_count <= atomic_count + composed_count]. *)
Theorem resolvers_only_select {RE : RegexEngine} (ast_parse : string -> option expr) :
  (forall (W : Type) (anns : list SemCore.ann) (w : W),
      incl (SemCore.resolve_overlaps anns w) anns
      /\ (List.length (SemCore.resolve_overlaps anns w) <= List.length anns)%nat)
  /\ (forall anns : list LD35Engine.Annotation,
         incl (LD35Engine.resolve_overlapping_annotations anns) anns
         /\ (List.length (LD35Engine.resolve_overlapping_annotations anns)
             <= List.length anns)%nat)
  /\ (forall (P W : Type) (t : text) (resources : SemCore.bundle P W),
         let m := SemCore.result_metadata (SemCore.analyze_text ast_parse t resources) in
         SemCore.final_count m <= SemCore.atomic_count m + SemCore.composed_count m).
Proof.
  split; [|split].
  - intros W anns w. destruct (SemCoreResolver.resolve_overlaps_subset anns w).
    split; assumption.
  - apply LD35Facts.resolve_overlapping_annotations_subset.
  - intros P W t resources. simpl. unfold len.
    match goal with
    | |- Z.of_nat (List.length (SemCore.resolve_overlaps (?x ++ ?y) ?w)) <= _ =>
        destruct (SemCoreResolver.resolve_overlaps_subset (x ++ y) w) as [_ Hlen];
        rewrite length_app in Hlen
    end.
    lia.
Qed.

End Claims.
